(** * Lab2Var5: parallel summation of integer vectors

    A shallow embedding of [src/Lab2Var5.cpp] (class [VectorSumCalculator]
    and [main]) together with the properties of its partitioning loop, its
    worker, its validator, its report and its entry point.

    Conventions of the embedding:
    - [int], [size_t] and [long long] values are integers in [Z]; the
      conversions and the additions of the source are written with their
      wrap-around ([int_of], [size_t_of], [ll_of]), also where C++ leaves a
      signed overflow undefined: the theorems show that none occurs; the
      counting loops are folds over the indices they run through;
    - [std::vector] is a list read and written by index with stdpp's
      lookup and insert; an access outside the vector, a division by zero
      and a distribution built on an empty interval are undefined in C++
      and give [Undefined];
    - the random engines, the clock and the allocator are not part of the
      program text: their answers are read from an environment [env];
    - the threads of a trial are run in the order of their creation by
      [measureExecutionTime]; the relation [interleaving] lets them take
      the turns of their loops in any order, the relation [locked_step]
      adds [output_mutex] to it, and [measured] is the parallel phase
      under any of these schedules;
    - the mean [avg_sum] is the exact quotient; the program divides two
      [double]s, which is this quotient rounded as long as the total is at
      most 2^53 in absolute value: the properties of the mean assume it;
    - the lines written to [cout] are kept, in order, in the state. *)

From Stdlib Require Import ZArith List Lia String QArith Qround.
From stdpp Require Import base tactics option list list_numbers relations.

Local Open Scope Z_scope.

(** ** Machine integers *)

Module MachineInt.

Definition INT_MIN : Z := - 2 ^ 31.
Definition INT_MAX : Z := 2 ^ 31 - 1.
Definition LLONG_MIN : Z := - 2 ^ 63.
Definition LLONG_MAX : Z := 2 ^ 63 - 1.

(** Conversion to [int] (32 bits, two's complement). *)
Definition int_of (z : Z) : Z := (z + 2 ^ 31) mod 2 ^ 32 - 2 ^ 31.

(** Conversion to [size_t] (64 bits, unsigned). *)
Definition size_t_of (z : Z) : Z := z mod 2 ^ 64.

(** Conversion to [long long] (64 bits, two's complement). *)
Definition ll_of (z : Z) : Z := (z + 2 ^ 63) mod 2 ^ 64 - 2 ^ 63.

Definition is_int (z : Z) : Prop := INT_MIN <= z <= INT_MAX.
Definition is_ll (z : Z) : Prop := LLONG_MIN <= z <= LLONG_MAX.

End MachineInt.
Export MachineInt.

(** ** Output and outcomes *)

(** The lines the program prints, with the values they show. *)
Inductive line : Type :=
  | LTitle
  | LParameters
  | LValueRange
  | LGenerating
  | LGenerated
  | LTrial (num_threads : Z)
  | LWorker (thread_id first_idx last_idx : Z)
  | LMismatch (idx : Z)
  | LCorrect
  | LTime (ms : Q)
  | LTableTitle
  | LTableHeader
  | LTableRow (num_threads : Z) (ms : Q)
  | LStatsTitle
  | LMin (s : Z)
  | LMax (s : Z)
  | LAvg (s : Q)
  | LFirstTitle
  | LVector (i s : Z)
  | LError (what : string).

(** A computation returns, throws a [std::exception] (with its [what()]
    and the lines printed before the throw) or has undefined behaviour. *)
Inductive outcome (A : Type) : Type :=
  | Done (a : A)
  | Throws (what : string) (printed : list line)
  | Undefined.
Arguments Done {A} a.
Arguments Throws {A} what printed.
Arguments Undefined {A}.

#[global] Instance outcome_ret : MRet outcome := fun A a => Done a.
#[global] Instance outcome_bind : MBind outcome := fun A B f m =>
  match m with
  | Done a => f a
  | Throws what printed => Throws what printed
  | Undefined => Undefined
  end.

(** [for (x : xs) body] threading a state. *)
Fixpoint for_each {A S : Type} (body : A -> S -> outcome S) (xs : list A) (s : S)
  : outcome S :=
  match xs with
  | [] => Done s
  | x :: xs' => s' ← body x s; for_each body xs' s'
  end.

(** ** The calculator object *)

Record VectorSumCalculator : Type := mkCalc {
  vectors : list (list Z);
  sums : list Z;
  cout : list line
}.

(** [cout << ... << endl] *)
Definition print (l : line) (c : VectorSumCalculator) : VectorSumCalculator :=
  mkCalc (vectors c) (sums c) (cout c ++ [l]).

(** [v[i]] for reading: undefined outside the vector. *)
Definition at_index {A : Type} (v : list A) (i : Z) : outcome A :=
  if (0 <=? i) && (i <? Z.of_nat (length v))
  then match v !! Z.to_nat i with Some x => Done x | None => Undefined end
  else Undefined.

(** [sums[i] = x]: undefined outside the vector. *)
Definition store_sum (i x : Z) (c : VectorSumCalculator) : outcome VectorSumCalculator :=
  if (0 <=? i) && (i <? Z.of_nat (length (sums c)))
  then Done (mkCalc (vectors c) (<[Z.to_nat i := x]> (sums c)) (cout c))
  else Undefined.

(** The inner loop of the worker and of the validator:
    [long long sum = 0; for (int value : v) sum += value;]. *)
Definition sum_vector (v : list Z) : Z :=
  fold_left (fun sum value => ll_of (sum + value)) v 0.

(** The values [sum + value] of the successive additions, before each is
    stored into the 64-bit accumulator. *)
Fixpoint partial_sums (sum : Z) (v : list Z) : list Z :=
  match v with
  | [] => []
  | value :: v' => (sum + value) :: partial_sums (ll_of (sum + value)) v'
  end.

(** The mathematical sum of a vector. *)
Definition exact_sum (v : list Z) : Z := fold_right Z.add 0 v.

(** One turn of the outer loop of [calculateSumsRange]. *)
Definition sum_one (i : Z) (c : VectorSumCalculator) : outcome VectorSumCalculator :=
  v ← at_index (vectors c) i;
  store_sum i (sum_vector v) c.

(** [calculateSumsRange]: the loop over [[start_idx, end_idx)], then the
    line printed under the lock. *)
Definition calculateSumsRange (start_idx end_idx thread_id : Z)
    (c : VectorSumCalculator) : outcome VectorSumCalculator :=
  c' ← for_each sum_one (seqZ start_idx (end_idx - start_idx)) c;
  Done (print (LWorker thread_id start_idx (int_of (end_idx - 1))) c').

(** ** Partitioning and the timed parallel phase *)

Definition size {A : Type} (v : list A) : Z := Z.of_nat (length v).

(** [int vectors_per_thread = vectors.size() / num_threads;] the [int]
    divisor is converted to [size_t], the quotient back to [int]. *)
Definition vectors_per_thread (n num_threads : Z) : Z :=
  int_of (n / size_t_of num_threads).

(** [int remaining_vectors = vectors.size() % num_threads;] *)
Definition remaining_vectors (n num_threads : Z) : Z :=
  int_of (n mod size_t_of num_threads).

(** The arguments [(current_start, end_idx, i + 1)] of one thread. *)
Record launch : Type := mkLaunch {
  l_start : Z;
  l_end : Z;
  l_id : Z
}.

(** The loop that creates the threads, for [i] running over [ids]. *)
Fixpoint launch_loop (ids : list Z) (current_start per_thread remaining : Z)
  : list launch :=
  match ids with
  | [] => []
  | i :: ids' =>
      let vectors_for_this_thread :=
        if i <? remaining then int_of (per_thread + 1) else per_thread in
      let end_idx := int_of (current_start + vectors_for_this_thread) in
      mkLaunch current_start end_idx (int_of (i + 1))
        :: launch_loop ids' end_idx per_thread remaining
  end.

(** The threads created by [measureExecutionTime] over [n] vectors. *)
Definition thread_launches (n num_threads : Z) : outcome (list launch) :=
  if size_t_of num_threads =? 0 then Undefined
  else Done (launch_loop (seqZ 0 num_threads) 0
               (vectors_per_thread n num_threads)
               (remaining_vectors n num_threads)).

Definition run_launch (l : launch) (c : VectorSumCalculator)
  : outcome VectorSumCalculator :=
  calculateSumsRange (l_start l) (l_end l) (l_id l) c.

(** [measureExecutionTime]: the threads are run one after the other in the
    order of their creation, which is one of the schedules of the source
    (the others are the subject of [interleaving] below); [elapsed_us] is
    the value of [duration.count()], the result is in milliseconds. *)
Definition measureExecutionTime (num_threads elapsed_us : Z)
    (c : VectorSumCalculator) : outcome (Q * VectorSumCalculator) :=
  ls ← thread_launches (size (vectors c)) num_threads;
  c' ← for_each run_launch ls c;
  Done (Qmake elapsed_us 1000, c').

(** *** All schedules of the threads

    A running thread is its range and its loop counter; a step of the
    parallel phase is one turn of the outer loop of one thread, or the
    line it prints when its loop is over. *)
Record thread : Type := mkThread {
  t_launch : launch;
  t_i : Z;
  t_printed : bool
}.

Definition spawn (l : launch) : thread := mkThread l (l_start l) false.

Definition finished (t : thread) : Prop :=
  l_end (t_launch t) <= t_i t /\ t_printed t = true.

Inductive thread_step : thread * VectorSumCalculator -> thread * VectorSumCalculator -> Prop :=
  | step_turn l i c c' :
      i < l_end l ->
      sum_one i c = Done c' ->
      thread_step (mkThread l i false, c) (mkThread l (i + 1) false, c')
  | step_print l i c :
      l_end l <= i ->
      thread_step (mkThread l i false, c)
        (mkThread l i true,
         print (LWorker (l_id l) (l_start l) (int_of (l_end l - 1))) c).

Inductive interleaving : list thread * VectorSumCalculator -> list thread * VectorSumCalculator -> Prop :=
  | interleaving_step ts k t t' c c' :
      ts !! k = Some t ->
      thread_step (t, c) (t', c') ->
      interleaving (ts, c) (<[k := t']> ts, c').

(** *** The lock on the output

    The same threads with [output_mutex].  A thread whose loop is over
    calls the constructor of [lock_guard], which returns once it has taken
    the mutex, and takes it only when no thread holds it; the thread then
    prints its line, and the destructor of the guard gives the mutex back.
    All the threads are there from the start: a thread that has not been
    created yet is a thread that has not taken a step. *)
Inductive phase : Type :=
  | InLoop      (* in the loop, or at the constructor of the guard *)
  | Locked      (* holds the mutex, has not printed its line *)
  | Written     (* holds the mutex, has printed its line *)
  | Returned.   (* has given the mutex back *)

Record locked_thread : Type := mkLocked {
  lt_launch : launch;
  lt_i : Z;
  lt_phase : phase
}.

Definition lock_spawn (l : launch) : locked_thread := mkLocked l (l_start l) InLoop.

(** The threads, the object they share and the mutex: [None] when it is
    free, or the rank of the thread that holds it. *)
Record machine : Type := mkMachine {
  m_threads : list locked_thread;
  m_calc : VectorSumCalculator;
  output_mutex : option nat
}.

(** A step of the parallel phase: a thread takes one turn of its loop; a
    thread whose loop is over takes the mutex, which must be free; the
    thread that has taken it prints its line; the thread that has printed
    gives the mutex back and returns. *)
Inductive locked_step : machine -> machine -> Prop :=
  | locked_turn ts k l i c c' mutex :
      ts !! k = Some (mkLocked l i InLoop) ->
      i < l_end l ->
      sum_one i c = Done c' ->
      locked_step (mkMachine ts c mutex)
        (mkMachine (<[k := mkLocked l (i + 1) InLoop]> ts) c' mutex)
  | locked_lock ts k l i c :
      ts !! k = Some (mkLocked l i InLoop) ->
      l_end l <= i ->
      locked_step (mkMachine ts c None)
        (mkMachine (<[k := mkLocked l i Locked]> ts) c (Some k))
  | locked_print ts k l i c mutex :
      ts !! k = Some (mkLocked l i Locked) ->
      locked_step (mkMachine ts c mutex)
        (mkMachine (<[k := mkLocked l i Written]> ts)
           (print (LWorker (l_id l) (l_start l) (int_of (l_end l - 1))) c) mutex)
  | locked_unlock ts k l i c mutex :
      ts !! k = Some (mkLocked l i Written) ->
      locked_step (mkMachine ts c mutex)
        (mkMachine (<[k := mkLocked l i Returned]> ts) c None).

(** The thread function of [t] has returned: [join] on it returns. *)
Definition returned (t : locked_thread) : Prop := lt_phase t = Returned.

(** ** The validator *)

(** The body of the validation loop, for the tests [tests]; [draw t] is
    the value of the [t]-th call [dis(gen)]. *)
Fixpoint validate_loop (draw : nat -> Z) (tests : list nat) (c : VectorSumCalculator)
  : outcome (bool * VectorSumCalculator) :=
  match tests with
  | [] => Done (true, c)
  | test :: tests' =>
      let idx := draw test in
      v ← at_index (vectors c) idx;
      let expected_sum := sum_vector v in
      s ← at_index (sums c) idx;
      if s =? expected_sum then validate_loop draw tests' c
      else Done (false, print (LMismatch idx) c)
  end.

(** The upper bound given to [uniform_int_distribution<int>]. *)
Definition validate_bound (c : VectorSumCalculator) : Z :=
  int_of (size_t_of (size (vectors c) - 1)).

(** [validateResults]: a distribution over [[a, b]] requires [a <= b]; the
    indices it gives lie in [[a, b]], which the properties below assume of
    [draw]. *)
Definition validateResults (draw : nat -> Z) (c : VectorSumCalculator)
  : outcome (bool * VectorSumCalculator) :=
  if validate_bound c <? 0 then Undefined
  else validate_loop draw (seq 0 10) c.

(** ** The environment *)

Record env : Type := mkEnv {
  (** [alloc call]: the answer of the allocator to the [call]-th [resize]
      of the generator: [None], or the [what()] of the exception it
      throws. *)
  alloc : nat -> option string;
  (** the [k]-th value drawn by the generator *)
  gen_draw : nat -> Z;
  (** the [t]-th index drawn by the validator of the [k]-th trial *)
  val_draw : nat -> nat -> Z;
  (** [duration.count()], in microseconds, of the [k]-th trial *)
  elapsed : nat -> Z
}.

(** ** The data generator *)

(** [v.resize(count)]: [count] is converted to [size_t]. *)
Definition resize {A : Type} (e : env) (call : nat) (count : Z) (zero : A)
    (v : list A) (printed : list line) : outcome (list A) :=
  match alloc e call with
  | Some what => Throws what printed
  | None =>
      let n := Z.to_nat (size_t_of count) in
      Done (take n v ++ replicate (n - length v)%nat zero)
  end.

(** One turn of the outer loop of [generateVectors]. *)
Definition generate_one (e : env) (vector_size : Z) (i : Z)
    (c : VectorSumCalculator) : outcome VectorSumCalculator :=
  old ← at_index (vectors c) i;
  row ← resize e (S (Z.to_nat i)) vector_size 0 old (cout c);
  let row' := foldl (fun r j => <[Z.to_nat j := gen_draw e (Z.to_nat (i * vector_size + j))]> r)
                row (seqZ 0 vector_size) in
  Done (mkCalc (<[Z.to_nat i := row']> (vectors c)) (sums c) (cout c)).

(** [generateVectors]: [vectors.clear(); vectors.resize(num_vectors);],
    the distribution over [[min_val, max_val]], the two loops, then
    [sums.resize(num_vectors)].  The values drawn are those of [gen_draw],
    in the order of the calls [dis(gen)]. *)
Definition generateVectors (num_vectors vector_size min_val max_val : Z)
    (e : env) (c : VectorSumCalculator) : outcome VectorSumCalculator :=
  vs ← resize e 0 num_vectors [] [] (cout c);
  if max_val <? min_val then Undefined
  else
    c1 ← for_each (generate_one e vector_size) (seqZ 0 num_vectors)
           (mkCalc vs (sums c) (cout c));
    ss ← resize e (S (Z.to_nat num_vectors)) num_vectors 0 (sums c1) (cout c1);
    Done (mkCalc (vectors c1) ss (cout c1)).

(** ** The report *)

(** [fill(sums.begin(), sums.end(), 0)] *)
Definition fill_zero (c : VectorSumCalculator) : VectorSumCalculator :=
  mkCalc (vectors c) (replicate (length (sums c)) 0) (cout c).

(** The end of the body of the loop over [thread_counts]: the time is
    recorded, the results are validated, the time is printed. *)
Definition finish_trial (draw : nat -> Z) (time : Q)
    (s : VectorSumCalculator * list Q) : outcome (VectorSumCalculator * list Q) :=
  let '(c, execution_times) := s in
  let execution_times := execution_times ++ [time] in
  v ← validateResults draw c;
  let '(ok, c) := v in
  let c := if ok : bool then print LCorrect c else c in
  Done (print (LTime time) c, execution_times).

(** The body of the loop over [thread_counts], for the [k]-th trial. *)
Definition trial (e : env) (kn : nat * Z) (s : VectorSumCalculator * list Q)
  : outcome (VectorSumCalculator * list Q) :=
  let '(k, num_threads) := kn in
  let '(c, execution_times) := s in
  let c := fill_zero (print (LTrial num_threads) c) in
  r ← measureExecutionTime num_threads (elapsed e k) c;
  finish_trial (val_draw e k) r.1 (r.2, execution_times).

Definition run_trials (e : env) (thread_counts : list Z) (c : VectorSumCalculator)
  : outcome (VectorSumCalculator * list Q) :=
  for_each (trial e) (zip (seq 0 (length thread_counts)) thread_counts) (c, []).

(** One row of the table of times. *)
Definition table_row (thread_counts : list Z) (execution_times : list Q) (i : Z)
    (c : VectorSumCalculator) : outcome VectorSumCalculator :=
  n ← at_index thread_counts i;
  t ← at_index execution_times i;
  Done (print (LTableRow n t) c).

(** [*min_element(first, last)], [*max_element(first, last)]: undefined
    on an empty range, where the iterator returned is [last]. *)
Definition min_element (v : list Z) : outcome Z :=
  match v with
  | [] => Undefined
  | x :: v' => Done (fold_left Z.min v' x)
  end.

Definition max_element (v : list Z) : outcome Z :=
  match v with
  | [] => Undefined
  | x :: v' => Done (fold_left Z.max v' x)
  end.

(** [long long total_sum = 0; for (long long sum : sums) total_sum += sum;] *)
Definition total_sum (v : list Z) : Z :=
  fold_left (fun total sum => ll_of (total + sum)) v 0.

(** [static_cast<double>(total_sum) / sums.size()], as the exact quotient. *)
Definition avg_sum (v : list Z) : Q := Qmake (total_sum v) (Z.to_pos (size v)).

Definition print_vector (i : Z) (c : VectorSumCalculator) : outcome VectorSumCalculator :=
  s ← at_index (sums c) i;
  Done (print (LVector i s) c).

(** What [runBenchmark] prints after the table. *)
Definition statistics (c : VectorSumCalculator) : outcome VectorSumCalculator :=
  let c := print LStatsTitle c in
  min_sum ← min_element (sums c);
  max_sum ← max_element (sums c);
  let c := print (LAvg (avg_sum (sums c))) (print (LMax max_sum) (print (LMin min_sum) c)) in
  let c := print LFirstTitle c in
  for_each print_vector (seqZ 0 (Z.min 10 (int_of (size (sums c))))) c.

(** The lines printed before the generation. *)
Definition print_header (c : VectorSumCalculator) : VectorSumCalculator :=
  print LGenerating (print LValueRange (print LParameters (print LTitle c))).

(** [runBenchmark] with its constants as parameters. *)
Definition benchmark (num_vectors vector_size min_val max_val : Z)
    (thread_counts : list Z) (e : env) (c : VectorSumCalculator)
  : outcome VectorSumCalculator :=
  let c := print_header c in
  c ← generateVectors num_vectors vector_size min_val max_val e c;
  let c := print LGenerated c in
  r ← run_trials e thread_counts c;
  let '(c, execution_times) := r in
  let c := print LTableHeader (print LTableTitle c) in
  c ← for_each (table_row thread_counts execution_times)
        (seqZ 0 (size thread_counts)) c;
  statistics c.

Definition runBenchmark : env -> VectorSumCalculator -> outcome VectorSumCalculator :=
  benchmark 30000 100 (-1000) 1000 [1; 2; 4].

(** ** The entry point *)

Record process : Type := mkProcess {
  exit_code : Z;
  stdout : list line;
  stderr : list line
}.

(** A calculator as its constructor leaves it. *)
Definition calculator : VectorSumCalculator := mkCalc [] [] [].

(** [main]: [None] when the run has undefined behaviour. *)
Definition main (e : env) : option process :=
  match runBenchmark e calculator with
  | Done c => Some (mkProcess 0 (cout c) [])
  | Throws what printed => Some (mkProcess 1 printed [LError what])
  | Undefined => None
  end.

(** ** A run, whatever the schedule of its threads

    [measureExecutionTime] when its threads run together: it returns when
    every thread has returned, which is what the calls of [join] wait for,
    and the calculator is then as the schedule of the threads has left
    it. *)
Definition measured (num_threads elapsed_us : Z) (c : VectorSumCalculator)
    (r : Q * VectorSumCalculator) : Prop :=
  exists ls ts mutex,
    thread_launches (size (vectors c)) num_threads = Done ls /\
    rtc locked_step (mkMachine (lock_spawn <$> ls) c None) (mkMachine ts r.2 mutex) /\
    Forall returned ts /\
    r.1 = Qmake elapsed_us 1000.

(** The body of the loop over [thread_counts], the loop, [runBenchmark]
    and [main], for the runs that complete. *)
Definition trial_run (e : env) (kn : nat * Z)
    (s s' : VectorSumCalculator * list Q) : Prop :=
  exists r,
    measured kn.2 (elapsed e kn.1) (fill_zero (print (LTrial kn.2) s.1)) r /\
    finish_trial (val_draw e kn.1) r.1 (r.2, s.2) = Done s'.

Fixpoint trials_run (e : env) (kns : list (nat * Z))
    (s s' : VectorSumCalculator * list Q) : Prop :=
  match kns with
  | [] => s' = s
  | kn :: kns' => exists s1, trial_run e kn s s1 /\ trials_run e kns' s1 s'
  end.

Definition benchmark_run (num_vectors vector_size min_val max_val : Z)
    (thread_counts : list Z) (e : env) (c final : VectorSumCalculator) : Prop :=
  exists c1 c2 execution_times,
    generateVectors num_vectors vector_size min_val max_val e (print_header c) = Done c1 /\
    trials_run e (zip (seq 0 (length thread_counts)) thread_counts)
      (print LGenerated c1, []) (c2, execution_times) /\
    (c3 ← for_each (table_row thread_counts execution_times)
            (seqZ 0 (size thread_counts)) (print LTableHeader (print LTableTitle c2));
     statistics c3) = Done final.

(** The process that [main] leaves when [runBenchmark] returns. *)
Definition completes (e : env) (p : process) : Prop :=
  exists final,
    benchmark_run 30000 100 (-1000) 1000 [1; 2; 4] e calculator final /\
    p = mkProcess 0 (cout final) [].

(** ** Vocabulary of the properties *)

Definition range_size (l : launch) : Z := l_end l - l_start l.

(** [j] is one of the indices of the half-open range of [l]. *)
Definition in_range (l : launch) (j : Z) : Prop := l_start l <= j < l_end l.

(** The ranges of [ls] follow one another from [a] to [b]. *)
Fixpoint chained (a : Z) (ls : list launch) (b : Z) : Prop :=
  match ls with
  | [] => a = b
  | l :: ls' => l_start l = a /\ a <= l_end l /\ chained (l_end l) ls' b
  end.

(** The range of the [k]-th thread when every thread gets [q] vectors and
    the first [r] threads one more. *)
Definition balanced_launch (q r k : Z) : launch :=
  mkLaunch (k * q + Z.min k r) ((k + 1) * q + Z.min (k + 1) r) (k + 1).

(** The line a thread prints when its loop is over. *)
Definition worker_line (l : launch) : line :=
  LWorker (l_id l) (l_start l) (int_of (l_end l - 1)).

(** The elements of [v] are at most [B] in absolute value. *)
Definition bounded (B : Z) (v : list Z) : Prop := Forall (fun x => - B <= x <= B) v.

(** Thread [t] has already gone through index [k]. *)
Definition passed (t : thread) (k : nat) : Prop :=
  l_start (t_launch t) <= Z.of_nat k < t_i t.

(** What every schedule of the threads [ls] started on [c0] maintains:
    the dataset and the size of the results are those of [c0], the
    threads are those of [ls], and an index that some thread has gone
    through holds the sum of its vector. *)
Definition schedule_invariant (c0 : VectorSumCalculator) (ls : list launch)
    (s : list thread * VectorSumCalculator) : Prop :=
  vectors s.2 = vectors c0 /\
  length (sums s.2) = length (sums c0) /\
  t_launch <$> s.1 = ls /\
  Forall (fun t => l_start (t_launch t) <= t_i t) s.1 /\
  forall (k : nat) t, t ∈ s.1 -> passed t k ->
    sums s.2 !! k = sum_vector <$> vectors c0 !! k.

(** No index lies in the ranges of two threads of [ls]. *)
Definition disjoint_ranges (ls : list launch) : Prop :=
  forall (k1 k2 : nat) l1 l2 j,
    ls !! k1 = Some l1 -> ls !! k2 = Some l2 ->
    in_range l1 j -> in_range l2 j -> k1 = k2.

(** The dataset of the scenario [[1,2,3],[4,5,6]], results at zero. *)
Definition two_vectors : VectorSumCalculator :=
  mkCalc [[1; 2; 3]; [4; 5; 6]] [0; 0] [].

(** The [i]-th vector and the dataset that [generateVectors] builds from
    the values drawn. *)
Definition generated_vector (e : env) (vector_size i : Z) : list Z :=
  (fun j => gen_draw e (Z.to_nat (i * vector_size + j))) <$> seqZ 0 vector_size.

Definition generated_dataset (e : env) (num_vectors vector_size : Z) : list (list Z) :=
  generated_vector e vector_size <$> seqZ 0 num_vectors.

(** What a trial of rank [k] with [w] threads prints when the results are
    found correct, on a dataset of [n] vectors. *)
Definition trial_lines (e : env) (n : Z) (k : nat) (w : Z) : list line :=
  LTrial w
    :: (worker_line <$> (balanced_launch (n / w) (n mod w) <$> seqZ 0 w))
    ++ [LCorrect; LTime (Qmake (elapsed e k) 1000)].

(** The lines of the statistics, for the results [ss], their minimum
    [m], their maximum [M] and their mean [avg]. *)
Definition statistics_lines (m M : Z) (avg : Q) (ss : list Z) : list line :=
  [LStatsTitle; LMin m; LMax M; LAvg avg; LFirstTitle]
  ++ ((fun i => LVector i (ss !!! Z.to_nat i)) <$> seqZ 0 (Z.min 10 (size ss))).

(** [m] is the least element of [v]; [M] is its greatest element. *)
Definition is_min (m : Z) (v : list Z) : Prop := m ∈ v /\ forall x, x ∈ v -> m <= x.
Definition is_max (M : Z) (v : list Z) : Prop := M ∈ v /\ forall x, x ∈ v -> x <= M.

(** The calculator when the trials begin. *)
Definition generated (e : env) (num_vectors vector_size : Z) : VectorSumCalculator :=
  print LGenerated
    (mkCalc (generated_dataset e num_vectors vector_size)
       (replicate (Z.to_nat num_vectors) 0) (cout (print_header calculator))).

(** An environment where no allocation fails, and one where the third
    [resize] of the generator does. *)
Definition sample_env : env :=
  mkEnv (fun _ => None) (fun k => Z.of_nat k mod 2001 - 1000)
    (fun _ t => Z.of_nat t mod 30000) (fun k => 1500 + Z.of_nat k).

Definition failing_env : env :=
  mkEnv (fun call => if Nat.eqb call 2 then Some "std::bad_alloc"%string else None)
    (fun k => Z.of_nat k mod 2001 - 1000)
    (fun _ t => Z.of_nat t mod 30000) (fun k => 1500 + Z.of_nat k).

(** The datasets a calculator can hold: the elements are [int]s, and the
    sizes are those [generateVectors] gets as [int]s. *)
Definition wf_dataset (vs : list (list Z)) : Prop :=
  size vs <= INT_MAX /\ Forall (fun v => size v <= INT_MAX /\ Forall is_int v) vs.

(** The results buffer has the size of the dataset. *)
Definition sized (c : VectorSumCalculator) : Prop :=
  length (sums c) = length (vectors c).

(** The [t]-th comparison of the validator succeeds. *)
Definition sample_matches (draw : nat -> Z) (c : VectorSumCalculator) (t : nat) : Prop :=
  sums c !! Z.to_nat (draw t) = sum_vector <$> vectors c !! Z.to_nat (draw t).

(** The result stored at the [t]-th index drawn is the mathematical sum of
    the elements of the vector at that index. *)
Definition sample_exact (draw : nat -> Z) (c : VectorSumCalculator) (t : nat) : Prop :=
  exists v,
    vectors c !! Z.to_nat (draw t) = Some v /\
    sums c !! Z.to_nat (draw t) = Some (exact_sum v).

(** ** Vocabulary of the further properties *)

(** The lines of the threads of [ts] that have printed theirs. *)
Definition printed_lines (ts : list thread) : list line :=
  concat ((fun t => if t_printed t then [worker_line (t_launch t)] else []) <$> ts).

(** The steps thread [t] has still to take: the turns of its loop and its
    line. *)
Definition todo (t : thread) : nat :=
  (Z.to_nat (l_end (t_launch t) - t_i t) + (if t_printed t then 0 else 1))%nat.

Definition work (ts : list thread) : nat := sum_list (todo <$> ts).

(** Thread [t] is inside a dataset of [n] vectors: its range is in
    [[0, n]], its counter has left neither its start nor, by more than the
    end, its range, and it has printed only once its loop is over. *)
Definition placed (n : Z) (t : thread) : Prop :=
  0 <= l_start (t_launch t) /\ l_start (t_launch t) <= l_end (t_launch t) /\
  l_end (t_launch t) <= n /\
  l_start (t_launch t) <= t_i t <= l_end (t_launch t) /\
  (t_printed t = true -> t_i t = l_end (t_launch t)).

(** The times recorded by the trials of ranks [k0], [k0 + 1], ... *)
Definition trial_times (e : env) (k0 n : nat) : list Q :=
  (fun k => Qmake (elapsed e k) 1000) <$> seq k0 n.

(** What the trials of ranks [k0], [k0 + 1], ... with the thread counts
    [tcs] print, on a dataset of [n] vectors. *)
Definition trials_lines (e : env) (n : Z) (k0 : nat) (tcs : list Z) : list line :=
  concat (zip_with (trial_lines e n) (seq k0 (length tcs)) tcs).

(** The rows of the table of times. *)
Definition table_rows (thread_counts : list Z) (execution_times : list Q) : list line :=
  zip_with LTableRow thread_counts execution_times.

(** The calculator with entry [j] of the results overwritten by [x]. *)
Definition corrupt (j : nat) (x : Z) (c : VectorSumCalculator) : VectorSumCalculator :=
  mkCalc (vectors c) (<[j := x]> (sums c)) (cout c).

(** The line of the thread of rank [k] whose range is [[first, last]]. *)
Definition range_line (q r k : Z) : line :=
  LWorker (k + 1) (k * q + Z.min k r) ((k + 1) * q + Z.min (k + 1) r - 1).

(** The largest magnitude up to which every integer is a [double]. *)
Definition exact_double : Z := 2 ^ 53.

(** What the division of two [double]s does to the exact quotient, as far
    as the properties need it: a rounding does not reverse the order, and
    it leaves an integer that is a [double] as it is. *)
Definition rounding (rnd : Q -> Q) : Prop :=
  (forall p q : Q, Qle p q -> Qle (rnd p) (rnd q)) /\
  (forall z : Z, Z.abs z <= exact_double -> Qeq (rnd (inject_Z z)) (inject_Z z)).

(** The rounding of a rational down to a multiple of [1 / p]. *)
Definition round_down (p : positive) (q : Q) : Q :=
  Qmake (Qfloor (Qmult q (inject_Z (Zpos p)))) p.

(** Thread [t] holds the mutex; it waits for the mutex. *)
Definition holds (t : locked_thread) : Prop :=
  lt_phase t = Locked \/ lt_phase t = Written.

Definition waiting (t : locked_thread) : Prop :=
  lt_phase t = InLoop /\ l_end (lt_launch t) <= lt_i t.

(** Once out of its loop, a thread has its counter at the end of its
    range or beyond. *)
Definition past_loop (t : locked_thread) : Prop :=
  lt_phase t <> InLoop -> l_end (lt_launch t) <= lt_i t.

(** The thread without the lock: it has printed once its line is
    written. *)
Definition unlocked (t : locked_thread) : thread :=
  mkThread (lt_launch t) (lt_i t)
    (match lt_phase t with Written | Returned => true | _ => false end).

(** The steps thread [t] has still to take: the turns of its loop, then
    taking the mutex, printing and giving the mutex back. *)
Definition lock_todo (t : locked_thread) : nat :=
  match lt_phase t with
  | InLoop => Z.to_nat (l_end (lt_launch t) - lt_i t) + 3
  | Locked => 2
  | Written => 1
  | Returned => 0
  end.

Definition lock_work (ts : list locked_thread) : nat := sum_list (lock_todo <$> ts).

(** The mutex is held by the thread that is between taking it and giving
    it back, and by no other. *)
Definition mutex_held_by_holder (m : machine) : Prop :=
  forall j : nat,
    output_mutex m = Some j <-> exists t, m_threads m !! j = Some t /\ holds t.

(** What a trial of rank [k] with [w] threads prints when the results are
    found correct and its threads have printed [lines]; what the trials of
    ranks [k0], [k0 + 1], ... print. *)
Definition trial_block (e : env) (k : nat) (w : Z) (lines : list line) : list line :=
  LTrial w :: lines ++ [LCorrect; LTime (Qmake (elapsed e k) 1000)].

Fixpoint trial_blocks (e : env) (k0 : nat) (tcs : list Z) (blocks : list (list line))
  : list line :=
  match tcs, blocks with
  | w :: tcs', lines :: blocks' => trial_block e k0 w lines ++ trial_blocks e (S k0) tcs' blocks'
  | _, _ => []
  end.

(** The lines that report a mismatch, and those that report correct
    results. *)
Definition is_mismatch (l : line) : bool :=
  match l with LMismatch _ => true | _ => false end.

Definition is_correct (l : line) : bool :=
  match l with LCorrect => true | _ => false end.

(** * Properties *)

(** ** Machine integers *)

Lemma int_of_id z : is_int z -> int_of z = z.
Proof.
  unfold is_int, INT_MIN, INT_MAX, int_of. intros Hz.
  rewrite Z.mod_small by lia. lia.
Qed.

Lemma size_t_of_id z : 0 <= z < 2 ^ 64 -> size_t_of z = z.
Proof. unfold size_t_of. intros Hz. now rewrite Z.mod_small. Qed.

Lemma ll_of_id z : is_ll z -> ll_of z = z.
Proof.
  unfold is_ll, LLONG_MIN, LLONG_MAX, ll_of. intros Hz.
  rewrite Z.mod_small by lia. lia.
Qed.

Lemma is_int_is_ll z : is_int z -> is_ll z.
Proof. unfold is_int, is_ll, INT_MIN, INT_MAX, LLONG_MIN, LLONG_MAX. lia. Qed.

Lemma size_cons {A} (x : A) (v : list A) : size (x :: v) = 1 + size v.
Proof. unfold size. cbn [length]. lia. Qed.

Lemma size_nonneg {A} (v : list A) : 0 <= size v.
Proof. unfold size. lia. Qed.

(** ** The accumulation loop *)

Section Accumulation.

(** The elements are bounded by [B] in absolute value. *)
Variable B : Z.
Hypothesis B_nonneg : 0 <= B.

Lemma partial_sums_bounded v : forall acc,
  bounded B v ->
  Forall (fun p => Z.abs p <= Z.abs acc + B * size v) (partial_sums acc v).
Proof.
  induction v as [|x v IH]; intros acc Hv; cbn [partial_sums]; [constructor|].
  unfold bounded in *.
  apply Forall_cons_1 in Hv as [Hx Hv]. rewrite size_cons.
  pose proof (size_nonneg v) as Hn.
  constructor; [nia|].
  eapply Forall_impl; [apply (IH _ Hv)|].
  intros p Hp. cbn beta in Hp.
  assert (Z.abs (ll_of (acc + x)) <= Z.abs acc + B); [|nia].
  destruct (Z_le_dec (Z.abs acc + B) LLONG_MAX) as [Hle|Hgt].
  - rewrite ll_of_id; [lia|]. unfold is_ll, LLONG_MIN, LLONG_MAX in *. lia.
  - pose proof (Z.mod_pos_bound (acc + x + 2 ^ 63) (2 ^ 64) ltac:(lia)).
    unfold ll_of, LLONG_MAX in *. lia.
Qed.

Lemma fold_sum_exact v : forall acc,
  bounded B v ->
  Z.abs acc + B * size v <= LLONG_MAX ->
  fold_left (fun sum value => ll_of (sum + value)) v acc = acc + exact_sum v.
Proof.
  induction v as [|x v IH]; intros acc Hv Hacc; cbn [fold_left exact_sum fold_right];
    unfold bounded in *.
  - lia.
  - apply Forall_cons_1 in Hv as [Hx Hv]. rewrite size_cons in Hacc.
    pose proof (size_nonneg v) as Hn.
    rewrite ll_of_id by (unfold is_ll, LLONG_MIN, LLONG_MAX in *; nia).
    rewrite IH; [fold (exact_sum v); lia | done | nia].
Qed.

Lemma sum_vector_exact v :
  bounded B v -> B * size v <= LLONG_MAX -> sum_vector v = exact_sum v.
Proof.
  intros Hv Hn. unfold sum_vector. rewrite fold_sum_exact; [lia | done | ].
  cbn. lia.
Qed.

Lemma exact_sum_bounded v : bounded B v -> Z.abs (exact_sum v) <= B * size v.
Proof.
  induction v as [|x v IH]; intros Hv; cbn [exact_sum fold_right]; unfold bounded in *.
  - unfold size; cbn. lia.
  - apply Forall_cons_1 in Hv as [Hx Hv]. rewrite size_cons.
    specialize (IH Hv). fold (exact_sum v). nia.
Qed.

End Accumulation.

(** ** Loops and vector accesses *)

Lemma bind_Done {A B} (x : A) (f : A -> outcome B) : Done x ≫= f = f x.
Proof. reflexivity. Qed.

Lemma for_each_app {A S} (body : A -> S -> outcome S) xs ys s :
  for_each body (xs ++ ys) s = s' ← for_each body xs s; for_each body ys s'.
Proof.
  revert s. induction xs as [|x xs IH]; intros s; cbn; [done|].
  destruct (body x s) as [s1| |]; cbn; [apply IH|done|done].
Qed.

Lemma at_index_Done {A} (v : list A) i x :
  0 <= i -> v !! Z.to_nat i = Some x -> at_index v i = Done x.
Proof.
  intros Hi Hx. unfold at_index. apply lookup_lt_Some in Hx as Hlt.
  rewrite Hx. destruct (Z.leb_spec 0 i); [|lia].
  destruct (Z.ltb_spec i (Z.of_nat (length v))); [done|lia].
Qed.

Lemma at_index_inv {A} (v : list A) i x :
  at_index v i = Done x -> 0 <= i < size v /\ v !! Z.to_nat i = Some x.
Proof.
  unfold at_index, size.
  destruct (Z.leb_spec 0 i); cbn; [|done].
  destruct (Z.ltb_spec i (Z.of_nat (length v))); cbn; [|done].
  destruct (v !! Z.to_nat i); [|done]. intros [= ->]. auto.
Qed.

Lemma at_index_in_bounds {A} (v : list A) i :
  0 <= i < size v -> exists x, v !! Z.to_nat i = Some x /\ at_index v i = Done x.
Proof.
  unfold size. intros Hi.
  destruct (lookup_lt_is_Some_2 v (Z.to_nat i)) as [x Hx]; [lia|].
  exists x. split; [done|]. apply at_index_Done; [lia|done].
Qed.

Lemma at_index_out_of_bounds {A} (v : list A) i :
  ~ 0 <= i < size v -> at_index v i = Undefined.
Proof.
  unfold at_index, size. intros Hi.
  destruct (Z.leb_spec 0 i); cbn; [|done].
  destruct (Z.ltb_spec i (Z.of_nat (length v))); cbn; [lia|done].
Qed.

(** ** The worker *)

Section Worker.

Variable c : VectorSumCalculator.
Hypothesis c_sized : sized c.

(** One turn of the loop, on any results buffer of the right size. *)
Lemma sum_one_spec i ss out :
  length ss = length (vectors c) ->
  0 <= i < size (vectors c) ->
  exists v, vectors c !! Z.to_nat i = Some v /\
    sum_one i (mkCalc (vectors c) ss out)
    = Done (mkCalc (vectors c) (<[Z.to_nat i := sum_vector v]> ss) out).
Proof.
  intros Hss Hi. destruct (at_index_in_bounds (vectors c) i Hi) as (v & Hv & Hat).
  exists v. split; [done|]. unfold sum_one. cbn [vectors]. rewrite Hat. cbn.
  unfold store_sum. cbn [sums vectors cout]. unfold size in Hi.
  destruct (Z.leb_spec 0 i); [|lia].
  destruct (Z.ltb_spec i (Z.of_nat (length ss))); [done|lia].
Qed.

(** The loop of the worker over [[start, start + n)]. *)
Lemma sum_loop_spec (n : nat) start :
  0 <= start -> start + Z.of_nat n <= size (vectors c) ->
  exists ss,
    for_each sum_one (seqZ start (Z.of_nat n)) c
    = Done (mkCalc (vectors c) ss (cout c)) /\
    length ss = length (sums c) /\
    (forall k : nat, start <= Z.of_nat k < start + Z.of_nat n ->
       ss !! k = sum_vector <$> vectors c !! k) /\
    (forall k : nat, ~ start <= Z.of_nat k < start + Z.of_nat n ->
       ss !! k = sums c !! k).
Proof.
  intros Hstart. induction n as [|n IH]; intros Hend.
  - exists (sums c). rewrite seqZ_nil by lia. cbn.
    destruct c; cbn. split; [done|]. split; [done|]. split; [lia|done].
  - destruct IH as (ss & Hrun & Hlen & Hin & Hout); [lia|].
    rewrite seqZ_S, for_each_app, Hrun. cbn.
    destruct (sum_one_spec (start + Z.of_nat n) ss (cout c)) as (v & Hv & ->);
      [congruence | lia |].
    replace (Z.to_nat (start + Z.of_nat n)) with (Z.to_nat start + n)%nat in * by lia.
    eexists. split; [done|]. rewrite length_insert.
    split; [done|]. split.
    + intros k Hk. destruct (decide (k = (Z.to_nat start + n)%nat)) as [->|Hne].
      * rewrite list_lookup_insert_eq, Hv; [done|].
        rewrite Hlen, c_sized. apply lookup_lt_Some in Hv. lia.
      * rewrite list_lookup_insert_ne by lia. apply Hin. lia.
    + intros k Hk. rewrite list_lookup_insert_ne by lia. apply Hout. lia.
Qed.

Lemma calculateSumsRange_spec start_idx end_idx thread_id :
  0 <= start_idx <= end_idx -> end_idx <= size (vectors c) ->
  exists ss,
    calculateSumsRange start_idx end_idx thread_id c
    = Done (mkCalc (vectors c) ss
              (cout c ++ [LWorker thread_id start_idx (int_of (end_idx - 1))])) /\
    length ss = length (sums c) /\
    (forall k : nat, start_idx <= Z.of_nat k < end_idx ->
       ss !! k = sum_vector <$> vectors c !! k) /\
    (forall k : nat, ~ start_idx <= Z.of_nat k < end_idx -> ss !! k = sums c !! k).
Proof.
  intros Hse Hend.
  destruct (sum_loop_spec (Z.to_nat (end_idx - start_idx)) start_idx)
    as (ss & Hrun & Hlen & Hin & Hout); [lia | lia |].
  rewrite Z2Nat.id in * by lia.
  exists ss. unfold calculateSumsRange. rewrite Hrun. cbn.
  repeat split; [done | |].
  - intros k Hk. apply Hin. lia.
  - intros k Hk. apply Hout. lia.
Qed.

End Worker.

(** ** The partitioning loop *)

Section Partition.

Variables q r : Z.
Hypothesis q_nonneg : 0 <= q.
Hypothesis r_nonneg : 0 <= r.

(** The loop computes the balanced ranges as long as no [int] wraps. *)
Lemma launch_loop_balanced (n : nat) : forall i,
  0 <= i ->
  i + Z.of_nat n <= INT_MAX ->
  (i + Z.of_nat n) * q + Z.min (i + Z.of_nat n) r <= INT_MAX ->
  launch_loop (seqZ i (Z.of_nat n)) (i * q + Z.min i r) q r
  = balanced_launch q r <$> seqZ i (Z.of_nat n).
Proof.
  induction n as [|n IH]; intros i Hi Hn Hmax.
  - rewrite seqZ_nil by lia. done.
  - rewrite seqZ_cons by lia. cbn [launch_loop fmap list_fmap].
    replace (Z.pred (Z.of_nat (S n))) with (Z.of_nat n) by lia.
    assert (Hstep : (i + 1) * q + Z.min (i + 1) r
                    <= (i + Z.of_nat (S n)) * q + Z.min (i + Z.of_nat (S n)) r) by nia.
    assert (Hend : int_of (i * q + Z.min i r
                      + (if i <? r then int_of (q + 1) else q))
                   = (i + 1) * q + Z.min (i + 1) r).
    { destruct (Z.ltb_spec i r).
      - rewrite (int_of_id (q + 1)) by (unfold is_int, INT_MIN, INT_MAX in *; nia).
        rewrite int_of_id by (unfold is_int, INT_MIN, INT_MAX in *; nia). lia.
      - rewrite int_of_id by (unfold is_int, INT_MIN, INT_MAX in *; nia). lia. }
    rewrite Hend. unfold Z.succ.
    rewrite IH by (try lia; replace (i + 1 + Z.of_nat n) with (i + Z.of_nat (S n)) by lia; done).
    rewrite int_of_id by (unfold is_int, INT_MIN, INT_MAX in *; lia).
    done.
Qed.

Lemma balanced_chained (n : nat) : forall i,
  0 <= i ->
  chained (i * q + Z.min i r) (balanced_launch q r <$> seqZ i (Z.of_nat n))
    ((i + Z.of_nat n) * q + Z.min (i + Z.of_nat n) r).
Proof.
  induction n as [|n IH]; intros i Hi.
  - rewrite seqZ_nil by lia. cbn. f_equal; lia.
  - rewrite seqZ_cons by lia. cbn [fmap list_fmap chained balanced_launch l_start l_end].
    split; [done|]. split; [nia|].
    replace (Z.pred (Z.of_nat (S n))) with (Z.of_nat n) by lia.
    replace (i + Z.of_nat (S n)) with (Z.succ i + Z.of_nat n) by lia.
    apply (IH (Z.succ i)). lia.
Qed.

Lemma balanced_lookup (w : Z) (k : nat) l :
  (balanced_launch q r <$> seqZ 0 w) !! k = Some l ->
  Z.of_nat k < w /\ l = balanced_launch q r (Z.of_nat k).
Proof.
  rewrite list_lookup_fmap. intros Hl.
  destruct (seqZ 0 w !! k) as [i|] eqn:Hk; [|done].
  apply lookup_seqZ in Hk as [-> Hlt]. cbn in Hl. injection Hl as <-.
  split; [done|]. f_equal.
Qed.

End Partition.

(** The threads created for [n] vectors, in closed form. *)
Lemma thread_launches_balanced n num_threads :
  0 <= n <= INT_MAX -> 1 <= num_threads <= INT_MAX ->
  thread_launches n num_threads
  = Done (balanced_launch (n / num_threads) (n mod num_threads) <$> seqZ 0 num_threads).
Proof.
  intros Hn Hw. unfold thread_launches, vectors_per_thread, remaining_vectors.
  rewrite size_t_of_id by (unfold INT_MAX in *; lia).
  destruct (Z.eqb_spec num_threads 0); [lia|].
  pose proof (Z.div_mod n num_threads ltac:(lia)) as Hdm.
  pose proof (Z.mod_pos_bound n num_threads ltac:(lia)) as Hr.
  assert (Hq : 0 <= n / num_threads <= n).
  { split; [apply Z.div_pos; lia|]. apply Z.div_le_upper_bound; nia. }
  rewrite !int_of_id by (unfold is_int, INT_MIN, INT_MAX in *; lia).
  f_equal.
  pose proof (launch_loop_balanced (n / num_threads) (n mod num_threads)
                ltac:(lia) ltac:(lia) (Z.to_nat num_threads) 0) as Hloop.
  rewrite Z2Nat.id in Hloop by lia.
  replace (0 * (n / num_threads) + Z.min 0 (n mod num_threads)) with 0 in Hloop by lia.
  apply Hloop; [lia | lia | nia].
Qed.

(** ** Chains of ranges *)

Lemma chained_le ls : forall a b, chained a ls b -> a <= b.
Proof.
  induction ls as [|l ls IH]; cbn; intros a b H; [lia|].
  destruct H as (_ & Hle & Hrest). apply IH in Hrest. lia.
Qed.

Lemma chained_sizes ls : forall a b,
  chained a ls b -> foldr Z.add 0 (range_size <$> ls) = b - a.
Proof.
  induction ls as [|l ls IH]; cbn; intros a b H; [lia|].
  destruct H as (Hs & _ & Hrest). rewrite (IH _ _ Hrest). unfold range_size. lia.
Qed.

Lemma chained_union ls : forall a b j,
  chained a ls b -> (a <= j < b <-> exists l, l ∈ ls /\ in_range l j).
Proof.
  induction ls as [|l ls IH]; cbn; intros a b j H.
  - split; [lia|]. intros (l & Hl & _). by apply elem_of_nil in Hl.
  - destruct H as (Hs & Hle & Hrest). pose proof (chained_le _ _ _ Hrest) as Hb.
    specialize (IH _ _ j Hrest). split.
    + intros Hj. destruct (Z_lt_dec j (l_end l)) as [Hlt|Hge].
      * exists l. split; [apply list_elem_of_here|]. unfold in_range. lia.
      * destruct IH as [IH _]. destruct IH as (l' & Hl' & Hin); [lia|].
        exists l'. split; [by apply list_elem_of_further|done].
    + intros (l' & Hl' & Hin). apply elem_of_cons in Hl' as [->|Hl'].
      * unfold in_range in Hin. lia.
      * destruct IH as [_ IH]. specialize (IH (ex_intro _ l' (conj Hl' Hin))). lia.
Qed.

(** ** The parallel phase, threads run in the order of their creation *)

Lemma run_launches_spec ls : forall a b c,
  chained a ls b -> 0 <= a -> b <= size (vectors c) -> sized c ->
  exists ss,
    for_each run_launch ls c
    = Done (mkCalc (vectors c) ss (cout c ++ (worker_line <$> ls))) /\
    length ss = length (sums c) /\
    (forall k : nat, a <= Z.of_nat k < b -> ss !! k = sum_vector <$> vectors c !! k) /\
    (forall k : nat, ~ a <= Z.of_nat k < b -> ss !! k = sums c !! k).
Proof.
  induction ls as [|l ls IH]; intros a b c Hch Ha Hb Hc.
  - cbn in Hch. subst b. exists (sums c). cbn. rewrite app_nil_r.
    destruct c; cbn. split; [done|]. split; [done|]. split; [lia|done].
  - cbn in Hch. destruct Hch as (Hs & Hle & Hrest).
    pose proof (chained_le _ _ _ Hrest) as Hlb.
    destruct (calculateSumsRange_spec c Hc (l_start l) (l_end l) (l_id l))
      as (ss1 & Hrun1 & Hlen1 & Hin1 & Hout1); [lia | lia |].
    set (c1 := mkCalc (vectors c) ss1 (cout c ++ [worker_line l])).
    destruct (IH (l_end l) b c1 Hrest) as (ss & Hrun & Hlen & Hin & Hout);
      [lia | done | unfold sized; cbn; rewrite Hlen1; apply Hc |].
    exists ss. cbn [for_each].
    change (run_launch l c) with (calculateSumsRange (l_start l) (l_end l) (l_id l) c).
    rewrite Hrun1, bind_Done.
    change (mkCalc (vectors c) ss1 _) with c1. rewrite Hrun.
    cbn [vectors cout c1 fmap list_fmap]. rewrite <- app_assoc. cbn [app].
    split; [done|]. split; [cbn in Hlen; congruence|]. split.
    + intros k Hk. destruct (Z_lt_dec (Z.of_nat k) (l_end l)).
      * rewrite Hout by lia. cbn. apply Hin1. lia.
      * apply Hin. lia.
    + intros k Hk. rewrite Hout by lia. cbn. apply Hout1. lia.
Qed.

Lemma measureExecutionTime_spec c num_threads elapsed_us :
  sized c -> size (vectors c) <= INT_MAX -> 1 <= num_threads <= INT_MAX ->
  measureExecutionTime num_threads elapsed_us c
  = Done (Qmake elapsed_us 1000,
          mkCalc (vectors c) (sum_vector <$> vectors c)
            (cout c ++ (worker_line <$>
               (balanced_launch (size (vectors c) / num_threads)
                  (size (vectors c) mod num_threads) <$> seqZ 0 num_threads)))).
Proof.
  intros Hc Hn Hw. unfold measureExecutionTime.
  pose proof (size_nonneg (vectors c)) as Hn0.
  rewrite thread_launches_balanced by lia. cbn.
  set (n := size (vectors c)) in *.
  pose proof (Z.div_mod n num_threads ltac:(lia)) as Hdm.
  pose proof (Z.mod_pos_bound n num_threads ltac:(lia)) as Hr.
  assert (Hq : 0 <= n / num_threads) by (apply Z.div_pos; lia).
  pose proof (balanced_chained (n / num_threads) (n mod num_threads)
                Hq (Z.to_nat num_threads) 0 ltac:(lia)) as Hch.
  rewrite Z2Nat.id in Hch by lia.
  replace (0 * (n / num_threads) + Z.min 0 (n mod num_threads)) with 0 in Hch by lia.
  replace ((0 + num_threads) * (n / num_threads)
           + Z.min (0 + num_threads) (n mod num_threads)) with n in Hch by lia.
  destruct (run_launches_spec _ 0 n c Hch) as (ss & Hrun & Hlen & Hin & _);
    [lia | subst n; lia | done |].
  rewrite Hrun. cbn. do 3 f_equal.
  apply list_eq. intros k. rewrite list_lookup_fmap.
  destruct (decide (k < length (vectors c))%nat) as [Hk|Hk].
  - apply Hin. subst n. unfold size. lia.
  - rewrite !lookup_ge_None_2; [done | lia | rewrite Hlen, Hc; lia].
Qed.

(** ** Order and disjointness of the balanced ranges *)

Section Balanced.

Variables q r : Z.
Hypothesis q_nonneg : 0 <= q.
Hypothesis r_nonneg : 0 <= r.

Lemma balanced_size k :
  0 <= k -> range_size (balanced_launch q r k) = q + (if k <? r then 1 else 0).
Proof.
  intros Hk. unfold range_size, balanced_launch. cbn.
  destruct (Z.ltb_spec k r); lia.
Qed.

Lemma balanced_before k1 k2 :
  0 <= k1 < k2 ->
  l_end (balanced_launch q r k1) <= l_start (balanced_launch q r k2).
Proof.
  intros Hk. cbn.
  assert ((k1 + 1) * q <= k2 * q) by (apply Z.mul_le_mono_nonneg_r; lia).
  lia.
Qed.

Lemma balanced_start_increasing k1 k2 :
  1 <= q -> 0 <= k1 < k2 ->
  l_start (balanced_launch q r k1) < l_start (balanced_launch q r k2).
Proof.
  intros Hq Hk. cbn.
  assert ((k1 + 1) * q <= k2 * q) by (apply Z.mul_le_mono_nonneg_r; lia).
  lia.
Qed.

Lemma balanced_disjoint k1 k2 j :
  0 <= k1 -> 0 <= k2 ->
  in_range (balanced_launch q r k1) j -> in_range (balanced_launch q r k2) j ->
  k1 = k2.
Proof.
  intros Hk1 Hk2 H1 H2. unfold in_range in *.
  destruct (Z.lt_trichotomy k1 k2) as [Hlt|[Heq|Hgt]]; [|done|].
  - pose proof (balanced_before k1 k2 ltac:(lia)). lia.
  - pose proof (balanced_before k2 k1 ltac:(lia)). lia.
Qed.

End Balanced.

Lemma balanced_disjoint_ranges q r w :
  0 <= q -> 0 <= r -> disjoint_ranges (balanced_launch q r <$> seqZ 0 w).
Proof.
  intros Hq Hr k1 k2 l1 l2 j H1 H2 Hj1 Hj2.
  apply balanced_lookup in H1 as [_ ->]. apply balanced_lookup in H2 as [_ ->].
  apply Nat2Z.inj.
  apply (balanced_disjoint q r Hq (Z.of_nat k1) (Z.of_nat k2) j); [lia|lia|done|done].
Qed.

(** The balanced ranges of [n] vectors follow one another from 0 to [n]. *)
Lemma balanced_chained_all n w :
  0 <= n -> 1 <= w ->
  chained 0 (balanced_launch (n / w) (n mod w) <$> seqZ 0 w) n.
Proof.
  intros Hn Hw.
  pose proof (Z.div_mod n w ltac:(lia)) as Hdm.
  pose proof (Z.mod_pos_bound n w ltac:(lia)) as Hr.
  assert (Hq : 0 <= n / w) by (apply Z.div_pos; lia).
  pose proof (balanced_chained (n / w) (n mod w) Hq (Z.to_nat w) 0 ltac:(lia)) as Hch.
  rewrite Z2Nat.id in Hch by lia.
  replace (0 * (n / w) + Z.min 0 (n mod w)) with 0 in Hch by lia.
  replace ((0 + w) * (n / w) + Z.min (0 + w) (n mod w)) with n in Hch by lia.
  exact Hch.
Qed.

(** ** The parallel phase, under every schedule *)

Lemma sum_one_inv i c c' :
  sum_one i c = Done c' ->
  exists v, 0 <= i /\ vectors c !! Z.to_nat i = Some v /\
    (Z.to_nat i < length (sums c))%nat /\
    c' = mkCalc (vectors c) (<[Z.to_nat i := sum_vector v]> (sums c)) (cout c).
Proof.
  unfold sum_one. intros H.
  destruct (at_index (vectors c) i) as [v| |] eqn:Hat; cbn in H; [|done|done].
  apply at_index_inv in Hat as [Hi Hv]. exists v.
  unfold store_sum in H.
  destruct (Z.leb_spec 0 i); cbn in H; [|done].
  destruct (Z.ltb_spec i (Z.of_nat (length (sums c)))); cbn in H; [|done].
  injection H as <-. repeat split; [lia | done | lia].
Qed.

(** A thread writes inside its range only, at every step. *)
Lemma thread_step_frame s s' :
  thread_step s s' ->
  l_start (t_launch s.1) <= t_i s.1 ->
  t_launch s'.1 = t_launch s.1 /\
  l_start (t_launch s'.1) <= t_i s'.1 /\
  vectors s'.2 = vectors s.2 /\
  length (sums s'.2) = length (sums s.2) /\
  forall k : nat, ~ in_range (t_launch s.1) (Z.of_nat k) -> sums s'.2 !! k = sums s.2 !! k.
Proof.
  intros Hstep Hstart.
  destruct Hstep as [l i c c' Hi Hsum|l i c Hi]; cbn [fst snd t_launch t_i] in *.
  - apply sum_one_inv in Hsum as (v & Hi0 & Hv & Hlt & ->). cbn [vectors sums].
    split; [done|]. split; [lia|]. split; [done|]. split; [by rewrite length_insert|].
    intros k Hk. apply list_lookup_insert_ne. unfold in_range in Hk. lia.
  - cbn [print vectors sums]. split; [done|]. split; [done|]. done.
Qed.

Lemma thread_run_frame s s' :
  rtc thread_step s s' ->
  l_start (t_launch s.1) <= t_i s.1 ->
  vectors s'.2 = vectors s.2 /\
  length (sums s'.2) = length (sums s.2) /\
  forall k : nat, ~ in_range (t_launch s.1) (Z.of_nat k) -> sums s'.2 !! k = sums s.2 !! k.
Proof.
  induction 1 as [s|s1 s2 s3 Hstep _ IH]; intros Hstart; [done|].
  destruct (thread_step_frame _ _ Hstep Hstart) as (Hl & Hs & Hv & Hlen & Hout).
  destruct (IH Hs) as (Hv' & Hlen' & Hout').
  split; [congruence|]. split; [congruence|].
  intros k Hk. rewrite Hout' by (by rewrite Hl). by apply Hout.
Qed.

Section Schedules.

Variable c0 : VectorSumCalculator.
Variable ls : list launch.

Lemma schedule_invariant_spawn : schedule_invariant c0 ls (spawn <$> ls, c0).
Proof.
  unfold schedule_invariant. cbn. repeat split.
  - rewrite <- list_fmap_compose. rewrite <- (list_fmap_id ls) at 2.
    apply list_fmap_ext. done.
  - apply Forall_fmap, Forall_forall. intros l _. cbn. lia.
  - intros k t Ht Hp. apply list_elem_of_fmap in Ht as (l & -> & _).
    unfold passed, spawn in Hp. cbn in Hp. lia.
Qed.

Lemma schedule_invariant_step s s' :
  schedule_invariant c0 ls s -> interleaving s s' -> schedule_invariant c0 ls s'.
Proof.
  intros (Hvs & Hlen & Hls & Hbegun & Hpassed) Hstep.
  destruct Hstep as [ts k t t' c c' Hk Hstep]. cbn [fst snd] in *.
  assert (Hsame : t_launch t' = t_launch t) by (inversion Hstep; done).
  assert (Hbegun' : Forall (fun t => l_start (t_launch t) <= t_i t) (<[k := t']> ts)).
  { apply Forall_insert; [done|].
    rewrite Forall_forall in Hbegun.
    apply (thread_step_frame _ _ Hstep), Hbegun. by eapply list_elem_of_lookup_2. }
  assert (Hts : t_launch <$> <[k := t']> ts = ls).
  { rewrite list_fmap_insert, Hsame, list_insert_id; [done|].
    by rewrite list_lookup_fmap, Hk. }
  inversion Hstep as [l i c1 c1' Hi Hsum | l i c1 Hi]; subst; clear Hstep.
  - apply sum_one_inv in Hsum as (v & Hi0 & Hv & Hlt & ->).
    unfold schedule_invariant. cbn [vectors sums cout fst snd] in *.
    split; [done|]. split; [by rewrite length_insert|]. split; [done|].
    split; [done|].
    intros k0 t0 Ht0 Hp.
    destruct (decide (k0 = Z.to_nat i)) as [->|Hne].
    + rewrite list_lookup_insert_eq by done. by rewrite <- Hvs, Hv.
    + rewrite list_lookup_insert_ne by done.
      apply list_elem_of_lookup in Ht0 as [j Hj].
      destruct (decide (j = k)) as [->|Hjk].
      * rewrite list_lookup_insert_eq in Hj by (by eapply lookup_lt_Some).
        injection Hj as <-.
        apply (Hpassed k0 (mkThread l i false)); [by eapply list_elem_of_lookup_2|].
        unfold passed in *. cbn in *. lia.
      * rewrite list_lookup_insert_ne in Hj by done.
        apply (Hpassed k0 t0); [by eapply list_elem_of_lookup_2|done].
  - unfold schedule_invariant. cbn [vectors sums cout fst snd print] in *.
    split; [done|]. split; [done|]. split; [done|]. split; [done|].
    intros k0 t0 Ht0 Hp.
    apply list_elem_of_lookup in Ht0 as [j Hj].
    destruct (decide (j = k)) as [->|Hjk].
    + rewrite list_lookup_insert_eq in Hj by (by eapply lookup_lt_Some).
      injection Hj as <-.
      apply (Hpassed k0 (mkThread l i false)); [by eapply list_elem_of_lookup_2|done].
    + rewrite list_lookup_insert_ne in Hj by done.
      apply (Hpassed k0 t0); [by eapply list_elem_of_lookup_2|done].
Qed.

Lemma schedule_invariant_rtc s s' :
  schedule_invariant c0 ls s -> rtc interleaving s s' -> schedule_invariant c0 ls s'.
Proof.
  intros Hinv Hrtc. induction Hrtc as [|s1 s2 s3 Hstep _ IH]; [done|].
  apply IH. by eapply schedule_invariant_step.
Qed.

(** When every thread is over, the results are the sums, whatever the
    order in which the threads took their turns. *)
Lemma every_schedule_sums ts c' :
  sized c0 -> chained 0 ls (size (vectors c0)) ->
  rtc interleaving (spawn <$> ls, c0) (ts, c') ->
  Forall finished ts ->
  vectors c' = vectors c0 /\ sums c' = sum_vector <$> vectors c0.
Proof.
  intros Hc Hch Hrtc Hfin.
  destruct (schedule_invariant_rtc _ _ schedule_invariant_spawn Hrtc)
    as (Hvs & Hlen & Hls & _ & Hpassed). cbn in *.
  split; [done|]. apply list_eq. intros k. rewrite list_lookup_fmap.
  destruct (decide (k < length (vectors c0))%nat) as [Hk|Hk].
  - destruct (chained_union ls 0 (size (vectors c0)) (Z.of_nat k) Hch) as [Hcov _].
    destruct Hcov as (l & Hl & Hin); [unfold size; lia|].
    rewrite <- Hls in Hl. apply list_elem_of_fmap in Hl as (t & -> & Ht).
    apply (Hpassed k t Ht).
    rewrite Forall_forall in Hfin. destruct (Hfin t Ht) as [Hend _].
    unfold passed, in_range in *. lia.
  - rewrite !lookup_ge_None_2; [done | lia | rewrite Hlen, Hc; lia].
Qed.

(** Two threads are never about to write the same entry of the results:
    the turns of the loops of different threads do not race. *)
Lemma schedule_race_free ts c (k1 k2 : nat) t1 t2 :
  disjoint_ranges ls ->
  rtc interleaving (spawn <$> ls, c0) (ts, c) ->
  ts !! k1 = Some t1 -> ts !! k2 = Some t2 -> k1 <> k2 ->
  t_i t1 < l_end (t_launch t1) -> t_i t2 < l_end (t_launch t2) ->
  t_i t1 <> t_i t2.
Proof.
  intros Hdis Hrtc H1 H2 Hne Hw1 Hw2 Heq.
  destruct (schedule_invariant_rtc _ _ schedule_invariant_spawn Hrtc)
    as (_ & _ & Hls & Hbegun & _). cbn [fst snd] in *.
  rewrite Forall_forall in Hbegun.
  pose proof (Hbegun t1 (list_elem_of_lookup_2 _ _ _ H1)) as Hb1.
  pose proof (Hbegun t2 (list_elem_of_lookup_2 _ _ _ H2)) as Hb2.
  apply Hne, (Hdis k1 k2 (t_launch t1) (t_launch t2) (t_i t1)).
  - by rewrite <- Hls, list_lookup_fmap, H1.
  - by rewrite <- Hls, list_lookup_fmap, H2.
  - unfold in_range. lia.
  - unfold in_range. lia.
Qed.

End Schedules.

(** The order of creation is one of the schedules. *)
Section SequentialSchedule.

Lemma thread_turns l (n : nat) : forall i c c',
  for_each sum_one (seqZ i (Z.of_nat n)) c = Done c' ->
  i + Z.of_nat n <= l_end l ->
  rtc thread_step (mkThread l i false, c) (mkThread l (i + Z.of_nat n) false, c').
Proof.
  induction n as [|n IH]; intros i c c' Hrun Hend.
  - rewrite seqZ_nil in Hrun by lia. injection Hrun as <-.
    replace (i + Z.of_nat 0) with i by lia. apply rtc_refl.
  - rewrite seqZ_cons in Hrun by lia. cbn [for_each] in Hrun.
    destruct (sum_one i c) as [c1| |] eqn:Hone; cbn in Hrun; [|done|done].
    replace (Z.pred (Z.of_nat (S n))) with (Z.of_nat n) in Hrun by lia.
    eapply rtc_l; [apply (step_turn l i c c1); [lia|done]|].
    replace (i + Z.of_nat (S n)) with (Z.succ i + Z.of_nat n) by lia.
    apply IH; [done|lia].
Qed.

Lemma thread_runs l c c' :
  run_launch l c = Done c' ->
  rtc thread_step (spawn l, c)
    (mkThread l (Z.max (l_start l) (l_end l)) true, c').
Proof.
  unfold run_launch, calculateSumsRange. intros Hrun.
  destruct (for_each sum_one _ c) as [c1| |] eqn:Hloop; cbn in Hrun; [|done|done].
  injection Hrun as <-.
  assert (Hn : l_end l - l_start l <= 0 \/ 0 < l_end l - l_start l) by lia.
  destruct Hn as [Hn|Hn].
  - rewrite seqZ_nil in Hloop by lia. injection Hloop as <-.
    rewrite Z.max_l by lia. apply rtc_once, step_print. lia.
  - rewrite <- (Z2Nat.id (l_end l - l_start l)) in Hloop by lia.
    apply (thread_turns l) in Hloop; [|lia].
    rewrite Z2Nat.id in Hloop by lia.
    replace (l_start l + (l_end l - l_start l)) with (l_end l) in Hloop by lia.
    rewrite Z.max_r by lia.
    eapply rtc_r; [exact Hloop|]. apply step_print. lia.
Qed.

Lemma interleaving_lift s s' :
  rtc thread_step s s' ->
  forall ts k, ts !! k = Some s.1 ->
  rtc interleaving (ts, s.2) (<[k := s'.1]> ts, s'.2).
Proof.
  induction 1 as [[t c]|[t c] [t1 c1] [t2 c2] Hstep _ IH]; intros ts k Hk; cbn in *.
  - rewrite list_insert_id by done. apply rtc_refl.
  - eapply rtc_l; [by eapply interleaving_step|].
    specialize (IH (<[k := t1]> ts) k).
    rewrite list_insert_insert_eq in IH. apply IH.
    apply list_lookup_insert_eq. by eapply lookup_lt_Some.
Qed.

Lemma sequential_schedule ls : forall before c c',
  Forall finished before ->
  for_each run_launch ls c = Done c' ->
  exists ts,
    rtc interleaving (before ++ (spawn <$> ls), c) (ts, c') /\ Forall finished ts.
Proof.
  induction ls as [|l ls IH]; intros before c c' Hbefore Hrun.
  - cbn in Hrun. injection Hrun as <-. exists before.
    rewrite app_nil_r. split; [apply rtc_refl|done].
  - cbn [for_each] in Hrun.
    destruct (run_launch l c) as [c1| |] eqn:Hone; cbn in Hrun; [|done|done].
    set (t := mkThread l (Z.max (l_start l) (l_end l)) true).
    destruct (IH (before ++ [t]) c1 c') as (ts & Hrtc & Hfin); [|done|].
    { apply Forall_app. split; [done|]. repeat constructor. cbn. lia. }
    exists ts. split; [|done].
    etrans; [|rewrite <- app_assoc in Hrtc; exact Hrtc].
    pose proof (interleaving_lift _ _ (thread_runs l c c1 Hone)
                  (before ++ (spawn <$> l :: ls)) (length before)) as Hlift.
    cbn [fst snd] in Hlift.
    rewrite insert_app_r_alt, Nat.sub_diag in Hlift by lia.
    apply Hlift. rewrite lookup_app_r, Nat.sub_diag by lia. done.
Qed.

End SequentialSchedule.

(** * The properties of the specification *)

(** C2. For 1 <= W <= N, the loop of [measureExecutionTime] that computes
    the ranges creates exactly W threads; the range of the thread of rank
    k has floor(N/W) + 1 indices when k < N mod W and floor(N/W)
    otherwise; the ranges follow one another from 0 to N, their starts
    increase, no index lies in two of them, their sizes add up to N and
    their union is [0, N).  (N is the size of a dataset, at most
    [INT_MAX] since [generateVectors] gets it as an [int].) *)
Theorem partition_balanced_ranges (n num_threads : Z) :
  1 <= num_threads <= n -> n <= INT_MAX ->
  exists ls,
    thread_launches n num_threads = Done ls /\
    size ls = num_threads /\
    (forall (k : nat) l, ls !! k = Some l ->
       range_size l
       = n / num_threads + (if Z.of_nat k <? n mod num_threads then 1 else 0)) /\
    chained 0 ls n /\
    (forall (k1 k2 : nat) l1 l2,
       (k1 < k2)%nat -> ls !! k1 = Some l1 -> ls !! k2 = Some l2 ->
       l_start l1 < l_start l2 /\ l_end l1 <= l_start l2) /\
    disjoint_ranges ls /\
    foldr Z.add 0 (range_size <$> ls) = n /\
    (forall j, 0 <= j < n <-> exists l, l ∈ ls /\ in_range l j).
Proof.
  intros Hw Hn.
  pose proof (Z.div_mod n num_threads ltac:(lia)) as Hdm.
  pose proof (Z.mod_pos_bound n num_threads ltac:(lia)) as Hr.
  assert (Hq : 1 <= n / num_threads) by (apply Z.div_le_lower_bound; lia).
  set (q := n / num_threads) in *. set (r := n mod num_threads) in *.
  assert (Hch : chained 0 (balanced_launch q r <$> seqZ 0 num_threads) n).
  { pose proof (balanced_chained q r ltac:(lia) (Z.to_nat num_threads) 0 ltac:(lia)) as H.
    rewrite Z2Nat.id in H by lia.
    replace (0 * q + Z.min 0 r) with 0 in H by lia.
    replace ((0 + num_threads) * q + Z.min (0 + num_threads) r) with n in H by lia.
    exact H. }
  exists (balanced_launch q r <$> seqZ 0 num_threads).
  split; [apply thread_launches_balanced; lia|].
  split; [unfold size; rewrite length_fmap, length_seqZ; lia|].
  split.
  { intros k l Hl. apply balanced_lookup in Hl as [_ ->].
    apply balanced_size. lia. }
  split; [exact Hch|].
  split.
  { intros k1 k2 l1 l2 Hk H1 H2.
    apply balanced_lookup in H1 as [_ ->]. apply balanced_lookup in H2 as [_ ->].
    split.
    - apply balanced_start_increasing; lia.
    - apply balanced_before; lia. }
  split.
  { intros k1 k2 l1 l2 j H1 H2 Hj1 Hj2.
    apply balanced_lookup in H1 as [_ ->]. apply balanced_lookup in H2 as [_ ->].
    apply Nat2Z.inj.
    apply (balanced_disjoint q r ltac:(lia) (Z.of_nat k1) (Z.of_nat k2) j); [lia|lia|done|done]. }
  split.
  { rewrite (chained_sizes _ _ _ Hch). lia. }
  intros j. apply chained_union. exact Hch.
Qed.

Lemma partition_balanced_ranges_witness :
  exists ls,
    thread_launches 10 3 = Done ls /\
    size ls = 3 /\
    (forall (k : nat) l, ls !! k = Some l ->
       range_size l = 10 / 3 + (if Z.of_nat k <? 10 mod 3 then 1 else 0)) /\
    chained 0 ls 10 /\
    (forall (k1 k2 : nat) l1 l2,
       (k1 < k2)%nat -> ls !! k1 = Some l1 -> ls !! k2 = Some l2 ->
       l_start l1 < l_start l2 /\ l_end l1 <= l_start l2) /\
    disjoint_ranges ls /\
    foldr Z.add 0 (range_size <$> ls) = 10 /\
    (forall j, 0 <= j < 10 <-> exists l, l ∈ ls /\ in_range l j).
Proof.
  apply (partition_balanced_ranges 10 3); [lia | unfold INT_MAX; lia].
Defined.

(** The accumulator of a vector of [int]s of at most [INT_MAX] elements
    holds the mathematical sum at every step. *)
Lemma int_vector_sum v :
  size v <= INT_MAX -> Forall is_int v ->
  Forall is_ll (partial_sums 0 v) /\ sum_vector v = exact_sum v.
Proof.
  intros Hn Hv. pose proof (size_nonneg v) as Hn0.
  assert (Hb : bounded (2 ^ 31) v).
  { eapply Forall_impl; [exact Hv|]. unfold is_int, INT_MIN, INT_MAX. intros x. cbn. lia. }
  split.
  - eapply Forall_impl; [apply (partial_sums_bounded (2 ^ 31) ltac:(lia) v 0 Hb)|].
    intros p. cbn beta. unfold is_ll, LLONG_MIN, LLONG_MAX, INT_MAX in *. lia.
  - apply (sum_vector_exact (2 ^ 31)); [lia | done |].
    unfold LLONG_MAX, INT_MAX in *. lia.
Qed.

Lemma wf_dataset_sums vs : wf_dataset vs -> sum_vector <$> vs = exact_sum <$> vs.
Proof.
  intros [_ Hvs]. apply Forall_fmap_ext_1.
  eapply Forall_impl; [exact Hvs|]. intros v [Hn Hv]. cbn.
  by apply int_vector_sum.
Qed.

(** C1. For every dataset the calculator can hold and every number of
    threads W >= 1, a trial completes and leaves in [sums] the exact
    mathematical sum of every vector of the dataset, the dataset being
    unchanged.  This holds for the threads taken in the order of their
    creation, which is one of the schedules, and for every other schedule
    that runs them all to their end; under no schedule are two threads
    about to write the same entry.  The accumulation in a 64-bit signed
    integer never overflows. *)
Theorem trial_results_exact (c : VectorSumCalculator) (num_threads elapsed_us : Z) :
  sized c -> wf_dataset (vectors c) -> 1 <= num_threads <= INT_MAX ->
  (exists c' ls,
     thread_launches (size (vectors c)) num_threads = Done ls /\
     measureExecutionTime num_threads elapsed_us c = Done (Qmake elapsed_us 1000, c') /\
     vectors c' = vectors c /\
     length (sums c') = length (vectors c) /\
     (forall (i : nat) v, vectors c !! i = Some v -> sums c' !! i = Some (exact_sum v)) /\
     (exists ts, rtc interleaving (spawn <$> ls, c) (ts, c') /\ Forall finished ts) /\
     (forall ts c'',
        rtc interleaving (spawn <$> ls, c) (ts, c'') ->
        (forall (k1 k2 : nat) t1 t2,
           ts !! k1 = Some t1 -> ts !! k2 = Some t2 -> k1 <> k2 ->
           t_i t1 < l_end (t_launch t1) -> t_i t2 < l_end (t_launch t2) ->
           t_i t1 <> t_i t2) /\
        (Forall finished ts -> vectors c'' = vectors c /\ sums c'' = sums c'))) /\
  (forall v, v ∈ vectors c ->
     Forall is_ll (partial_sums 0 v) /\ sum_vector v = exact_sum v).
Proof.
  intros Hc Hwf Hw. pose proof Hwf as [Hn Hvs].
  pose proof (size_nonneg (vectors c)) as Hn0.
  set (n := size (vectors c)) in *.
  pose proof (balanced_chained_all n num_threads Hn0 ltac:(lia)) as Hch.
  pose proof (Z.mod_pos_bound n num_threads ltac:(lia)) as Hr.
  assert (Hq : 0 <= n / num_threads) by (apply Z.div_pos; lia).
  pose proof (measureExecutionTime_spec c num_threads elapsed_us Hc Hn Hw) as Hrun.
  fold n in Hrun.
  split.
  - eexists _, _. split; [apply thread_launches_balanced; lia|].
    split; [exact Hrun|]. cbn [vectors sums].
    split; [done|]. split; [by rewrite length_fmap|]. split; [|split].
    + intros i v Hv. rewrite wf_dataset_sums by done.
      by rewrite list_lookup_fmap, Hv.
    + unfold measureExecutionTime in Hrun. fold n in Hrun.
      rewrite thread_launches_balanced, bind_Done in Hrun by lia.
      destruct (for_each run_launch _ c) as [c1| |] eqn:Hloop; [|done|done].
      rewrite bind_Done in Hrun. injection Hrun as ->.
      apply (sequential_schedule _ [] c _ (Forall_nil_2 _) Hloop).
    + intros ts c'' Hrtc. split.
      * intros k1 k2 t1 t2. eapply schedule_race_free; [|exact Hrtc].
        apply balanced_disjoint_ranges; lia.
      * intros Hfin. by eapply every_schedule_sums.
  - intros v Hv. rewrite Forall_forall in Hvs. destruct (Hvs v Hv) as [Hlen Hint].
    by apply int_vector_sum.
Qed.

Lemma trial_results_exact_witness :
  sized two_vectors /\ wf_dataset (vectors two_vectors) /\ 1 <= 2 <= INT_MAX /\
  (exists c' ls,
     thread_launches (size (vectors two_vectors)) 2 = Done ls /\
     measureExecutionTime 2 1500 two_vectors = Done (Qmake 1500 1000, c') /\
     vectors c' = vectors two_vectors /\
     length (sums c') = length (vectors two_vectors) /\
     (forall (i : nat) v,
        vectors two_vectors !! i = Some v -> sums c' !! i = Some (exact_sum v)) /\
     (exists ts, rtc interleaving (spawn <$> ls, two_vectors) (ts, c') /\
                 Forall finished ts) /\
     (forall ts c'',
        rtc interleaving (spawn <$> ls, two_vectors) (ts, c'') ->
        (forall (k1 k2 : nat) t1 t2,
           ts !! k1 = Some t1 -> ts !! k2 = Some t2 -> k1 <> k2 ->
           t_i t1 < l_end (t_launch t1) -> t_i t2 < l_end (t_launch t2) ->
           t_i t1 <> t_i t2) /\
        (Forall finished ts ->
         vectors c'' = vectors two_vectors /\ sums c'' = sums c'))) /\
  (forall v, v ∈ vectors two_vectors ->
     Forall is_ll (partial_sums 0 v) /\ sum_vector v = exact_sum v).
Proof.
  assert (H1 : sized two_vectors) by reflexivity.
  assert (H2 : wf_dataset (vectors two_vectors)).
  { split; [vm_compute; discriminate|].
    repeat constructor; vm_compute; discriminate. }
  assert (H3 : 1 <= 2 <= INT_MAX) by (unfold INT_MAX; lia).
  split; [exact H1|]. split; [exact H2|]. split; [exact H3|].
  exact (trial_results_exact two_vectors 2 1500 H1 H2 H3).
Defined.

(** C3. On one dataset, the results of the parallel phase run with one
    thread and those of the parallel phase run with k >= 1 threads are the
    same list, whatever the results buffers held before. *)
Theorem results_partition_invariant (c1 ck : VectorSumCalculator) (k t1 tk : Z) :
  vectors c1 = vectors ck -> sized c1 -> sized ck ->
  size (vectors c1) <= INT_MAX -> 1 <= k <= INT_MAX ->
  exists r1 rk,
    measureExecutionTime 1 t1 c1 = Done (Qmake t1 1000, r1) /\
    measureExecutionTime k tk ck = Done (Qmake tk 1000, rk) /\
    sums r1 = sums rk /\
    forall i : nat, sums r1 !! i = sums rk !! i.
Proof.
  intros Hvs H1 Hk Hn Hw.
  eexists _, _.
  split; [apply measureExecutionTime_spec; [done | done | unfold INT_MAX; lia]|].
  split; [apply measureExecutionTime_spec; [done | by rewrite <- Hvs | done]|].
  cbn [sums]. rewrite Hvs. done.
Qed.

Lemma results_partition_invariant_witness :
  vectors two_vectors = vectors (fill_zero two_vectors) /\
  sized two_vectors /\ sized (fill_zero two_vectors) /\
  size (vectors two_vectors) <= INT_MAX /\ 1 <= 2 <= INT_MAX /\
  exists r1 rk,
    measureExecutionTime 1 1500 two_vectors = Done (Qmake 1500 1000, r1) /\
    measureExecutionTime 2 900 (fill_zero two_vectors) = Done (Qmake 900 1000, rk) /\
    sums r1 = sums rk /\
    forall i : nat, sums r1 !! i = sums rk !! i.
Proof.
  assert (H0 : vectors two_vectors = vectors (fill_zero two_vectors)) by reflexivity.
  assert (H1 : sized two_vectors) by reflexivity.
  assert (H2 : sized (fill_zero two_vectors)) by reflexivity.
  assert (H3 : size (vectors two_vectors) <= INT_MAX) by (vm_compute; discriminate).
  assert (H4 : 1 <= 2 <= INT_MAX) by (unfold INT_MAX; lia).
  repeat (split; [assumption|]).
  exact (results_partition_invariant two_vectors (fill_zero two_vectors) 2 1500 900
           H0 H1 H2 H3 H4).
Defined.

(** C5. A worker run on the range [start, end), 0 <= start <= end <= N,
    returns and leaves the dataset as it was and every entry of the
    results outside [start, end) as it was; the results keep their size.
    The same holds in every state the thread of that range goes through,
    one turn of its loop after the other. *)
Theorem worker_frame (c : VectorSumCalculator) (start_idx end_idx thread_id : Z) :
  sized c -> 0 <= start_idx <= end_idx -> end_idx <= size (vectors c) ->
  (exists c',
     calculateSumsRange start_idx end_idx thread_id c = Done c' /\
     vectors c' = vectors c /\
     length (sums c') = length (sums c) /\
     forall k : nat, ~ start_idx <= Z.of_nat k < end_idx -> sums c' !! k = sums c !! k) /\
  (forall t' c',
     rtc thread_step (spawn (mkLaunch start_idx end_idx thread_id), c) (t', c') ->
     vectors c' = vectors c /\
     length (sums c') = length (sums c) /\
     forall k : nat, ~ start_idx <= Z.of_nat k < end_idx -> sums c' !! k = sums c !! k).
Proof.
  intros Hc Hse Hend. split.
  - destruct (calculateSumsRange_spec c Hc start_idx end_idx thread_id Hse Hend)
      as (ss & Hrun & Hlen & _ & Hout).
    eexists. split; [exact Hrun|]. cbn. auto.
  - intros t' c' Hrun.
    apply thread_run_frame in Hrun; [|cbn; lia]. exact Hrun.
Qed.

Lemma worker_frame_witness :
  sized two_vectors /\ 0 <= 1 <= 2 /\ 2 <= size (vectors two_vectors) /\
  (exists c',
     calculateSumsRange 1 2 2 two_vectors = Done c' /\
     vectors c' = vectors two_vectors /\
     length (sums c') = length (sums two_vectors) /\
     forall k : nat, ~ 1 <= Z.of_nat k < 2 -> sums c' !! k = sums two_vectors !! k) /\
  (forall t' c',
     rtc thread_step (spawn (mkLaunch 1 2 2), two_vectors) (t', c') ->
     vectors c' = vectors two_vectors /\
     length (sums c') = length (sums two_vectors) /\
     forall k : nat, ~ 1 <= Z.of_nat k < 2 -> sums c' !! k = sums two_vectors !! k).
Proof.
  assert (H1 : sized two_vectors) by reflexivity.
  assert (H2 : 0 <= 1 <= 2) by lia.
  assert (H3 : 2 <= size (vectors two_vectors)) by (vm_compute; discriminate).
  repeat (split; [assumption|]).
  exact (worker_frame two_vectors 1 2 2 H1 H2 H3).
Defined.

Lemma sum_vector_zeros (n : nat) : sum_vector (replicate n 0) = 0.
Proof.
  unfold sum_vector. induction n as [|n IH]; cbn [replicate fold_left]; [done|].
  change (ll_of (0 + 0)) with 0. exact IH.
Qed.

(** A dataset of one vector, one thread. *)
Lemma single_vector_trial (v : list Z) (elapsed_us : Z) :
  measureExecutionTime 1 elapsed_us (mkCalc [v] [0] [])
  = Done (Qmake elapsed_us 1000, mkCalc [v] [sum_vector v] [LWorker 1 0 0]).
Proof.
  rewrite measureExecutionTime_spec; [done | done | vm_compute; discriminate |].
  unfold INT_MAX. lia.
Qed.

(** C6. For a vector of 100 elements, each in [-1000, 1000], every value
    the accumulator takes, before and after it is stored in 64 bits, is at
    most 100000 in absolute value and within the range of a 64-bit signed
    integer, and the final value is the mathematical sum; a dataset made
    of that vector alone, or of a vector of a single [int], summed by one
    thread, gives its sum; a vector of zeros sums to 0. *)
Theorem accumulator_never_overflows (v : list Z) :
  length v = 100%nat -> Forall (fun x => -1000 <= x <= 1000) v ->
  Forall (fun p => Z.abs p <= 100000 /\ is_ll p /\ ll_of p = p) (partial_sums 0 v) /\
  Z.abs (sum_vector v) <= 100000 /\
  sum_vector v = exact_sum v /\
  (forall t, measureExecutionTime 1 t (mkCalc [v] [0] [])
             = Done (Qmake t 1000, mkCalc [v] [exact_sum v] [LWorker 1 0 0])) /\
  (forall x t, is_int x ->
     measureExecutionTime 1 t (mkCalc [[x]] [0] [])
     = Done (Qmake t 1000, mkCalc [[x]] [x] [LWorker 1 0 0])) /\
  (forall n : nat, sum_vector (replicate n 0) = 0).
Proof.
  intros Hlen Hv.
  assert (Hsize : size v = 100) by (unfold size; rewrite Hlen; done).
  assert (Hb : bounded 1000 v) by exact Hv.
  assert (Hsum : sum_vector v = exact_sum v).
  { apply (sum_vector_exact 1000); [lia | done |]. rewrite Hsize. unfold LLONG_MAX. lia. }
  split.
  { eapply Forall_impl; [apply (partial_sums_bounded 1000 ltac:(lia) v 0 Hb)|].
    intros p. cbn beta. rewrite Hsize. intros Hp.
    assert (Hll : is_ll p) by (unfold is_ll, LLONG_MIN, LLONG_MAX; lia).
    split; [lia|]. split; [done|]. by apply ll_of_id. }
  split.
  { rewrite Hsum. pose proof (exact_sum_bounded 1000 v Hb). lia. }
  split; [done|].
  split.
  { intros t. rewrite single_vector_trial. by rewrite Hsum. }
  split.
  { intros x t Hx. rewrite single_vector_trial. unfold sum_vector. cbn [fold_left].
    rewrite ll_of_id; [done|]. apply is_int_is_ll. by replace (0 + x) with x by lia. }
  apply sum_vector_zeros.
Qed.

Lemma accumulator_never_overflows_witness :
  length (replicate 100 1000) = 100%nat /\
  Forall (fun x => -1000 <= x <= 1000) (replicate 100 1000) /\
  Forall (fun p => Z.abs p <= 100000 /\ is_ll p /\ ll_of p = p)
    (partial_sums 0 (replicate 100 1000)) /\
  Z.abs (sum_vector (replicate 100 1000)) <= 100000 /\
  sum_vector (replicate 100 1000) = exact_sum (replicate 100 1000) /\
  (forall t, measureExecutionTime 1 t (mkCalc [replicate 100 1000] [0] [])
             = Done (Qmake t 1000,
                     mkCalc [replicate 100 1000] [exact_sum (replicate 100 1000)]
                       [LWorker 1 0 0])) /\
  (forall x t, is_int x ->
     measureExecutionTime 1 t (mkCalc [[x]] [0] [])
     = Done (Qmake t 1000, mkCalc [[x]] [x] [LWorker 1 0 0])) /\
  (forall n : nat, sum_vector (replicate n 0) = 0).
Proof.
  assert (H1 : length (replicate 100 1000) = 100%nat) by reflexivity.
  assert (H2 : Forall (fun x => -1000 <= x <= 1000) (replicate 100 1000)).
  { apply Forall_replicate. lia. }
  split; [exact H1|]. split; [exact H2|].
  exact (accumulator_never_overflows (replicate 100 1000) H1 H2).
Defined.

(** C10. With more threads than vectors, W > N >= 1, the loop still
    creates W threads; the thread of rank k < N gets the single index k,
    the W - N others get the empty range [N, N); every index of [0, N)
    lies in exactly one range, and the parallel phase returns with the
    dataset unchanged and, in the results, the exact mathematical sum of
    every vector. *)
Theorem more_threads_than_vectors (c : VectorSumCalculator) (num_threads elapsed_us : Z) :
  sized c -> wf_dataset (vectors c) ->
  1 <= size (vectors c) < num_threads -> num_threads <= INT_MAX ->
  exists ls c',
    thread_launches (size (vectors c)) num_threads = Done ls /\
    size ls = num_threads /\
    (forall (k : nat) l, ls !! k = Some l ->
       if Z.of_nat k <? size (vectors c)
       then l_start l = Z.of_nat k /\ l_end l = Z.of_nat k + 1
       else l_start l = size (vectors c) /\ l_end l = size (vectors c)) /\
    (forall j, 0 <= j < size (vectors c) <-> exists l, l ∈ ls /\ in_range l j) /\
    disjoint_ranges ls /\
    measureExecutionTime num_threads elapsed_us c = Done (Qmake elapsed_us 1000, c') /\
    vectors c' = vectors c /\
    sums c' = exact_sum <$> vectors c /\
    (forall (i : nat) v, vectors c !! i = Some v -> sums c' !! i = Some (exact_sum v)).
Proof.
  intros Hc Hwf Hn Hw. set (n := size (vectors c)) in *.
  assert (Hq : n / num_threads = 0) by (apply Z.div_small; lia).
  assert (Hr : n mod num_threads = n) by (apply Z.mod_small; lia).
  assert (Hch : chained 0 (balanced_launch 0 n <$> seqZ 0 num_threads) n).
  { pose proof (balanced_chained 0 n ltac:(lia) (Z.to_nat num_threads) 0 ltac:(lia)) as H.
    rewrite Z2Nat.id in H by lia.
    replace (0 * 0 + Z.min 0 n) with 0 in H by lia.
    replace ((0 + num_threads) * 0 + Z.min (0 + num_threads) n) with n in H by lia.
    exact H. }
  eexists _, _.
  split; [apply thread_launches_balanced; lia|]. rewrite Hq, Hr.
  split; [unfold size; rewrite length_fmap, length_seqZ; lia|].
  split.
  { intros k l Hl. apply balanced_lookup in Hl as [_ ->]. cbn.
    destruct (Z.ltb_spec (Z.of_nat k) n); lia. }
  split; [intros j; apply chained_union; exact Hch|].
  split.
  { intros k1 k2 l1 l2 j H1 H2 Hj1 Hj2.
    apply balanced_lookup in H1 as [_ ->]. apply balanced_lookup in H2 as [_ ->].
    apply Nat2Z.inj.
    apply (balanced_disjoint 0 n ltac:(lia) (Z.of_nat k1) (Z.of_nat k2) j); [lia|lia|done|done]. }
  split; [apply measureExecutionTime_spec; [done | subst n; lia | lia]|].
  cbn [vectors sums]. rewrite (wf_dataset_sums _ Hwf).
  split; [done|]. split; [done|].
  intros i v Hv. by rewrite list_lookup_fmap, Hv.
Qed.

Lemma more_threads_than_vectors_witness :
  sized two_vectors /\ wf_dataset (vectors two_vectors) /\
  1 <= size (vectors two_vectors) < 5 /\ 5 <= INT_MAX /\
  exists ls c',
    thread_launches (size (vectors two_vectors)) 5 = Done ls /\
    size ls = 5 /\
    (forall (k : nat) l, ls !! k = Some l ->
       if Z.of_nat k <? size (vectors two_vectors)
       then l_start l = Z.of_nat k /\ l_end l = Z.of_nat k + 1
       else l_start l = size (vectors two_vectors) /\ l_end l = size (vectors two_vectors)) /\
    (forall j, 0 <= j < size (vectors two_vectors) <-> exists l, l ∈ ls /\ in_range l j) /\
    disjoint_ranges ls /\
    measureExecutionTime 5 700 two_vectors = Done (Qmake 700 1000, c') /\
    vectors c' = vectors two_vectors /\
    sums c' = exact_sum <$> vectors two_vectors /\
    (forall (i : nat) v,
       vectors two_vectors !! i = Some v -> sums c' !! i = Some (exact_sum v)).
Proof.
  assert (H1 : sized two_vectors) by reflexivity.
  assert (H0 : wf_dataset (vectors two_vectors)).
  { split; [vm_compute; discriminate|].
    repeat constructor; vm_compute; discriminate. }
  assert (H2 : 1 <= size (vectors two_vectors) < 5) by (vm_compute; split; [discriminate|reflexivity]).
  assert (H3 : 5 <= INT_MAX) by (unfold INT_MAX; lia).
  split; [exact H1|]. split; [exact H0|]. split; [exact H2|]. split; [exact H3|].
  exact (more_threads_than_vectors two_vectors 5 700 H1 H0 H2 H3).
Defined.

(** ** The validator *)

Section Validator.

Variable c : VectorSumCalculator.
Variable draw : nat -> Z.
Hypothesis c_sized : sized c.

Lemma validate_bound_nonempty :
  1 <= size (vectors c) <= INT_MAX -> validate_bound c = size (vectors c) - 1.
Proof.
  intros Hn. unfold validate_bound.
  rewrite size_t_of_id by (unfold INT_MAX in *; lia).
  apply int_of_id. unfold is_int, INT_MIN, INT_MAX in *. lia.
Qed.

Lemma validate_bound_empty : size (vectors c) = 0 -> validate_bound c = -1.
Proof. intros Hn. unfold validate_bound. rewrite Hn. reflexivity. Qed.

(** One comparison, on an index of the dataset. *)
Lemma sample_decided t :
  0 <= draw t < size (vectors c) ->
  exists v s,
    at_index (vectors c) (draw t) = Done v /\
    at_index (sums c) (draw t) = Done s /\
    (sample_matches draw c t <-> s = sum_vector v).
Proof.
  intros Ht.
  destruct (at_index_in_bounds (vectors c) (draw t) Ht) as (v & Hv & Hatv).
  destruct (at_index_in_bounds (sums c) (draw t)) as (s & Hs & Hats).
  { unfold size in *. rewrite c_sized. done. }
  exists v, s. split; [done|]. split; [done|].
  unfold sample_matches. rewrite Hv, Hs. cbn. split; congruence.
Qed.

Lemma validate_loop_spec tests :
  Forall (fun t => 0 <= draw t < size (vectors c)) tests ->
  (Forall (sample_matches draw c) tests /\
   validate_loop draw tests c = Done (true, c)) \/
  (exists before t after,
     tests = before ++ t :: after /\
     Forall (sample_matches draw c) before /\
     ~ sample_matches draw c t /\
     validate_loop draw tests c = Done (false, print (LMismatch (draw t)) c)).
Proof.
  induction tests as [|t tests IH]; intros Hin.
  - left. split; [constructor|done].
  - apply Forall_cons_1 in Hin as [Ht Hin].
    destruct (sample_decided t Ht) as (v & s & Hv & Hs & Hm).
    cbn [validate_loop]. rewrite Hv, bind_Done, Hs, bind_Done.
    destruct (Z.eqb_spec s (sum_vector v)) as [Heq|Hne].
    + destruct (IH Hin) as [[Hall Hrun]|(before & t' & after & -> & Hall & Hbad & Hrun)].
      * left. split; [constructor; [by apply Hm|done]|done].
      * right. exists (t :: before), t', after.
        split; [done|]. split; [constructor; [by apply Hm|done]|]. done.
    + right. exists [], t, tests. split; [done|]. split; [constructor|].
      split; [intros H; by apply Hm in H|done].
Qed.

End Validator.

Lemma seq_split_first (n : nat) before t after :
  seq 0 n = before ++ t :: after ->
  t = length before /\ (t < n)%nat /\ forall t', (t' < t)%nat -> t' ∈ before.
Proof.
  intros Hsplit.
  assert (Ht : seq 0 n !! length before = Some t).
  { rewrite Hsplit. by apply list_lookup_middle. }
  apply lookup_seq in Ht as [-> Hlt]. split; [done|]. split; [done|].
  intros t' Ht'. cbn in Ht'.
  assert (Hl : seq 0 n !! t' = Some t') by (apply lookup_seq; lia).
  rewrite Hsplit, lookup_app_l in Hl by done.
  by eapply list_elem_of_lookup_2.
Qed.

(** On a dataset the calculator can hold, the comparison of the validator
    succeeds exactly when the stored result is the mathematical sum. *)
Lemma sample_matches_exact c draw (t : nat) :
  wf_dataset (vectors c) -> 0 <= draw t < size (vectors c) ->
  sample_matches draw c t <-> sample_exact draw c t.
Proof.
  intros [_ Hwf] Ht. unfold sample_matches, sample_exact.
  destruct (at_index_in_bounds (vectors c) (draw t) Ht) as (v & Hv & _).
  rewrite Hv. cbn.
  assert (Hsum : sum_vector v = exact_sum v).
  { rewrite Forall_forall in Hwf.
    destruct (Hwf v (list_elem_of_lookup_2 _ _ _ Hv)) as [Hlen Hint].
    by apply int_vector_sum. }
  rewrite Hsum. split.
  - intros Hs. by exists v.
  - intros (v' & [= <-] & Hs). done.
Qed.

(** C4. The validator compares, for each of 10 indices drawn in the
    dataset (the same index may be drawn again), the stored result with the
    sum of the elements of the vector; it returns [true] exactly when the
    10 stored results are these sums, and then prints nothing; otherwise it
    returns [false] at the first index whose result is not the sum, having
    added to the output the line that reports that index and nothing
    else.  It changes neither the dataset nor the results.  In both cases
    the trial goes on: its time has been recorded, the line of the correct
    results is printed only after a success, and the time is printed. *)
Theorem validator_reports_first_mismatch
    (c : VectorSumCalculator) (draw : nat -> Z) (time : Q) (times : list Q) :
  sized c -> 1 <= size (vectors c) <= INT_MAX -> wf_dataset (vectors c) ->
  (forall t : nat, 0 <= draw t <= validate_bound c) ->
  exists ok c' c'',
    validateResults draw c = Done (ok, c') /\
    (ok = true <-> forall t : nat, (t < 10)%nat -> sample_exact draw c t) /\
    (ok = true -> c' = c) /\
    (ok = false ->
       exists t : nat, (t < 10)%nat /\
         (forall t' : nat, (t' < t)%nat -> sample_exact draw c t') /\
         ~ sample_exact draw c t /\
         cout c' = cout c ++ [LMismatch (draw t)]) /\
    vectors c' = vectors c /\ sums c' = sums c /\
    finish_trial draw time (c, times) = Done (c'', times ++ [time]) /\
    vectors c'' = vectors c /\ sums c'' = sums c /\
    cout c'' = cout c' ++ (if ok then [LCorrect] else []) ++ [LTime time].
Proof.
  intros Hc Hn Hwf Hdraw. rewrite validate_bound_nonempty in Hdraw by done.
  assert (Hin : Forall (fun t => 0 <= draw t < size (vectors c)) (seq 0 10)).
  { apply Forall_forall. intros t _. specialize (Hdraw t). lia. }
  assert (Hex : forall t : nat, sample_matches draw c t <-> sample_exact draw c t).
  { intros t. apply sample_matches_exact; [done|]. specialize (Hdraw t). lia. }
  assert (Hval : validateResults draw c = validate_loop draw (seq 0 10) c).
  { unfold validateResults. rewrite validate_bound_nonempty by done.
    destruct (Z.ltb_spec (size (vectors c) - 1) 0); [lia|done]. }
  unfold finish_trial. rewrite Hval.
  destruct (validate_loop_spec c draw Hc (seq 0 10) Hin)
    as [[Hall Hrun]|(before & t & after & Hsplit & Hall & Hbad & Hrun)];
    rewrite Hrun.
  - exists true, c. eexists. split; [done|]. split.
    { split; [|done]. intros _ t Ht. rewrite Forall_forall in Hall.
      apply Hex, Hall, elem_of_seq. lia. }
    split; [done|]. split; [done|]. split; [done|]. split; [done|].
    split; [reflexivity|]. cbn [print vectors sums cout].
    split; [done|]. split; [done|]. by rewrite <- app_assoc.
  - apply seq_split_first in Hsplit as (Hlen & Hlt & Hbefore).
    exists false, (print (LMismatch (draw t)) c). eexists. split; [done|]. split.
    { split; [done|]. intros Hall'. exfalso. by apply Hbad, Hex, Hall'. }
    split; [done|]. split.
    { intros _. exists t. split; [done|]. split.
      - intros t' Ht'. rewrite Forall_forall in Hall. by apply Hex, Hall, Hbefore.
      - split; [intros Hs; by apply Hbad, Hex|done]. }
    split; [done|]. split; [done|].
    split; [reflexivity|]. cbn [print vectors sums cout]. done.
Qed.

Lemma validator_reports_first_mismatch_witness :
  sized two_vectors /\ 1 <= size (vectors two_vectors) <= INT_MAX /\
  wf_dataset (vectors two_vectors) /\
  (forall t : nat, 0 <= Z.of_nat (t mod 2) <= validate_bound two_vectors) /\
  exists ok c' c'',
    validateResults (fun t => Z.of_nat (t mod 2)) two_vectors = Done (ok, c') /\
    (ok = true <->
     forall t : nat, (t < 10)%nat ->
       sample_exact (fun t => Z.of_nat (t mod 2)) two_vectors t) /\
    (ok = true -> c' = two_vectors) /\
    (ok = false ->
       exists t : nat, (t < 10)%nat /\
         (forall t' : nat, (t' < t)%nat ->
            sample_exact (fun t => Z.of_nat (t mod 2)) two_vectors t') /\
         ~ sample_exact (fun t => Z.of_nat (t mod 2)) two_vectors t /\
         cout c' = cout two_vectors ++ [LMismatch (Z.of_nat (t mod 2))]) /\
    vectors c' = vectors two_vectors /\ sums c' = sums two_vectors /\
    finish_trial (fun t => Z.of_nat (t mod 2)) (Qmake 1500 1000) (two_vectors, [])
    = Done (c'', [] ++ [Qmake 1500 1000]) /\
    vectors c'' = vectors two_vectors /\ sums c'' = sums two_vectors /\
    cout c'' = cout c' ++ (if ok then [LCorrect] else []) ++ [LTime (Qmake 1500 1000)].
Proof.
  assert (H1 : sized two_vectors) by reflexivity.
  assert (H2 : 1 <= size (vectors two_vectors) <= INT_MAX)
    by (vm_compute; split; discriminate).
  assert (H0 : wf_dataset (vectors two_vectors)).
  { split; [vm_compute; discriminate|].
    repeat constructor; vm_compute; discriminate. }
  assert (H3 : forall t : nat, 0 <= Z.of_nat (t mod 2) <= validate_bound two_vectors).
  { intros t. change (validate_bound two_vectors) with 1.
    pose proof (Nat.mod_upper_bound t 2). lia. }
  split; [exact H1|]. split; [exact H2|]. split; [exact H0|]. split; [exact H3|].
  exact (validator_reports_first_mismatch two_vectors (fun t => Z.of_nat (t mod 2))
           (Qmake 1500 1000) [] H1 H2 H0 H3).
Defined.

(** The validator on the scenario of a corrupted result: the results of
    [two_vectors] are not the sums, the first index drawn is reported and
    the trial goes on. *)
Example validator_corrupted :
  finish_trial (fun t => Z.of_nat (t mod 2)) (Qmake 1500 1000) (two_vectors, [])
  = Done (mkCalc [[1; 2; 3]; [4; 5; 6]] [0; 0]
            [LMismatch 0; LTime (Qmake 1500 1000)],
          [Qmake 1500 1000]).
Proof. reflexivity. Qed.

(** C9. On a dataset of N >= 1 vectors the bounds of the distribution are
    0 and N - 1, every index drawn between them lies in [0, N), the
    accesses [vectors[idx]] and [sums[idx]] are inside the vectors and the
    validator returns; on an empty dataset the bounds are 0 and -1, no
    distribution exists on them and the behaviour is undefined: the
    validator returns only if N >= 1. *)
Theorem validator_needs_nonempty (c : VectorSumCalculator) (draw : nat -> Z) :
  sized c -> size (vectors c) <= INT_MAX ->
  (1 <= size (vectors c) ->
     validate_bound c = size (vectors c) - 1 /\
     ((forall t : nat, (t < 10)%nat -> 0 <= draw t <= validate_bound c) ->
      (forall t : nat, (t < 10)%nat ->
         0 <= draw t < size (vectors c) /\
         (exists v, at_index (vectors c) (draw t) = Done v) /\
         (exists s, at_index (sums c) (draw t) = Done s)) /\
      exists r, validateResults draw c = Done r)) /\
  (size (vectors c) = 0 ->
     validate_bound c = -1 /\ validateResults draw c = Undefined) /\
  ((exists r, validateResults draw c = Done r) -> 1 <= size (vectors c)).
Proof.
  intros Hc Hmax. pose proof (size_nonneg (vectors c)) as Hn0.
  assert (Hempty : size (vectors c) = 0 ->
                   validate_bound c = -1 /\ validateResults draw c = Undefined).
  { intros Hn. split; [by apply validate_bound_empty|].
    unfold validateResults. by rewrite validate_bound_empty. }
  split; [|split; [exact Hempty|]].
  - intros Hn. split; [by apply validate_bound_nonempty|].
    rewrite validate_bound_nonempty by done. intros Hdraw.
    assert (Hin : Forall (fun t => 0 <= draw t < size (vectors c)) (seq 0 10)).
    { apply Forall_forall. intros t Ht. apply elem_of_seq in Ht.
      specialize (Hdraw t ltac:(lia)). lia. }
    split.
    + intros t Ht. specialize (Hdraw t Ht).
      destruct (sample_decided c draw Hc t ltac:(lia)) as (v & s & Hv & Hs & _).
      split; [lia|]. split; [by exists v|by exists s].
    + unfold validateResults. rewrite validate_bound_nonempty by done.
      destruct (Z.ltb_spec (size (vectors c) - 1) 0); [lia|].
      destruct (validate_loop_spec c draw Hc (seq 0 10) Hin)
        as [[_ Hrun]|(before & t & after & _ & _ & _ & Hrun)];
        rewrite Hrun; eauto.
  - intros [r Hr].
    destruct (decide (size (vectors c) = 0)) as [Hn|Hn]; [|lia].
    destruct (Hempty Hn) as [_ Hu]. congruence.
Qed.

Lemma validator_needs_nonempty_witness :
  (sized two_vectors /\ size (vectors two_vectors) <= INT_MAX /\
   1 <= size (vectors two_vectors) /\
   (forall t : nat, (t < 10)%nat -> 0 <= 1 <= validate_bound two_vectors) /\
   validate_bound two_vectors = size (vectors two_vectors) - 1 /\
   (forall t : nat, (t < 10)%nat ->
      0 <= 1 < size (vectors two_vectors) /\
      (exists v, at_index (vectors two_vectors) 1 = Done v) /\
      (exists s, at_index (sums two_vectors) 1 = Done s)) /\
   exists r, validateResults (fun _ => 1) two_vectors = Done r) /\
  (sized calculator /\ size (vectors calculator) <= INT_MAX /\
   size (vectors calculator) = 0 /\
   validate_bound calculator = -1 /\
   validateResults (fun _ => 1) calculator = Undefined).
Proof.
  split.
  - assert (H1 : sized two_vectors) by reflexivity.
    assert (H2 : size (vectors two_vectors) <= INT_MAX) by (vm_compute; discriminate).
    assert (H3 : 1 <= size (vectors two_vectors)) by (vm_compute; discriminate).
    assert (H4 : forall t : nat, (t < 10)%nat -> 0 <= 1 <= validate_bound two_vectors).
    { intros t _. change (validate_bound two_vectors) with 1. lia. }
    repeat (split; [assumption|]).
    destruct (validator_needs_nonempty two_vectors (fun _ => 1) H1 H2) as [Hne _].
    destruct (Hne H3) as [Hb Hrest]. split; [exact Hb|]. exact (Hrest H4).
  - assert (H1 : sized calculator) by reflexivity.
    assert (H2 : size (vectors calculator) <= INT_MAX) by (vm_compute; discriminate).
    assert (H3 : size (vectors calculator) = 0) by reflexivity.
    repeat (split; [assumption|]).
    destruct (validator_needs_nonempty calculator (fun _ => 1) H1 H2) as (_ & He & _).
    exact (He H3).
Defined.

(** The validator on a calculator that holds no vector. *)
Example validator_empty (draw : nat -> Z) :
  validateResults draw calculator = Undefined.
Proof. reflexivity. Qed.

(** ** The data generator *)

Section Generator.

Variable e : env.
Variable vector_size : Z.
Hypothesis vector_size_int : 0 <= vector_size <= INT_MAX.

Lemma resize_empty {A} call count (zero : A) printed :
  alloc e call = None -> 0 <= count <= INT_MAX ->
  resize e call count zero [] printed = Done (replicate (Z.to_nat count) zero).
Proof.
  intros Hcall Hcount. unfold resize. rewrite Hcall.
  rewrite size_t_of_id by (unfold INT_MAX in *; lia).
  rewrite take_nil. cbn [length app]. by rewrite Nat.sub_0_r.
Qed.

Lemma resize_Throws {A} call count (zero : A) v printed what :
  alloc e call = Some what -> resize e call count zero v printed = Throws what printed.
Proof. intros Hcall. unfold resize. by rewrite Hcall. Qed.

(** The inner loop of the generator fills the row from left to right. *)
Lemma fill_row (f : Z -> Z) (m k : nat) :
  (k <= m)%nat ->
  foldl (fun r j => <[Z.to_nat j := f j]> r) (replicate m 0) (seqZ 0 (Z.of_nat k))
  = (f <$> seqZ 0 (Z.of_nat k)) ++ replicate (m - k) 0.
Proof.
  induction k as [|k IH]; intros Hk.
  - rewrite seqZ_nil by lia. cbn. by rewrite Nat.sub_0_r.
  - rewrite seqZ_S, foldl_app, IH by lia. cbn [foldl].
    rewrite insert_app_r_alt; rewrite length_fmap, length_seqZ; [|lia].
    replace (Z.to_nat (0 + Z.of_nat k) - Z.to_nat (Z.of_nat k))%nat with 0%nat by lia.
    replace (m - k)%nat with (S (m - S k)) by lia. cbn [replicate].
    rewrite fmap_app, <- app_assoc. done.
Qed.

Lemma generate_one_Done (n k : nat) rows ss out :
  length rows = k -> (k < n)%nat -> alloc e (S k) = None ->
  generate_one e vector_size (Z.of_nat k)
    (mkCalc (rows ++ replicate (n - k) []) ss out)
  = Done (mkCalc ((rows ++ [generated_vector e vector_size (Z.of_nat k)])
                    ++ replicate (n - S k) []) ss out).
Proof.
  intros Hrows Hk Hcall. unfold generate_one. cbn [vectors sums cout].
  replace (n - k)%nat with (S (n - S k)) by lia. cbn [replicate].
  rewrite (at_index_Done _ _ []);
    [|lia|by rewrite Nat2Z.id, <- Hrows; apply list_lookup_middle].
  rewrite bind_Done, Nat2Z.id, resize_empty, bind_Done by done.
  pose proof (fill_row (fun j => gen_draw e (Z.to_nat (Z.of_nat k * vector_size + j)))
                (Z.to_nat vector_size) (Z.to_nat vector_size) ltac:(lia)) as Hrow.
  rewrite Z2Nat.id, Nat.sub_diag, app_nil_r in Hrow by lia.
  rewrite Hrow. fold (generated_vector e vector_size (Z.of_nat k)).
  rewrite insert_app_r_alt by lia.
  replace (k - length rows)%nat with 0%nat by lia. cbn [insert list_insert].
  by rewrite <- app_assoc.
Qed.

Lemma generate_one_Throws (n k : nat) rows ss out what :
  length rows = k -> (k < n)%nat -> alloc e (S k) = Some what ->
  generate_one e vector_size (Z.of_nat k)
    (mkCalc (rows ++ replicate (n - k) []) ss out)
  = Throws what out.
Proof.
  intros Hrows Hk Hcall. unfold generate_one. cbn [vectors sums cout].
  replace (n - k)%nat with (S (n - S k)) by lia. cbn [replicate].
  rewrite (at_index_Done _ _ []);
    [|lia|by rewrite Nat2Z.id, <- Hrows; apply list_lookup_middle].
  rewrite bind_Done, Nat2Z.id. by erewrite resize_Throws.
Qed.

(** [k] turns of the outer loop of the generator. *)
Lemma generate_loop (n k : nat) ss out :
  (k <= n)%nat -> (forall j, (j < k)%nat -> alloc e (S j) = None) ->
  for_each (generate_one e vector_size) (seqZ 0 (Z.of_nat k))
    (mkCalc (replicate n []) ss out)
  = Done (mkCalc ((generated_vector e vector_size <$> seqZ 0 (Z.of_nat k))
                    ++ replicate (n - k) []) ss out).
Proof.
  induction k as [|k IH]; intros Hk Halloc.
  - rewrite seqZ_nil by lia. cbn. by rewrite Nat.sub_0_r.
  - rewrite seqZ_S, for_each_app, IH, bind_Done by (try lia; auto with lia).
    cbn [for_each]. rewrite Z.add_0_l.
    rewrite (generate_one_Done n k);
      [|by rewrite length_fmap, length_seqZ, Nat2Z.id|lia|apply Halloc; lia].
    rewrite bind_Done, fmap_app. done.
Qed.

End Generator.

Section GenerateVectors.

Variable e : env.
Variables num_vectors vector_size min_val max_val : Z.
Hypothesis num_vectors_int : 0 <= num_vectors <= INT_MAX.
Hypothesis vector_size_int : 0 <= vector_size <= INT_MAX.
Hypothesis range_ok : min_val <= max_val.

Variable c : VectorSumCalculator.
Hypothesis c_fresh : sums c = [].

(** The generator returns when no allocation fails. *)
Lemma generateVectors_Done :
  (forall call, (call <= S (Z.to_nat num_vectors))%nat -> alloc e call = None) ->
  generateVectors num_vectors vector_size min_val max_val e c
  = Done (mkCalc (generated_dataset e num_vectors vector_size)
            (replicate (Z.to_nat num_vectors) 0) (cout c)).
Proof.
  intros Halloc. unfold generateVectors.
  rewrite resize_empty, bind_Done by (auto with lia).
  destruct (Z.ltb_spec max_val min_val); [lia|].
  pose proof (generate_loop e vector_size vector_size_int
                (Z.to_nat num_vectors) (Z.to_nat num_vectors) (sums c) (cout c)
                ltac:(lia)) as Hloop.
  rewrite Z2Nat.id, Nat.sub_diag, app_nil_r in Hloop by lia.
  rewrite Hloop, bind_Done by (intros j Hj; apply Halloc; lia).
  cbn [vectors sums cout]. rewrite c_fresh, resize_empty by (auto with lia).
  done.
Qed.

(** The first allocation that fails ends the generator, with its
    [what()] and nothing more printed. *)
Lemma generateVectors_Throws (call : nat) (what : string) :
  (call <= S (Z.to_nat num_vectors))%nat ->
  alloc e call = Some what ->
  (forall call', (call' < call)%nat -> alloc e call' = None) ->
  generateVectors num_vectors vector_size min_val max_val e c
  = Throws what (cout c).
Proof.
  intros Hcall Hfail Hbefore. unfold generateVectors.
  destruct call as [|i].
  { by erewrite resize_Throws. }
  rewrite resize_empty, bind_Done by (auto with lia).
  destruct (Z.ltb_spec max_val min_val); [lia|].
  destruct (decide (i < Z.to_nat num_vectors)%nat) as [Hi|Hi].
  - replace num_vectors with (Z.of_nat i + (num_vectors - Z.of_nat i)) at 1 by lia.
    rewrite seqZ_app, for_each_app by lia.
    rewrite (generate_loop e vector_size vector_size_int (Z.to_nat num_vectors) i)
      by (try lia; intros j Hj; apply Hbefore; lia).
    rewrite bind_Done, Z.add_0_l, seqZ_cons by lia. cbn [for_each].
    erewrite (generate_one_Throws e vector_size (Z.to_nat num_vectors) i);
      [done | by rewrite length_fmap, length_seqZ, Nat2Z.id | done | done].
  - assert (i = Z.to_nat num_vectors) as -> by lia.
    pose proof (generate_loop e vector_size vector_size_int
                  (Z.to_nat num_vectors) (Z.to_nat num_vectors) (sums c) (cout c)
                  ltac:(lia)) as Hloop.
    rewrite Z2Nat.id, Nat.sub_diag, app_nil_r in Hloop by lia.
    rewrite Hloop, bind_Done by (intros j Hj; apply Hbefore; lia).
    cbn [vectors sums cout]. by erewrite resize_Throws.
Qed.

End GenerateVectors.

(** Every vector generated has [vector_size] elements, each a value drawn. *)
Lemma generated_dataset_bounded e num_vectors vector_size B :
  0 <= vector_size ->
  (forall k, - B <= gen_draw e k <= B) ->
  size (generated_dataset e num_vectors vector_size) = Z.max 0 num_vectors /\
  Forall (fun v => size v = vector_size /\ bounded B v)
    (generated_dataset e num_vectors vector_size).
Proof.
  intros Hsz Hdraw. unfold generated_dataset, size. rewrite length_fmap, length_seqZ.
  split; [lia|]. apply Forall_fmap, Forall_forall. intros i _. cbn.
  unfold generated_vector, size. rewrite length_fmap, length_seqZ.
  split; [lia|]. apply Forall_fmap, Forall_forall. intros j _. cbn. apply Hdraw.
Qed.

(** ** The trials *)

Lemma trial_Done e (k : nat) w c times :
  sized c -> 1 <= size (vectors c) <= INT_MAX -> 1 <= w <= INT_MAX ->
  (forall t : nat, 0 <= val_draw e k t < size (vectors c)) ->
  trial e (k, w) (c, times)
  = Done (mkCalc (vectors c) (sum_vector <$> vectors c)
            (cout c ++ trial_lines e (size (vectors c)) k w),
          times ++ [Qmake (elapsed e k) 1000]).
Proof.
  intros Hc Hn Hw Hdraw. unfold trial.
  set (c0 := fill_zero (print (LTrial w) c)).
  assert (Hc0 : sized c0).
  { unfold sized, c0. cbn. rewrite length_replicate. exact Hc. }
  rewrite (measureExecutionTime_spec c0) by (done || (cbn; lia)).
  rewrite bind_Done. cbn [fst snd vectors c0 fill_zero print cout].
  set (cm := mkCalc _ _ _).
  assert (Hcm : sized cm) by (unfold sized, cm; cbn; by rewrite length_fmap).
  unfold finish_trial, validateResults.
  rewrite (validate_bound_nonempty cm) by (cbn; lia).
  destruct (Z.ltb_spec (size (vectors cm) - 1) 0); [cbn in *; lia|].
  destruct (validate_loop_spec cm (val_draw e k) Hcm (seq 0 10))
    as [[_ Hrun]|(before & t & after & _ & _ & Hbad & _)].
  - apply Forall_forall. intros t _. apply Hdraw.
  - rewrite Hrun, bind_Done. unfold cm, print, trial_lines. cbn [vectors sums cout].
    rewrite <- !app_assoc. done.
  - exfalso. apply Hbad. unfold sample_matches, cm. cbn [vectors sums].
    by rewrite list_lookup_fmap.
Qed.

Lemma trials_Done e tcs : forall (k0 : nat) c times,
  sized c -> 1 <= size (vectors c) <= INT_MAX ->
  Forall (fun w => 1 <= w <= INT_MAX) tcs ->
  (forall (k t : nat), 0 <= val_draw e k t < size (vectors c)) ->
  exists c' times',
    for_each (trial e) (zip (seq k0 (length tcs)) tcs) (c, times) = Done (c', times') /\
    vectors c' = vectors c /\ sized c' /\
    length times' = (length times + length tcs)%nat.
Proof.
  induction tcs as [|w tcs IH]; intros k0 c times Hc Hn Hws Hdraw.
  - exists c, times. cbn. split; [done|]. split; [done|]. split; [done|lia].
  - apply Forall_cons_1 in Hws as [Hw Hws]. cbn [length seq zip zip_with for_each].
    rewrite trial_Done, bind_Done by done.
    set (c1 := mkCalc _ _ _).
    destruct (IH (S k0) c1 (times ++ [Qmake (elapsed e k0) 1000]))
      as (c' & times' & Hrun & Hvs & Hc' & Hlen);
      [by unfold sized, c1; cbn; rewrite length_fmap | done | done | done |].
    exists c', times'. split; [exact Hrun|]. split; [done|]. split; [done|].
    rewrite Hlen, length_app. cbn. lia.
Qed.

Lemma run_trials_last e tcs w c :
  run_trials e (tcs ++ [w]) c = s ← run_trials e tcs c; trial e (length tcs, w) s.
Proof.
  unfold run_trials. rewrite length_app. cbn [length].
  rewrite Nat.add_1_r, seq_S.
  rewrite zip_with_app by apply length_seq.
  rewrite for_each_app.
  destruct (for_each (trial e) _ (c, [])) as [s| |]; [|done|done].
  rewrite !bind_Done. cbn [zip_with for_each Nat.add].
  by destruct (trial e (length tcs, w) s).
Qed.

(** ** The table and the statistics *)

Lemma table_Done tcs times c (k : nat) :
  (k <= length tcs)%nat -> (k <= length times)%nat ->
  exists rows,
    for_each (table_row tcs times) (seqZ 0 (Z.of_nat k)) c
    = Done (mkCalc (vectors c) (sums c) (cout c ++ rows)).
Proof.
  induction k as [|k IH]; intros H1 H2.
  - exists []. rewrite seqZ_nil by lia. cbn. rewrite app_nil_r. by destruct c.
  - destruct IH as [rows Hrows]; [lia|lia|].
    rewrite seqZ_S, for_each_app, Hrows, bind_Done. cbn [for_each]. unfold table_row.
    destruct (at_index_in_bounds tcs (0 + Z.of_nat k)) as (n & _ & ->); [unfold size; lia|].
    destruct (at_index_in_bounds times (0 + Z.of_nat k)) as (t & _ & ->); [unfold size; lia|].
    rewrite !bind_Done. unfold print. cbn [vectors sums cout]. rewrite <- app_assoc.
    by eexists.
Qed.

Lemma fold_min_spec v : forall a,
  (fold_left Z.min v a = a \/ fold_left Z.min v a ∈ v) /\
  fold_left Z.min v a <= a /\ forall x, x ∈ v -> fold_left Z.min v a <= x.
Proof.
  induction v as [|y v IH]; intros a; cbn [fold_left].
  - split; [by left|]. split; [lia|]. intros x Hx. by apply elem_of_nil in Hx.
  - destruct (IH (Z.min a y)) as (Hin & Hle & Hall). split; [|split; [lia|]].
    + destruct Hin as [->|Hin]; [|right; by apply list_elem_of_further].
      destruct (Z.min_spec a y) as [[_ ->]|[_ ->]]; [by left|right; apply list_elem_of_here].
    + intros x Hx. apply elem_of_cons in Hx as [->|Hx]; [lia|by apply Hall].
Qed.

Lemma fold_max_spec v : forall a,
  (fold_left Z.max v a = a \/ fold_left Z.max v a ∈ v) /\
  a <= fold_left Z.max v a /\ forall x, x ∈ v -> x <= fold_left Z.max v a.
Proof.
  induction v as [|y v IH]; intros a; cbn [fold_left].
  - split; [by left|]. split; [lia|]. intros x Hx. by apply elem_of_nil in Hx.
  - destruct (IH (Z.max a y)) as (Hin & Hle & Hall). split; [|split; [lia|]].
    + destruct Hin as [->|Hin]; [|right; by apply list_elem_of_further].
      destruct (Z.max_spec a y) as [[_ ->]|[_ ->]]; [right; apply list_elem_of_here|by left].
    + intros x Hx. apply elem_of_cons in Hx as [->|Hx]; [lia|by apply Hall].
Qed.

Lemma min_element_spec v : v <> [] -> exists m, min_element v = Done m /\ is_min m v.
Proof.
  destruct v as [|a v]; [done|]. intros _. eexists. split; [done|].
  destruct (fold_min_spec v a) as (Hin & Hle & Hall). split.
  - destruct Hin as [->|Hin]; [apply list_elem_of_here|by apply list_elem_of_further].
  - intros x Hx. apply elem_of_cons in Hx as [->|Hx]; [done|by apply Hall].
Qed.

Lemma max_element_spec v : v <> [] -> exists M, max_element v = Done M /\ is_max M v.
Proof.
  destruct v as [|a v]; [done|]. intros _. eexists. split; [done|].
  destruct (fold_max_spec v a) as (Hin & Hle & Hall). split.
  - destruct Hin as [->|Hin]; [apply list_elem_of_here|by apply list_elem_of_further].
  - intros x Hx. apply elem_of_cons in Hx as [->|Hx]; [done|by apply Hall].
Qed.

Lemma print_vectors_Done c (k : nat) :
  (k <= length (sums c))%nat ->
  for_each print_vector (seqZ 0 (Z.of_nat k)) c
  = Done (mkCalc (vectors c) (sums c)
            (cout c ++ ((fun i => LVector i (sums c !!! Z.to_nat i)) <$> seqZ 0 (Z.of_nat k)))).
Proof.
  induction k as [|k IH]; intros Hk.
  - rewrite seqZ_nil by lia. cbn. rewrite app_nil_r. by destruct c.
  - rewrite seqZ_S, for_each_app, IH, bind_Done by lia. cbn [for_each].
    unfold print_vector. cbn [sums].
    destruct (at_index_in_bounds (sums c) (0 + Z.of_nat k)) as (s & Hs & ->);
      [unfold size; lia|].
    rewrite !bind_Done. unfold print. cbn [vectors sums cout].
    rewrite fmap_app, <- app_assoc. cbn [fmap list_fmap].
    by rewrite (list_lookup_total_correct _ _ _ Hs).
Qed.

Lemma statistics_Done c :
  1 <= size (sums c) <= INT_MAX ->
  exists m M,
    statistics c
    = Done (mkCalc (vectors c) (sums c)
              (cout c ++ statistics_lines m M (avg_sum (sums c)) (sums c))) /\
    is_min m (sums c) /\ is_max M (sums c).
Proof.
  intros Hn. unfold statistics. cbn [print sums vectors cout].
  assert (Hne : sums c <> []).
  { intros Heq. rewrite Heq in Hn. unfold size in Hn. cbn [length] in Hn. lia. }
  destruct (min_element_spec _ Hne) as (m & -> & Hm).
  destruct (max_element_spec _ Hne) as (M & -> & HM).
  exists m, M. rewrite !bind_Done. split; [|done].
  rewrite int_of_id by (unfold is_int, INT_MIN, INT_MAX in *; lia).
  pose proof (print_vectors_Done
                (mkCalc (vectors c) (sums c)
                   (((((cout c ++ [LStatsTitle]) ++ [LMin m]) ++ [LMax M])
                       ++ [LAvg (avg_sum (sums c))]) ++ [LFirstTitle]))
                (Z.to_nat (Z.min 10 (size (sums c))))) as Hloop.
  rewrite Z2Nat.id in Hloop by lia. cbn [vectors sums cout] in Hloop.
  unfold print. cbn [vectors sums cout].
  rewrite Hloop by (unfold size in *; lia).
  unfold statistics_lines. do 2 f_equal. rewrite <- !app_assoc. done.
Qed.

(** The sums of a generated dataset whose values are at most [B] in
    absolute value. *)
Lemma generated_sums_bounded e num_vectors vector_size B :
  0 <= B -> 0 <= vector_size -> B * vector_size <= LLONG_MAX ->
  (forall k, - B <= gen_draw e k <= B) ->
  bounded (B * vector_size) (sum_vector <$> generated_dataset e num_vectors vector_size).
Proof.
  intros HB Hsz Hmax Hdraw.
  destruct (generated_dataset_bounded e num_vectors vector_size B Hsz Hdraw) as [_ Hall].
  unfold bounded. apply Forall_fmap. eapply Forall_impl; [exact Hall|].
  intros v [Hlen Hv]. cbn.
  rewrite (sum_vector_exact B HB v Hv) by (by rewrite Hlen).
  pose proof (exact_sum_bounded B v Hv) as Habs. rewrite Hlen in Habs. lia.
Qed.

(** ** The whole run *)

Section Benchmark.

Variable e : env.
Variables num_vectors vector_size min_val max_val : Z.
Hypothesis num_vectors_int : 1 <= num_vectors <= INT_MAX.
Hypothesis vector_size_int : 0 <= vector_size <= INT_MAX.
Hypothesis range_ok : min_val <= max_val.
Hypothesis val_draw_ok : forall k t : nat, 0 <= val_draw e k t < num_vectors.

Variable thread_counts : list Z.
Variable last_count : Z.
Hypothesis thread_counts_ok :
  Forall (fun w => 1 <= w <= INT_MAX) (thread_counts ++ [last_count]).

Local Abbreviation start := (generated e num_vectors vector_size).

Lemma generated_size : size (vectors start) = num_vectors.
Proof.
  unfold generated, generated_dataset, size. cbn [vectors print].
  rewrite length_fmap, length_seqZ. lia.
Qed.

Lemma generated_sized : sized start.
Proof.
  unfold generated, generated_dataset, sized. cbn [vectors sums print].
  by rewrite length_replicate, length_fmap, length_seqZ.
Qed.

(** The run returns when no allocation fails. *)
Lemma benchmark_Done :
  (forall call, (call <= S (Z.to_nat num_vectors))%nat -> alloc e call = None) ->
  exists c2 times m M rows,
    run_trials e thread_counts start = Done (c2, times) /\
    vectors c2 = vectors start /\ sized c2 /\
    trial e (length thread_counts, last_count) (c2, times)
    = Done (mkCalc (vectors start) (sum_vector <$> vectors start)
              (cout c2 ++ trial_lines e num_vectors (length thread_counts) last_count),
            times ++ [Qmake (elapsed e (length thread_counts)) 1000]) /\
    benchmark num_vectors vector_size min_val max_val
      (thread_counts ++ [last_count]) e calculator
    = Done (mkCalc (vectors start) (sum_vector <$> vectors start)
              ((cout c2 ++ trial_lines e num_vectors (length thread_counts) last_count)
                 ++ [LTableTitle; LTableHeader] ++ rows
                 ++ statistics_lines m M (avg_sum (sum_vector <$> vectors start))
                      (sum_vector <$> vectors start))) /\
    is_min m (sum_vector <$> vectors start) /\
    is_max M (sum_vector <$> vectors start).
Proof.
  intros Halloc.
  apply Forall_app in thread_counts_ok as [Hws Hw]. apply Forall_cons_1 in Hw as [Hw _].
  pose proof generated_size as Hsize. pose proof generated_sized as Hsized.
  destruct (trials_Done e thread_counts 0 start [])
    as (c2 & times & Hrun & Hvs & Hc2 & Hlen);
    [done | lia | done | by rewrite Hsize |].
  fold (run_trials e thread_counts start) in Hrun.
  assert (Hn2 : size (vectors c2) = num_vectors) by (by rewrite Hvs).
  pose proof (trial_Done e (length thread_counts) last_count c2 times Hc2
                ltac:(lia) Hw ltac:(by rewrite Hn2)) as Htrial.
  rewrite Hvs, Hsize in Htrial.
  set (c3 := mkCalc _ _ _) in Htrial.
  destruct (table_Done (thread_counts ++ [last_count])
              (times ++ [Qmake (elapsed e (length thread_counts)) 1000])
              (print LTableHeader (print LTableTitle c3))
              (length (thread_counts ++ [last_count])))
    as [rows Hrows]; [lia | rewrite !length_app, Hlen; cbn; lia |].
  destruct (statistics_Done
              (mkCalc (vectors c3) (sums c3)
                 (cout (print LTableHeader (print LTableTitle c3)) ++ rows)))
    as (m & M & Hstats & Hm & HM).
  { cbn [sums c3]. unfold size. rewrite length_fmap. fold (size (vectors start)). lia. }
  exists c2, times, m, M, rows.
  split; [done|]. split; [done|]. split; [done|]. split; [done|].
  split; [|done].
  unfold benchmark.
  rewrite (generateVectors_Done e num_vectors vector_size min_val max_val)
    by (done || lia).
  rewrite bind_Done. change (print LGenerated _) with start.
  rewrite run_trials_last, Hrun, bind_Done, Htrial, bind_Done.
  unfold size at 1. rewrite Hrows, bind_Done.
  cbn [vectors sums c3 print] in *. rewrite Hstats.
  unfold print, c3. cbn [cout]. rewrite <- !app_assoc. done.
Qed.

(** The first allocation that fails ends the run. *)
Lemma benchmark_Throws (call : nat) (what : string) :
  (call <= S (Z.to_nat num_vectors))%nat ->
  alloc e call = Some what ->
  (forall call', (call' < call)%nat -> alloc e call' = None) ->
  benchmark num_vectors vector_size min_val max_val
    (thread_counts ++ [last_count]) e calculator
  = Throws what [LTitle; LParameters; LValueRange; LGenerating].
Proof.
  intros Hcall Hfail Hbefore. unfold benchmark.
  by rewrite (generateVectors_Throws e num_vectors vector_size min_val max_val
                ltac:(lia) vector_size_int range_ok (print_header calculator)
                call what Hcall Hfail Hbefore).
Qed.

(** The values drawn are at most [B] in absolute value, and the total
    of the results fits in 64 bits. *)
Variable B : Z.
Hypothesis B_nonneg : 0 <= B.
Hypothesis gen_draw_ok : forall k, - B <= gen_draw e k <= B.
Hypothesis no_overflow : B * vector_size * num_vectors <= LLONG_MAX.

(** The statistics are those of the results of the last parallel phase. *)
Lemma benchmark_summary :
  (forall call, (call <= S (Z.to_nat num_vectors))%nat -> alloc e call = None) ->
  exists g c2 times c4 final m M printed,
    generateVectors num_vectors vector_size min_val max_val e (print_header calculator)
    = Done g /\
    run_trials e thread_counts (print LGenerated g) = Done (c2, times) /\
    measureExecutionTime last_count (elapsed e (length thread_counts))
      (fill_zero (print (LTrial last_count) c2))
    = Done (Qmake (elapsed e (length thread_counts)) 1000, c4) /\
    benchmark num_vectors vector_size min_val max_val
      (thread_counts ++ [last_count]) e calculator = Done final /\
    sums final = sums c4 /\
    size (sums c4) = num_vectors /\
    cout final
    = printed ++ statistics_lines m M
                   (Qmake (exact_sum (sums c4)) (Z.to_pos num_vectors)) (sums c4) /\
    is_min m (sums c4) /\ is_max M (sums c4) /\
    Qeq (Qmake (exact_sum (sums c4)) (Z.to_pos num_vectors))
        (inject_Z (exact_sum (sums c4)) / inject_Z (size (sums c4))).
Proof.
  intros Halloc.
  destruct (benchmark_Done Halloc)
    as (c2 & times & m & M & rows & Hrun & Hv2 & Hc2 & _ & Hbench & Hm & HM).
  pose proof generated_size as Hsize.
  pose proof thread_counts_ok as Hws.
  apply Forall_app in Hws as [_ Hw]. apply Forall_cons_1 in Hw as [Hw _].
  remember (vectors start) as ds eqn:Hds.
  remember (sum_vector <$> ds) as ss eqn:Hss.
  assert (Hlen : size ss = num_vectors).
  { rewrite Hss. unfold size. rewrite length_fmap. exact Hsize. }
  assert (Hbnd : bounded (B * vector_size) ss).
  { rewrite Hss, Hds. apply generated_sums_bounded; [done | lia | nia | done]. }
  assert (Htotal : total_sum ss = exact_sum ss).
  { apply (sum_vector_exact (B * vector_size)); [nia | done | by rewrite Hlen]. }
  assert (Havg : avg_sum ss = Qmake (exact_sum ss) (Z.to_pos num_vectors)).
  { unfold avg_sum. by rewrite Htotal, Hlen. }
  eexists _, c2, times, (mkCalc ds ss _), _, m, M, _.
  split.
  { apply generateVectors_Done; [lia | done | done | done | done]. }
  split; [exact Hrun|].
  split.
  { rewrite measureExecutionTime_spec.
    - cbn [vectors fill_zero print]. rewrite Hv2, <- Hss. reflexivity.
    - unfold sized. cbn [vectors sums fill_zero print]. rewrite length_replicate.
      exact Hc2.
    - cbn [vectors fill_zero print]. rewrite Hv2, Hsize. lia.
    - exact Hw. }
  split; [exact Hbench|]. cbn [sums cout].
  split; [reflexivity|]. split; [exact Hlen|].
  split; [rewrite Havg, !app_assoc; reflexivity|].
  split; [exact Hm|]. split; [exact HM|].
  rewrite Hlen.
  replace (inject_Z num_vectors) with (inject_Z (Z.pos (Z.to_pos num_vectors)))
    by (rewrite Z2Pos.id by lia; reflexivity).
  apply Qmake_Qdiv.
Qed.

End Benchmark.

(** Among the first [n + 1] allocations, either none fails or one is the
    first to fail. *)
Lemma first_failure (e : env) (n : nat) :
  (forall call, (call <= n)%nat -> alloc e call = None) \/
  (exists call what, (call <= n)%nat /\ alloc e call = Some what /\
     forall call', (call' < call)%nat -> alloc e call' = None).
Proof.
  induction n as [|n IH].
  - destruct (alloc e 0) as [what|] eqn:H0.
    + right. exists 0%nat, what. split; [lia|]. split; [done|]. intros ? ?. lia.
    + left. intros call Hc. by replace call with 0%nat by lia.
  - destruct IH as [Hnone|Hsome].
    + destruct (alloc e (S n)) as [what|] eqn:Hn.
      * right. exists (S n), what. split; [lia|]. split; [done|].
        intros call' Hc. apply Hnone. lia.
      * left. intros call Hc. destruct (decide (call = S n)) as [->|]; [done|].
        apply Hnone. lia.
    + right. destruct Hsome as (call & what & Hc & Hf & Hb).
      exists call, what. split; [lia|done].
Qed.

(** C7. When the run completes, the statistics printed after the table
    are the minimum, the maximum and the mean of the results left by the
    parallel phase of the last trial (4 threads): the mean is the exact sum
    of these 30000 results divided by 30000, as a fraction; then come the
    first 10 of these results.  Nothing of the earlier trials enters
    them. *)
Theorem summary_reflects_last_trial (e : env) :
  (forall call, alloc e call = None) ->
  (forall k, -1000 <= gen_draw e k <= 1000) ->
  (forall k t, 0 <= val_draw e k t <= 29999) ->
  exists g c2 times c4 final m M printed,
    generateVectors 30000 100 (-1000) 1000 e (print_header calculator) = Done g /\
    run_trials e [1; 2] (print LGenerated g) = Done (c2, times) /\
    measureExecutionTime 4 (elapsed e 2) (fill_zero (print (LTrial 4) c2))
    = Done (Qmake (elapsed e 2) 1000, c4) /\
    runBenchmark e calculator = Done final /\
    sums final = sums c4 /\
    size (sums c4) = 30000 /\
    cout final
    = printed ++ statistics_lines m M (Qmake (exact_sum (sums c4)) 30000) (sums c4) /\
    is_min m (sums c4) /\ is_max M (sums c4) /\
    Qeq (Qmake (exact_sum (sums c4)) 30000)
        (inject_Z (exact_sum (sums c4)) / inject_Z (size (sums c4))).
Proof.
  intros Halloc Hgen Hval.
  assert (Hnv : 1 <= 30000 <= INT_MAX) by (unfold INT_MAX; lia).
  assert (Hvs : 0 <= 100 <= INT_MAX) by (unfold INT_MAX; lia).
  assert (Hws : Forall (fun w => 1 <= w <= INT_MAX) ([1; 2] ++ [4])).
  { repeat constructor; unfold INT_MAX; lia. }
  assert (Hval' : forall k t : nat, 0 <= val_draw e k t < 30000).
  { intros k t. specialize (Hval k t). lia. }
  assert (Hmax : 1000 * 100 * 30000 <= LLONG_MAX) by (unfold LLONG_MAX; lia).
  exact (benchmark_summary e 30000 100 (-1000) 1000 Hnv Hvs ltac:(lia) Hval'
           [1; 2] 4 Hws 1000 ltac:(lia) Hgen Hmax (fun call _ => Halloc call)).
Qed.

Lemma summary_reflects_last_trial_witness :
  (forall call, alloc sample_env call = None) /\
  (forall k, -1000 <= gen_draw sample_env k <= 1000) /\
  (forall k t, 0 <= val_draw sample_env k t <= 29999) /\
  exists g c2 times c4 final m M printed,
    generateVectors 30000 100 (-1000) 1000 sample_env (print_header calculator) = Done g /\
    run_trials sample_env [1; 2] (print LGenerated g) = Done (c2, times) /\
    measureExecutionTime 4 (elapsed sample_env 2) (fill_zero (print (LTrial 4) c2))
    = Done (Qmake (elapsed sample_env 2) 1000, c4) /\
    runBenchmark sample_env calculator = Done final /\
    sums final = sums c4 /\
    size (sums c4) = 30000 /\
    cout final
    = printed ++ statistics_lines m M (Qmake (exact_sum (sums c4)) 30000) (sums c4) /\
    is_min m (sums c4) /\ is_max M (sums c4) /\
    Qeq (Qmake (exact_sum (sums c4)) 30000)
        (inject_Z (exact_sum (sums c4)) / inject_Z (size (sums c4))).
Proof.
  assert (H1 : forall call, alloc sample_env call = None) by reflexivity.
  assert (H2 : forall k, -1000 <= gen_draw sample_env k <= 1000).
  { intros k. cbn [gen_draw sample_env].
    pose proof (Z.mod_pos_bound (Z.of_nat k) 2001 ltac:(lia)). lia. }
  assert (H3 : forall k t, 0 <= val_draw sample_env k t <= 29999).
  { intros k t. cbn [val_draw sample_env].
    pose proof (Z.mod_pos_bound (Z.of_nat t) 30000 ltac:(lia)). lia. }
  split; [exact H1|]. split; [exact H2|]. split; [exact H3|].
  exact (summary_reflects_last_trial sample_env H1 H2 H3).
Defined.

(** C8. When the validator draws its indices in the dataset, the process
    ends with code 0 and nothing on the error stream if no allocation of
    the generator fails, and with code 1 and, on the error stream, the
    message of the exception if one fails: [main] returns 0 exactly when
    [runBenchmark] returns and 1 exactly when an exception leaves it. *)
Theorem main_exit_code (e : env) :
  (forall k t, 0 <= val_draw e k t <= 29999) ->
  exists p, main e = Some p /\
    ((exit_code p = 0 /\ stderr p = [] /\
      (forall call : nat, Z.of_nat call <= 30001 -> alloc e call = None) /\
      exists c, runBenchmark e calculator = Done c /\ stdout p = cout c)
     \/
     (exit_code p = 1 /\
      exists (call : nat) what printed,
        Z.of_nat call <= 30001 /\ alloc e call = Some what /\
        (forall call', (call' < call)%nat -> alloc e call' = None) /\
        runBenchmark e calculator = Throws what printed /\
        stderr p = [LError what] /\ stdout p = printed)).
Proof.
  intros Hval.
  assert (Hnv : 1 <= 30000 <= INT_MAX) by (unfold INT_MAX; lia).
  assert (Hvs : 0 <= 100 <= INT_MAX) by (unfold INT_MAX; lia).
  assert (Hws : Forall (fun w => 1 <= w <= INT_MAX) ([1; 2] ++ [4])).
  { repeat constructor; unfold INT_MAX; lia. }
  assert (Hval' : forall k t : nat, 0 <= val_draw e k t < 30000).
  { intros k t. specialize (Hval k t). lia. }
  destruct (first_failure e (S (Z.to_nat 30000)))
    as [Hnone|(call & what & Hcall & Hfail & Hbefore)].
  - destruct (benchmark_Done e 30000 100 (-1000) 1000 Hnv Hvs ltac:(lia) Hval'
                [1; 2] 4 Hws Hnone)
      as (c2 & times & m & M & rows & _ & _ & _ & _ & Hbench & _).
    change (benchmark 30000 100 (-1000) 1000 ([1; 2] ++ [4]) e calculator)
      with (runBenchmark e calculator) in Hbench.
    eexists. unfold main. rewrite Hbench. split; [reflexivity|]. left.
    cbn [exit_code stderr stdout].
    split; [reflexivity|]. split; [reflexivity|].
    split; [intros call' Hc; apply Hnone; lia|].
    eexists. split; reflexivity.
  - pose proof (benchmark_Throws e 30000 100 (-1000) 1000 Hnv Hvs ltac:(lia)
                  [1; 2] 4 call what Hcall Hfail Hbefore) as Hbench.
    change (benchmark 30000 100 (-1000) 1000 ([1; 2] ++ [4]) e calculator)
      with (runBenchmark e calculator) in Hbench.
    eexists. unfold main. rewrite Hbench. split; [reflexivity|]. right.
    cbn [exit_code stderr stdout].
    split; [reflexivity|]. exists call, what. eexists.
    split; [lia|]. split; [exact Hfail|]. split; [exact Hbefore|].
    split; [reflexivity|]. split; reflexivity.
Qed.

Lemma main_exit_code_witness :
  (forall k t, 0 <= val_draw failing_env k t <= 29999) /\
  exists p, main failing_env = Some p /\
    ((exit_code p = 0 /\ stderr p = [] /\
      (forall call : nat, Z.of_nat call <= 30001 -> alloc failing_env call = None) /\
      exists c, runBenchmark failing_env calculator = Done c /\ stdout p = cout c)
     \/
     (exit_code p = 1 /\
      exists (call : nat) what printed,
        Z.of_nat call <= 30001 /\ alloc failing_env call = Some what /\
        (forall call', (call' < call)%nat -> alloc failing_env call' = None) /\
        runBenchmark failing_env calculator = Throws what printed /\
        stderr p = [LError what] /\ stdout p = printed)).
Proof.
  assert (H : forall k t, 0 <= val_draw failing_env k t <= 29999).
  { intros k t. cbn [val_draw failing_env].
    pose proof (Z.mod_pos_bound (Z.of_nat t) 30000 ltac:(lia)). lia. }
  split; [exact H|]. exact (main_exit_code failing_env H).
Defined.

(** ** Scenarios *)

(** Two vectors, two threads: the ranges are [0, 1) and [1, 2), the
    results are 6 and 15. *)
Example scenario_two_vectors :
  thread_launches 2 2 = Done [mkLaunch 0 1 1; mkLaunch 1 2 2] /\
  measureExecutionTime 2 1500 two_vectors
  = Done (Qmake 1500 1000,
          mkCalc [[1; 2; 3]; [4; 5; 6]] [6; 15] [LWorker 1 0 0; LWorker 2 1 1]).
Proof. split; reflexivity. Qed.

(** The extreme vectors: the results are -100000 and 100000, their
    minimum, maximum and mean are -100000, 100000 and 0. *)
Example scenario_extremes :
  sum_vector (replicate 100 (-1000)) = -100000 /\
  sum_vector (replicate 100 1000) = 100000 /\
  min_element [-100000; 100000] = Done (-100000) /\
  max_element [-100000; 100000] = Done 100000 /\
  Qeq (avg_sum [-100000; 100000]) 0.
Proof. repeat split; vm_compute; reflexivity. Qed.

(** A complete run on three vectors of two elements. *)
Example scenario_small_run :
  benchmark 3 2 (-1000) 1000 [1; 2; 4]
    (mkEnv (fun _ => None) (fun k => Z.of_nat k) (fun _ _ => 0) (fun k => 1500 + Z.of_nat k))
    calculator
  = Done (mkCalc [[0; 1]; [2; 3]; [4; 5]] [1; 5; 9]
            [LTitle; LParameters; LValueRange; LGenerating; LGenerated;
             LTrial 1; LWorker 1 0 2; LCorrect; LTime (Qmake 1500 1000);
             LTrial 2; LWorker 1 0 1; LWorker 2 2 2; LCorrect; LTime (Qmake 1501 1000);
             LTrial 4; LWorker 1 0 0; LWorker 2 1 1; LWorker 3 2 2; LWorker 4 3 2;
             LCorrect; LTime (Qmake 1502 1000);
             LTableTitle; LTableHeader;
             LTableRow 1 (Qmake 1500 1000); LTableRow 2 (Qmake 1501 1000);
             LTableRow 4 (Qmake 1502 1000);
             LStatsTitle; LMin 1; LMax 9; LAvg (Qmake 15 3); LFirstTitle;
             LVector 0 1; LVector 1 5; LVector 2 9]).
Proof. vm_compute. reflexivity. Qed.

(** The third allocation of the generator fails: exit code 1. *)
Example scenario_bad_alloc :
  main failing_env
  = Some (mkProcess 1 [LTitle; LParameters; LValueRange; LGenerating]
            [LError "std::bad_alloc"]).
Proof.
  unfold main.
  change (runBenchmark failing_env calculator)
    with (benchmark 30000 100 (-1000) 1000 ([1; 2] ++ [4]) failing_env calculator).
  rewrite (benchmark_Throws failing_env 30000 100 (-1000) 1000
             ltac:(unfold INT_MAX; lia) ltac:(unfold INT_MAX; lia) ltac:(lia)
             [1; 2] 4 2 "std::bad_alloc").
  - reflexivity.
  - lia.
  - reflexivity.
  - intros call' Hc. destruct call' as [|[|call']]; [reflexivity | reflexivity | lia].
Qed.

(** * Further properties of the code *)

(** ** The data generator *)

Lemma resize_Done {A} e call count (zero : A) v printed :
  alloc e call = None -> 0 <= count <= INT_MAX ->
  resize e call count zero v printed
  = Done (take (Z.to_nat count) v ++ replicate (Z.to_nat count - length v) zero).
Proof.
  intros Hcall Hcount. unfold resize. rewrite Hcall.
  by rewrite size_t_of_id by (unfold INT_MAX in *; lia).
Qed.

Lemma generated_dataset_lookup e num_vectors vector_size (i j : nat) :
  Z.of_nat i < num_vectors -> Z.of_nat j < vector_size ->
  exists v,
    generated_dataset e num_vectors vector_size !! i = Some v /\
    size v = vector_size /\
    v !! j = Some (gen_draw e (i * Z.to_nat vector_size + j)%nat).
Proof.
  intros Hi Hj. exists (generated_vector e vector_size (Z.of_nat i)).
  unfold generated_dataset. rewrite list_lookup_fmap, lookup_seqZ_lt by done.
  split; [done|]. unfold generated_vector, size.
  rewrite length_fmap, length_seqZ. split; [lia|].
  rewrite list_lookup_fmap, lookup_seqZ_lt by done. cbn. do 2 f_equal. nia.
Qed.

(** The generator on any calculator. *)
Lemma generateVectors_Done_any e num_vectors vector_size min_val max_val c :
  0 <= num_vectors <= INT_MAX -> 0 <= vector_size <= INT_MAX ->
  min_val <= max_val ->
  (forall call, (call <= S (Z.to_nat num_vectors))%nat -> alloc e call = None) ->
  generateVectors num_vectors vector_size min_val max_val e c
  = Done (mkCalc (generated_dataset e num_vectors vector_size)
            (take (Z.to_nat num_vectors) (sums c)
               ++ replicate (Z.to_nat num_vectors - length (sums c)) 0)
            (cout c)).
Proof.
  intros Hnv Hvs Hrange Halloc.
  pose proof (generate_loop e vector_size Hvs
                (Z.to_nat num_vectors) (Z.to_nat num_vectors) (sums c) (cout c)
                ltac:(lia)) as Hloop.
  rewrite Z2Nat.id, Nat.sub_diag, app_nil_r in Hloop by lia.
  unfold generateVectors.
  rewrite resize_empty, bind_Done by (auto with lia).
  destruct (Z.ltb_spec max_val min_val); [lia|].
  rewrite Hloop, bind_Done by (intros j Hj; apply Halloc; lia).
  cbn [vectors sums cout]. rewrite resize_Done by (auto with lia).
  rewrite bind_Done. reflexivity.
Qed.

Lemma generated_dataset_range e num_vectors vector_size min_val max_val :
  0 <= num_vectors -> 0 <= vector_size ->
  (forall k, min_val <= gen_draw e k <= max_val) ->
  size (generated_dataset e num_vectors vector_size) = num_vectors /\
  Forall (fun v => size v = vector_size /\ Forall (fun x => min_val <= x <= max_val) v)
    (generated_dataset e num_vectors vector_size).
Proof.
  intros Hnv Hvs Hdraw. unfold generated_dataset, size.
  rewrite length_fmap, length_seqZ. split; [lia|].
  apply Forall_fmap, Forall_forall. intros i _. cbn.
  unfold generated_vector, size. rewrite length_fmap, length_seqZ.
  split; [lia|]. apply Forall_fmap, Forall_forall. intros j _. cbn. apply Hdraw.
Qed.

(** X1. When no allocation fails, [generateVectors] returns, whatever the
    calculator held before: it prints nothing; the dataset has
    [num_vectors] vectors of [vector_size] elements; element [j] of vector
    [i] is the value of the call of rank [i * vector_size + j] to the
    distribution, hence lies in [[min_val, max_val]]; the results buffer
    has the size of the dataset: it keeps the values it had, cut or
    completed with zeros. *)
Theorem generateVectors_result (e : env) (num_vectors vector_size min_val max_val : Z)
    (c : VectorSumCalculator) :
  0 <= num_vectors <= INT_MAX -> 0 <= vector_size <= INT_MAX ->
  min_val <= max_val ->
  (forall call, (call <= S (Z.to_nat num_vectors))%nat -> alloc e call = None) ->
  (forall k, min_val <= gen_draw e k <= max_val) ->
  exists c',
    generateVectors num_vectors vector_size min_val max_val e c = Done c' /\
    cout c' = cout c /\
    size (vectors c') = num_vectors /\
    sized c' /\
    (forall i j : nat, Z.of_nat i < num_vectors -> Z.of_nat j < vector_size ->
       exists v, vectors c' !! i = Some v /\ size v = vector_size /\
         v !! j = Some (gen_draw e (i * Z.to_nat vector_size + j)%nat)) /\
    Forall (fun v => size v = vector_size /\ Forall (fun x => min_val <= x <= max_val) v)
      (vectors c') /\
    sums c' = take (Z.to_nat num_vectors) (sums c)
              ++ replicate (Z.to_nat num_vectors - length (sums c)) 0.
Proof.
  intros Hnv Hvs Hrange Halloc Hdraw.
  destruct (generated_dataset_range e num_vectors vector_size min_val max_val
              ltac:(lia) ltac:(lia) Hdraw) as [Hsize Hall].
  eexists. split; [by apply generateVectors_Done_any|].
  cbn [vectors sums cout]. split; [done|]. split; [exact Hsize|].
  split.
  { unfold sized, size in *. cbn [vectors sums].
    rewrite length_app, length_take, length_replicate. lia. }
  split; [intros i j Hi Hj; by apply generated_dataset_lookup|].
  split; [exact Hall|done].
Qed.

Lemma generateVectors_result_witness :
  0 <= 3 <= INT_MAX /\ 0 <= 2 <= INT_MAX /\ -1000 <= 1000 /\
  (forall call, (call <= S (Z.to_nat 3))%nat -> alloc sample_env call = None) /\
  (forall k, -1000 <= gen_draw sample_env k <= 1000) /\
  exists c',
    generateVectors 3 2 (-1000) 1000 sample_env two_vectors = Done c' /\
    cout c' = cout two_vectors /\
    size (vectors c') = 3 /\
    sized c' /\
    (forall i j : nat, Z.of_nat i < 3 -> Z.of_nat j < 2 ->
       exists v, vectors c' !! i = Some v /\ size v = 2 /\
         v !! j = Some (gen_draw sample_env (i * Z.to_nat 2 + j)%nat)) /\
    Forall (fun v => size v = 2 /\ Forall (fun x => -1000 <= x <= 1000) v)
      (vectors c') /\
    sums c' = take (Z.to_nat 3) (sums two_vectors)
              ++ replicate (Z.to_nat 3 - length (sums two_vectors)) 0.
Proof.
  assert (H1 : 0 <= 3 <= INT_MAX) by (unfold INT_MAX; lia).
  assert (H2 : 0 <= 2 <= INT_MAX) by (unfold INT_MAX; lia).
  assert (H3 : -1000 <= 1000) by lia.
  assert (H4 : forall call, (call <= S (Z.to_nat 3))%nat -> alloc sample_env call = None)
    by reflexivity.
  assert (H5 : forall k, -1000 <= gen_draw sample_env k <= 1000).
  { intros k. cbn [gen_draw sample_env].
    pose proof (Z.mod_pos_bound (Z.of_nat k) 2001 ltac:(lia)). lia. }
  repeat (split; [assumption|]).
  exact (generateVectors_result sample_env 3 2 (-1000) 1000 two_vectors H1 H2 H3 H4 H5).
Defined.

(** X2. The first allocation of [generateVectors] that fails, whether it
    is that of the dataset, of one of its vectors or of the results, ends
    it with the exception of that allocation; nothing is printed between
    the call and the throw. *)
Theorem generateVectors_first_failure (e : env)
    (num_vectors vector_size min_val max_val : Z) (c : VectorSumCalculator)
    (call : nat) (what : string) :
  0 <= num_vectors <= INT_MAX -> 0 <= vector_size <= INT_MAX ->
  min_val <= max_val ->
  (call <= S (Z.to_nat num_vectors))%nat ->
  alloc e call = Some what ->
  (forall call', (call' < call)%nat -> alloc e call' = None) ->
  generateVectors num_vectors vector_size min_val max_val e c = Throws what (cout c).
Proof.
  intros Hnv Hvs Hrange Hcall Hfail Hbefore.
  exact (generateVectors_Throws e num_vectors vector_size min_val max_val
           Hnv Hvs Hrange c call what Hcall Hfail Hbefore).
Qed.

Lemma generateVectors_first_failure_witness :
  0 <= 3 <= INT_MAX /\ 0 <= 2 <= INT_MAX /\ -1000 <= 1000 /\
  (2 <= S (Z.to_nat 3))%nat /\
  alloc failing_env 2 = Some "std::bad_alloc"%string /\
  (forall call', (call' < 2)%nat -> alloc failing_env call' = None) /\
  generateVectors 3 2 (-1000) 1000 failing_env two_vectors
  = Throws "std::bad_alloc" (cout two_vectors).
Proof.
  assert (H1 : 0 <= 3 <= INT_MAX) by (unfold INT_MAX; lia).
  assert (H2 : 0 <= 2 <= INT_MAX) by (unfold INT_MAX; lia).
  assert (H3 : -1000 <= 1000) by lia.
  assert (H4 : (2 <= S (Z.to_nat 3))%nat) by (cbn; lia).
  assert (H5 : alloc failing_env 2 = Some "std::bad_alloc"%string) by reflexivity.
  assert (H6 : forall call', (call' < 2)%nat -> alloc failing_env call' = None).
  { intros call' Hc. destruct call' as [|[|call']]; [reflexivity | reflexivity | lia]. }
  repeat (split; [assumption|]).
  exact (generateVectors_first_failure failing_env 3 2 (-1000) 1000 two_vectors 2
           "std::bad_alloc" H1 H2 H3 H4 H5 H6).
Defined.

(** ** The parallel phase at its edges *)

Lemma launch_loop_empty ids :
  Forall (fun i => 0 <= i) ids ->
  Forall (fun l => l_start l = 0 /\ l_end l = 0) (launch_loop ids 0 0 0).
Proof.
  induction ids as [|i ids IH]; intros Hids; cbn [launch_loop]; [constructor|].
  apply Forall_cons_1 in Hids as [Hi Hids].
  destruct (Z.ltb_spec i 0); [lia|].
  change (int_of (0 + 0)) with 0. constructor; [done|]. by apply IH.
Qed.

Lemma run_empty_launches ls : forall c,
  Forall (fun l => l_start l = 0 /\ l_end l = 0) ls ->
  for_each run_launch ls c
  = Done (mkCalc (vectors c) (sums c) (cout c ++ (worker_line <$> ls))).
Proof.
  induction ls as [|l ls IH]; intros c Hls.
  - cbn. rewrite app_nil_r. by destruct c.
  - apply Forall_cons_1 in Hls as [[Hs He] Hls]. cbn [for_each].
    change (run_launch l c) with (calculateSumsRange (l_start l) (l_end l) (l_id l) c).
    unfold calculateSumsRange.
    rewrite Hs, He, seqZ_nil by lia. cbn [for_each]. rewrite !bind_Done.
    rewrite IH by done. unfold print, worker_line. cbn [vectors sums cout fmap list_fmap].
    rewrite Hs, He, <- app_assoc. done.
Qed.

(** On an empty dataset the parallel phase, if it returns, leaves the
    dataset empty. *)
Lemma measure_empty_dataset w t c :
  vectors c = [] ->
  measureExecutionTime w t c = Undefined \/
  exists c', measureExecutionTime w t c = Done (Qmake t 1000, c') /\ vectors c' = [].
Proof.
  intros Hvs. unfold measureExecutionTime, thread_launches. rewrite Hvs.
  destruct (size_t_of w =? 0); [by left|]. right.
  unfold vectors_per_thread, remaining_vectors, size. cbn [length Z.of_nat].
  rewrite Zdiv_0_l, Zmod_0_l. change (int_of 0) with 0. rewrite bind_Done.
  rewrite run_empty_launches.
  - rewrite bind_Done. eexists. split; [done|]. done.
  - apply launch_loop_empty, Forall_forall. intros i Hi.
    apply elem_of_seqZ in Hi. lia.
Qed.

Lemma trial_empty_dataset e kn c times :
  vectors c = [] -> trial e kn (c, times) = Undefined.
Proof.
  intros Hvs. destruct kn as [k w]. unfold trial.
  destruct (measure_empty_dataset w (elapsed e k) (fill_zero (print (LTrial w) c)))
    as [->|(c' & -> & Hc')]; [done | done |].
  rewrite bind_Done. cbn [fst snd]. unfold finish_trial, validateResults, validate_bound.
  by rewrite Hc'.
Qed.

(** X3. With no vector to generate the run has no defined behaviour,
    whatever the list of thread counts: the validator of the first trial
    builds its distribution on the bounds 0 and -1, and with no trial at
    all the minimum is read from an empty range. *)
Theorem benchmark_without_vectors (e : env) (vector_size min_val max_val : Z)
    (thread_counts : list Z) :
  alloc e 0 = None -> alloc e 1 = None ->
  benchmark 0 vector_size min_val max_val thread_counts e calculator = Undefined.
Proof.
  intros H0 H1. unfold benchmark, generateVectors.
  rewrite (resize_empty e 0 0 [] (cout (print_header calculator)) H0)
    by (unfold INT_MAX; lia).
  rewrite bind_Done.
  destruct (max_val <? min_val); [done|].
  rewrite (seqZ_nil 0 0) by lia. cbn [for_each]. rewrite bind_Done.
  change (S (Z.to_nat 0)) with 1%nat. cbn [vectors sums cout].
  rewrite (resize_Done e 1 0 0 _ _ H1) by (unfold INT_MAX; lia).
  rewrite !bind_Done. cbn [vectors sums cout Z.to_nat replicate].
  destruct thread_counts as [|w tcs].
  - unfold run_trials. cbn [length seq zip_with for_each]. rewrite bind_Done.
    rewrite seqZ_nil by (unfold size; cbn; lia). cbn [for_each]. rewrite bind_Done.
    reflexivity.
  - unfold run_trials. cbn [length seq zip_with for_each].
    rewrite trial_empty_dataset by reflexivity. reflexivity.
Qed.

Lemma benchmark_without_vectors_witness :
  alloc sample_env 0 = None /\ alloc sample_env 1 = None /\
  benchmark 0 100 (-1000) 1000 [1; 2; 4] sample_env calculator = Undefined.
Proof.
  assert (H0 : alloc sample_env 0 = None) by reflexivity.
  assert (H1 : alloc sample_env 1 = None) by reflexivity.
  split; [exact H0|]. split; [exact H1|].
  exact (benchmark_without_vectors sample_env 100 (-1000) 1000 [1; 2; 4] H0 H1).
Defined.

(** X4. A thread count of 0 makes the parallel phase divide by zero; a
    negative one makes it create no thread: it returns at once, the
    results and the output as they were. *)
Theorem measure_nonpositive_threads (c : VectorSumCalculator) (num_threads elapsed_us : Z) :
  INT_MIN <= num_threads <= 0 ->
  measureExecutionTime num_threads elapsed_us c
  = if num_threads =? 0 then Undefined else Done (Qmake elapsed_us 1000, c).
Proof.
  intros Hw. unfold measureExecutionTime, thread_launches.
  destruct (Z.eqb_spec num_threads 0) as [->|Hne]; [reflexivity|].
  assert (Hsz : size_t_of num_threads = num_threads + 2 ^ 64).
  { unfold size_t_of, INT_MIN in *.
    rewrite <- (Z_mod_plus_full num_threads 1 (2 ^ 64)).
    rewrite Z.mod_small; lia. }
  rewrite Hsz. unfold INT_MIN in Hw.
  destruct (Z.eqb_spec (num_threads + 2 ^ 64) 0); [lia|].
  rewrite bind_Done, seqZ_nil by lia. reflexivity.
Qed.

Lemma measure_nonpositive_threads_witness :
  INT_MIN <= -2 <= 0 /\
  measureExecutionTime (-2) 1500 two_vectors
  = if -2 =? 0 then Undefined else Done (Qmake 1500 1000, two_vectors).
Proof.
  assert (H : INT_MIN <= -2 <= 0) by (unfold INT_MIN; lia).
  split; [exact H|]. exact (measure_nonpositive_threads two_vectors (-2) 1500 H).
Defined.

(** The line of a balanced range, without conversion. *)
Lemma worker_line_balanced n w k :
  0 <= n <= INT_MAX -> 1 <= w -> 0 <= k < w ->
  worker_line (balanced_launch (n / w) (n mod w) k) = range_line (n / w) (n mod w) k.
Proof.
  intros Hn Hw Hk. unfold worker_line, range_line, balanced_launch. cbn [l_id l_start l_end].
  pose proof (Z.div_mod n w ltac:(lia)) as Hdm.
  pose proof (Z.mod_pos_bound n w ltac:(lia)) as Hr.
  assert (Hq : 0 <= n / w) by (apply Z.div_pos; lia).
  assert (Hle : (k + 1) * (n / w) <= w * (n / w)) by (apply Z.mul_le_mono_nonneg_r; lia).
  rewrite int_of_id; [done|]. unfold is_int, INT_MIN, INT_MAX in *. nia.
Qed.

(** X5. The parallel phase prints one line for each of its W threads, in
    the order of their creation when they run in that order: the line of
    the thread of rank k shows k + 1, the first index of its range and the
    index before its end, so that a thread with an empty range shows a last
    index one below the first. *)
Theorem trial_output_lines (c : VectorSumCalculator) (num_threads elapsed_us : Z) :
  sized c -> size (vectors c) <= INT_MAX -> 1 <= num_threads <= INT_MAX ->
  exists c',
    measureExecutionTime num_threads elapsed_us c = Done (Qmake elapsed_us 1000, c') /\
    cout c' = cout c
              ++ (range_line (size (vectors c) / num_threads)
                    (size (vectors c) mod num_threads) <$> seqZ 0 num_threads) /\
    length (cout c') = (length (cout c) + Z.to_nat num_threads)%nat.
Proof.
  intros Hc Hn Hw. pose proof (size_nonneg (vectors c)) as Hn0.
  eexists. split; [by apply measureExecutionTime_spec|]. cbn [cout].
  assert (Hlines : worker_line <$>
                     (balanced_launch (size (vectors c) / num_threads)
                        (size (vectors c) mod num_threads) <$> seqZ 0 num_threads)
                   = range_line (size (vectors c) / num_threads)
                       (size (vectors c) mod num_threads) <$> seqZ 0 num_threads).
  { rewrite <- list_fmap_compose. apply Forall_fmap_ext_1, Forall_seqZ.
    intros k Hk. cbn. apply worker_line_balanced; lia. }
  rewrite Hlines. split; [done|].
  rewrite length_app, length_fmap, length_seqZ. done.
Qed.

Lemma trial_output_lines_witness :
  sized two_vectors /\ size (vectors two_vectors) <= INT_MAX /\ 1 <= 5 <= INT_MAX /\
  exists c',
    measureExecutionTime 5 1500 two_vectors = Done (Qmake 1500 1000, c') /\
    cout c' = cout two_vectors
              ++ (range_line (size (vectors two_vectors) / 5)
                    (size (vectors two_vectors) mod 5) <$> seqZ 0 5) /\
    length (cout c') = (length (cout two_vectors) + Z.to_nat 5)%nat.
Proof.
  assert (H1 : sized two_vectors) by reflexivity.
  assert (H2 : size (vectors two_vectors) <= INT_MAX) by (vm_compute; discriminate).
  assert (H3 : 1 <= 5 <= INT_MAX) by (unfold INT_MAX; lia).
  repeat (split; [assumption|]).
  exact (trial_output_lines two_vectors 5 1500 H1 H2 H3).
Defined.

(** Five threads on two vectors: three threads have nothing to do. *)
Example scenario_idle_threads :
  cout <$> (snd <$> match measureExecutionTime 5 1500 two_vectors with
                    | Done r => Some r | _ => None end)
  = Some [LWorker 1 0 0; LWorker 2 1 1; LWorker 3 2 1; LWorker 4 2 1; LWorker 5 2 1].
Proof. reflexivity. Qed.

(** X6. Trials compose: once a parallel phase has run, resetting the
    results to zero and running another one, with any number of threads,
    brings back the same results on the same dataset. *)
Theorem trial_rerun (c : VectorSumCalculator) (w1 t1 w2 t2 : Z) :
  sized c -> size (vectors c) <= INT_MAX ->
  1 <= w1 <= INT_MAX -> 1 <= w2 <= INT_MAX ->
  exists c1 c2,
    measureExecutionTime w1 t1 c = Done (Qmake t1 1000, c1) /\
    measureExecutionTime w2 t2 (fill_zero c1) = Done (Qmake t2 1000, c2) /\
    vectors c2 = vectors c /\ sums c2 = sums c1.
Proof.
  intros Hc Hn H1 H2.
  eexists _, _. split; [by apply measureExecutionTime_spec|].
  split.
  { apply measureExecutionTime_spec; [|exact Hn|exact H2].
    unfold sized. cbn [vectors sums fill_zero].
    by rewrite length_replicate, length_fmap. }
  cbn [vectors sums fill_zero]. split; done.
Qed.

Lemma trial_rerun_witness :
  sized two_vectors /\ size (vectors two_vectors) <= INT_MAX /\
  1 <= 4 <= INT_MAX /\ 1 <= 2 <= INT_MAX /\
  exists c1 c2,
    measureExecutionTime 4 1500 two_vectors = Done (Qmake 1500 1000, c1) /\
    measureExecutionTime 2 900 (fill_zero c1) = Done (Qmake 900 1000, c2) /\
    vectors c2 = vectors two_vectors /\ sums c2 = sums c1.
Proof.
  assert (H1 : sized two_vectors) by reflexivity.
  assert (H2 : size (vectors two_vectors) <= INT_MAX) by (vm_compute; discriminate).
  assert (H3 : 1 <= 4 <= INT_MAX) by (unfold INT_MAX; lia).
  assert (H4 : 1 <= 2 <= INT_MAX) by (unfold INT_MAX; lia).
  repeat (split; [assumption|]).
  exact (trial_rerun two_vectors 4 1500 2 900 H1 H2 H3 H4).
Defined.

(** ** The threads, step by step *)

Lemma interleaving_split (ts : list thread) k t t' :
  ts !! k = Some t ->
  ts = take k ts ++ t :: drop (S k) ts /\
  <[k := t']> ts = take k ts ++ t' :: drop (S k) ts.
Proof.
  intros Hk. split; [by rewrite take_drop_middle|].
  apply insert_take_drop. by eapply lookup_lt_Some.
Qed.

Lemma printed_lines_app ts1 ts2 :
  printed_lines (ts1 ++ ts2) = printed_lines ts1 ++ printed_lines ts2.
Proof. unfold printed_lines. by rewrite fmap_app, concat_app. Qed.

Lemma printed_lines_cons t ts :
  printed_lines (t :: ts)
  = (if t_printed t then [worker_line (t_launch t)] else []) ++ printed_lines ts.
Proof. reflexivity. Qed.

Lemma printed_lines_spawn ls : printed_lines (spawn <$> ls) = [].
Proof. induction ls as [|l ls IH]; [done|]. cbn. exact IH. Qed.

Lemma printed_lines_finished ts :
  Forall finished ts -> printed_lines ts = worker_line <$> (t_launch <$> ts).
Proof.
  induction ts as [|t ts IH]; intros Hfin; [done|].
  apply Forall_cons_1 in Hfin as [[_ Hp] Hfin].
  rewrite printed_lines_cons, Hp, IH by done. done.
Qed.

Lemma work_app ts1 ts2 : work (ts1 ++ ts2) = (work ts1 + work ts2)%nat.
Proof.
  unfold work. induction ts1 as [|t ts1 IH]; [done|]. cbn. rewrite IH. lia.
Qed.

Lemma work_cons t ts : work (t :: ts) = (todo t + work ts)%nat.
Proof. reflexivity. Qed.

Lemma work_finished ts : work ts = 0%nat <-> Forall finished ts.
Proof.
  induction ts as [|t ts IH]; [by split; [constructor|]|].
  rewrite work_cons, Forall_cons, <- IH. unfold todo, finished.
  destruct (t_printed t); split.
  - intros H. split; [|lia]. split; [lia|done].
  - intros [[H1 _] H2]. lia.
  - lia.
  - intros [[_ H] _]. done.
Qed.

Lemma work_spawn ls : forall a b,
  chained a ls b -> work (spawn <$> ls) = (Z.to_nat (b - a) + length ls)%nat.
Proof.
  induction ls as [|l ls IH]; intros a b Hch; cbn in Hch.
  - subst. cbn. lia.
  - destruct Hch as (Hs & Hle & Hrest). pose proof (chained_le _ _ _ Hrest).
    cbn [fmap list_fmap length]. rewrite work_cons, (IH _ _ Hrest).
    unfold todo, spawn. cbn. lia.
Qed.

(** A step of a thread is one of the steps it has to take. *)
Lemma thread_step_todo s s' : thread_step s s' -> todo s.1 = S (todo s'.1).
Proof.
  intros [l i c c' Hi _|l i c Hi]; unfold todo; cbn; lia.
Qed.

Lemma interleaving_work s s' : interleaving s s' -> work s.1 = S (work s'.1).
Proof.
  intros [ts k t t' c c' Hk Hstep]. cbn [fst].
  destruct (interleaving_split ts k t t' Hk) as [Hts ->]. rewrite Hts at 1.
  rewrite !work_app, !work_cons. apply thread_step_todo in Hstep. cbn in Hstep. lia.
Qed.

Lemma nsteps_work (k : nat) s s' :
  nsteps interleaving k s s' -> work s.1 = (k + work s'.1)%nat.
Proof.
  induction 1 as [s|k s1 s2 s3 Hstep _ IH]; [done|].
  apply interleaving_work in Hstep. lia.
Qed.

(** The lines printed under a schedule are those of the threads that have
    printed, in some order. *)
Lemma interleaving_lines s s' out :
  interleaving s s' ->
  out ≡ₚ printed_lines s.1 ->
  exists line_or_none,
    cout s'.2 = cout s.2 ++ line_or_none /\
    out ++ line_or_none ≡ₚ printed_lines s'.1.
Proof.
  intros [ts k t t' c c' Hk Hstep] Hout. cbn [fst snd] in *.
  destruct (interleaving_split ts k t t' Hk) as [Hts ->]. rewrite Hts in Hout.
  rewrite printed_lines_app, printed_lines_cons in *.
  inversion Hstep as [l i c1 c1' Hi Hsum|l i c1 Hi]; subst; cbn [t_printed t_launch] in *.
  - apply sum_one_inv in Hsum as (v & _ & _ & _ & ->). exists [].
    cbn [cout]. by rewrite !app_nil_r.
  - eexists [_]. split; [reflexivity|].
    rewrite <- Permutation_cons_append, Hout. apply Permutation_middle.
Qed.

Lemma schedule_lines c0 s s' out :
  rtc interleaving s s' ->
  cout s.2 = cout c0 ++ out -> out ≡ₚ printed_lines s.1 ->
  exists out', cout s'.2 = cout c0 ++ out' /\ out' ≡ₚ printed_lines s'.1.
Proof.
  intros Hrtc. revert out. induction Hrtc as [s|s1 s2 s3 Hstep _ IH]; intros out Hc Hout.
  - by exists out.
  - destruct (interleaving_lines _ _ out Hstep Hout) as (l & Hl & Hperm).
    apply (IH (out ++ l)); [|done]. by rewrite Hl, Hc, app_assoc.
Qed.

Lemma chained_ranges ls : forall a b,
  chained a ls b ->
  Forall (fun l => a <= l_start l /\ l_start l <= l_end l /\ l_end l <= b) ls.
Proof.
  induction ls as [|l ls IH]; intros a b Hch; cbn in Hch; [constructor|].
  destruct Hch as (Hs & Hle & Hrest). pose proof (chained_le _ _ _ Hrest).
  constructor; [lia|].
  eapply Forall_impl; [apply (IH _ _ Hrest)|]. cbn. intros l'. lia.
Qed.

Lemma placed_spawn ls n : chained 0 ls n -> Forall (placed n) (spawn <$> ls).
Proof.
  intros Hch. apply Forall_fmap. eapply Forall_impl; [apply (chained_ranges _ _ _ Hch)|].
  intros l (H1 & H2 & H3). unfold placed, spawn. cbn.
  split; [lia|]. split; [lia|]. split; [lia|]. split; [lia|done].
Qed.

Lemma placed_step n s s' : thread_step s s' -> placed n s.1 -> placed n s'.1.
Proof.
  intros [l i c c' Hi _|l i c Hi]; unfold placed; cbn; intros (H1 & H2 & H3 & H4 & H5).
  - split; [lia|]. split; [lia|]. split; [lia|]. split; [lia|done].
  - split; [lia|]. split; [lia|]. split; [lia|]. split; [lia|]. intros _. lia.
Qed.

Lemma placed_rtc n s s' :
  rtc interleaving s s' -> Forall (placed n) s.1 -> Forall (placed n) s'.1.
Proof.
  induction 1 as [s|s1 s2 s3 Hstep _ IH]; intros Hpl; [done|].
  apply IH. destruct Hstep as [ts k t t' c c' Hk Hstep]. cbn [fst] in *.
  apply Forall_insert; [done|].
  apply (placed_step n _ _ Hstep). cbn [fst].
  rewrite Forall_forall in Hpl. by eapply Hpl, list_elem_of_lookup_2.
Qed.

(** A schedule where the second thread runs before the first. *)
Example reversed_schedule :
  nsteps interleaving 4
    (spawn <$> [mkLaunch 0 1 1; mkLaunch 1 2 2], two_vectors)
    ([mkThread (mkLaunch 0 1 1) 1 true; mkThread (mkLaunch 1 2 2) 2 true],
     mkCalc [[1; 2; 3]; [4; 5; 6]] [6; 15] [LWorker 2 1 1; LWorker 1 0 0]).
Proof.
  eapply nsteps_l.
  { eapply (interleaving_step _ 1%nat); [reflexivity|].
    apply step_turn; [cbn; lia | reflexivity]. }
  eapply nsteps_l.
  { eapply (interleaving_step _ 1%nat); [reflexivity|].
    apply step_print. cbn. lia. }
  eapply nsteps_l.
  { eapply (interleaving_step _ 0%nat); [reflexivity|].
    apply step_turn; [cbn; lia | reflexivity]. }
  eapply nsteps_l.
  { eapply (interleaving_step _ 0%nat); [reflexivity|].
    apply step_print. cbn. lia. }
  apply nsteps_O.
Qed.

(** X7. Under every schedule the output grows by the lines of the threads
    that have printed theirs, in the order the schedule gave them; when all
    threads are over, it has grown by exactly one line for each thread, the
    lines of the run in the order of creation up to their order. *)
Theorem every_schedule_output (c0 : VectorSumCalculator) (ls : list launch)
    (ts : list thread) (c : VectorSumCalculator) :
  rtc interleaving (spawn <$> ls, c0) (ts, c) ->
  exists out,
    cout c = cout c0 ++ out /\
    out ≡ₚ printed_lines ts /\
    (Forall finished ts -> out ≡ₚ worker_line <$> ls /\ length out = length ls).
Proof.
  intros Hrtc.
  destruct (schedule_lines c0 _ _ [] Hrtc) as (out & Hout & Hperm).
  { cbn. by rewrite app_nil_r. }
  { cbn [fst]. by rewrite printed_lines_spawn. }
  destruct (schedule_invariant_rtc c0 ls _ _ (schedule_invariant_spawn c0 ls) Hrtc)
    as (_ & _ & Hls & _).
  cbn [fst snd] in *. exists out. split; [done|]. split; [done|].
  intros Hfin. rewrite printed_lines_finished, Hls in Hperm by done.
  split; [done|]. by rewrite Hperm, length_fmap.
Qed.

Lemma every_schedule_output_witness :
  rtc interleaving (spawn <$> [mkLaunch 0 1 1; mkLaunch 1 2 2], two_vectors)
    ([mkThread (mkLaunch 0 1 1) 1 true; mkThread (mkLaunch 1 2 2) 2 true],
     mkCalc [[1; 2; 3]; [4; 5; 6]] [6; 15] [LWorker 2 1 1; LWorker 1 0 0]) /\
  exists out,
    [LWorker 2 1 1; LWorker 1 0 0] = cout two_vectors ++ out /\
    out ≡ₚ printed_lines
             [mkThread (mkLaunch 0 1 1) 1 true; mkThread (mkLaunch 1 2 2) 2 true] /\
    (Forall finished [mkThread (mkLaunch 0 1 1) 1 true; mkThread (mkLaunch 1 2 2) 2 true] ->
     out ≡ₚ worker_line <$> [mkLaunch 0 1 1; mkLaunch 1 2 2] /\
     length out = length [mkLaunch 0 1 1; mkLaunch 1 2 2]).
Proof.
  assert (H : rtc interleaving (spawn <$> [mkLaunch 0 1 1; mkLaunch 1 2 2], two_vectors)
                ([mkThread (mkLaunch 0 1 1) 1 true; mkThread (mkLaunch 1 2 2) 2 true],
                 mkCalc [[1; 2; 3]; [4; 5; 6]] [6; 15] [LWorker 2 1 1; LWorker 1 0 0])).
  { eapply rtc_nsteps_2. exact reversed_schedule. }
  split; [exact H|].
  exact (every_schedule_output two_vectors [mkLaunch 0 1 1; mkLaunch 1 2 2] _ _ H).
Defined.

(** ** The threads and the lock *)

Lemma insert_split {A} (ts : list A) k t t' :
  ts !! k = Some t ->
  ts = take k ts ++ t :: drop (S k) ts /\
  <[k := t']> ts = take k ts ++ t' :: drop (S k) ts.
Proof.
  intros Hk. split; [by rewrite take_drop_middle|].
  apply insert_take_drop. by eapply lookup_lt_Some.
Qed.

Lemma mutex_spawn ls c : mutex_held_by_holder (mkMachine (lock_spawn <$> ls) c None).
Proof.
  intros j. cbn. split; [done|]. intros (t & Ht & Hh).
  rewrite list_lookup_fmap in Ht. destruct (ls !! j); [|done].
  injection Ht as <-. destruct Hh as [Hh|Hh]; discriminate.
Qed.

Lemma mutex_step m m' :
  locked_step m m' -> mutex_held_by_holder m -> mutex_held_by_holder m'.
Proof.
  intros Hstep Hinv.
  destruct Hstep as [ts k l i c c' mutex Hk Hi Hsum | ts k l i c Hk Hi
                    | ts k l i c mutex Hk | ts k l i c mutex Hk];
    unfold mutex_held_by_holder in *; cbn [output_mutex m_threads] in *;
    intros j; pose proof (lookup_lt_Some _ _ _ Hk) as Hlt;
    destruct (decide (j = k)) as [->|Hjk];
    try rewrite list_lookup_insert_eq by done;
    try rewrite list_lookup_insert_ne by done.
  - rewrite (Hinv k). split.
    + intros (t & Ht & [Hh|Hh]); rewrite Hk in Ht; injection Ht as <-; discriminate.
    + intros (t & [= <-] & [Hh|Hh]); discriminate.
  - apply Hinv.
  - split; [|done]. intros _. eexists. split; [done|]. by left.
  - split.
    + intros [= ->]. done.
    + intros Hex. apply Hinv in Hex. discriminate.
  - rewrite (Hinv k). split.
    + intros _. eexists. split; [done|]. by right.
    + intros _. eexists. split; [exact Hk|]. by left.
  - apply Hinv.
  - split; [done|]. intros (t & [= <-] & [Hh|Hh]); discriminate.
  - split; [done|]. intros Hex. apply Hinv in Hex as Hj.
    assert (Hm : mutex = Some k).
    { apply Hinv. eexists. split; [exact Hk|]. by right. }
    congruence.
Qed.

Lemma mutex_rtc m m' :
  rtc locked_step m m' -> mutex_held_by_holder m -> mutex_held_by_holder m'.
Proof. induction 1; eauto using mutex_step. Qed.

Lemma unlocked_spawn (ls : list launch) : unlocked <$> (lock_spawn <$> ls) = spawn <$> ls.
Proof. rewrite <- list_fmap_compose. by apply list_fmap_ext. Qed.


Lemma past_loop_spawn (ls : list launch) : Forall past_loop (lock_spawn <$> ls).
Proof. apply Forall_fmap, Forall_forall. intros l _ H. done. Qed.

Lemma past_loop_step m m' :
  locked_step m m' -> Forall past_loop (m_threads m) -> Forall past_loop (m_threads m').
Proof.
  intros [ts k l i c c' mutex Hk Hi Hsum | ts k l i c Hk Hi
         | ts k l i c mutex Hk | ts k l i c mutex Hk] Hall;
    cbn [m_threads] in *; (apply Forall_insert; [done|]);
    rewrite Forall_forall in Hall;
    pose proof (Hall _ (list_elem_of_lookup_2 _ _ _ Hk)) as Hp;
    unfold past_loop in *; cbn in *; intros H; try done; by apply Hp.
Qed.

Lemma past_loop_rtc m m' :
  rtc locked_step m m' -> Forall past_loop (m_threads m) -> Forall past_loop (m_threads m').
Proof. induction 1; eauto using past_loop_step. Qed.

(** A step of the threads with the lock is a step of the threads without
    it, or one on the lock alone. *)
Lemma locked_step_unlocked m m' :
  locked_step m m' -> Forall past_loop (m_threads m) ->
  (unlocked <$> m_threads m', m_calc m') = (unlocked <$> m_threads m, m_calc m) \/
  interleaving (unlocked <$> m_threads m, m_calc m) (unlocked <$> m_threads m', m_calc m').
Proof.
  intros [ts k l i c c' mutex Hk Hi Hsum | ts k l i c Hk Hi
         | ts k l i c mutex Hk | ts k l i c mutex Hk] Hall;
    cbn [m_threads m_calc] in *; rewrite list_fmap_insert;
    rewrite Forall_forall in Hall;
    pose proof (Hall _ (list_elem_of_lookup_2 _ _ _ Hk)) as Hp;
    assert (Hu : (unlocked <$> ts) !! k = Some (unlocked (mkLocked l i _)))
      by (by rewrite list_lookup_fmap, Hk).
  - right. eapply interleaving_step; [exact Hu|]. by apply step_turn.
  - left. f_equal. by apply list_insert_id.
  - right. eapply interleaving_step; [exact Hu|].
    apply step_print. by apply Hp.
  - left. f_equal. by apply list_insert_id.
Qed.

Lemma locked_rtc_unlocked m m' :
  rtc locked_step m m' -> Forall past_loop (m_threads m) ->
  rtc interleaving (unlocked <$> m_threads m, m_calc m) (unlocked <$> m_threads m', m_calc m').
Proof.
  induction 1 as [m|m1 m2 m3 Hstep _ IH]; intros Hall; [apply rtc_refl|].
  destruct (locked_step_unlocked _ _ Hstep Hall) as [Heq|Hint].
  - rewrite <- Heq. by eapply IH, past_loop_step.
  - eapply rtc_l; [exact Hint|]. by eapply IH, past_loop_step.
Qed.

Lemma returned_finished ts :
  Forall past_loop ts -> Forall returned ts -> Forall finished (unlocked <$> ts).
Proof.
  intros Hp Hr. apply Forall_fmap, Forall_forall. intros t Ht.
  rewrite Forall_forall in Hp, Hr. specialize (Hp t Ht). specialize (Hr t Ht).
  unfold finished, unlocked, returned, past_loop in *. cbn. rewrite Hr in *.
  split; [by apply Hp|done].
Qed.

Lemma lock_work_app ts1 ts2 : lock_work (ts1 ++ ts2) = (lock_work ts1 + lock_work ts2)%nat.
Proof.
  unfold lock_work. induction ts1 as [|t ts1 IH]; [done|]. cbn. rewrite IH. lia.
Qed.

Lemma lock_work_cons t ts : lock_work (t :: ts) = (lock_todo t + lock_work ts)%nat.
Proof. reflexivity. Qed.

Lemma lock_work_spawn ls : forall a b,
  chained a ls b -> lock_work (lock_spawn <$> ls) = (Z.to_nat (b - a) + 3 * length ls)%nat.
Proof.
  induction ls as [|l ls IH]; intros a b Hch; cbn in Hch.
  - subst. cbn. lia.
  - destruct Hch as (Hs & Hle & Hrest). pose proof (chained_le _ _ _ Hrest).
    cbn [fmap list_fmap length]. rewrite lock_work_cons, (IH _ _ Hrest).
    unfold lock_todo, lock_spawn. cbn. lia.
Qed.

Lemma lock_work_returned ts : lock_work ts = 0%nat <-> Forall returned ts.
Proof.
  induction ts as [|t ts IH]; [by split; [constructor|]|].
  rewrite lock_work_cons, Forall_cons, <- IH. unfold lock_todo, returned.
  destruct (lt_phase t); split; try lia; try (intros [H _]; discriminate).
  intros H. split; [done|lia].
Qed.

Lemma locked_step_work m m' :
  locked_step m m' -> lock_work (m_threads m) = S (lock_work (m_threads m')).
Proof.
  intros [ts k l i c c' mutex Hk Hi Hsum | ts k l i c Hk Hi
         | ts k l i c mutex Hk | ts k l i c mutex Hk];
    cbn [m_threads];
    match goal with |- context [<[k := ?t']> ts] =>
      destruct (insert_split ts k _ t' Hk) as [Hts ->] end;
    rewrite Hts at 1; rewrite !lock_work_app, !lock_work_cons;
    unfold lock_todo; cbn; lia.
Qed.

Lemma locked_nsteps_work (k : nat) m m' :
  nsteps locked_step k m m' -> lock_work (m_threads m) = (k + lock_work (m_threads m'))%nat.
Proof.
  induction 1 as [m|k m1 m2 m3 Hstep _ IH]; [done|].
  apply locked_step_work in Hstep. lia.
Qed.

Lemma lock_work_pending ts :
  lock_work ts <> 0%nat -> exists (k : nat) t, ts !! k = Some t /\ lt_phase t <> Returned.
Proof.
  induction ts as [|t ts IH]; [done|]. rewrite lock_work_cons. intros Hw.
  destruct (decide (lock_todo t = 0%nat)) as [Ht|Ht].
  - destruct IH as (k & t' & Hk & Ht'); [lia|]. by exists (S k), t'.
  - exists 0%nat, t. split; [done|]. intros Hr. unfold lock_todo in Ht.
    by rewrite Hr in Ht.
Qed.

Lemma sum_one_Done i c :
  sized c -> 0 <= i < size (vectors c) -> exists c', sum_one i c = Done c'.
Proof.
  intros Hc Hi. destruct (at_index_in_bounds (vectors c) i Hi) as (v & Hv & Hat).
  unfold sum_one. rewrite Hat, bind_Done. unfold store_sum, size in *.
  destruct (Z.leb_spec 0 i); [|lia].
  destruct (Z.ltb_spec i (Z.of_nat (length (sums c)))); [by eexists|].
  rewrite Hc in *. lia.
Qed.

Section Lock.

Variable c0 : VectorSumCalculator.
Variable ls : list launch.
Hypothesis c0_sized : sized c0.
Hypothesis ls_chained : chained 0 ls (size (vectors c0)).

Variable m : machine.
Hypothesis reached : rtc locked_step (mkMachine (lock_spawn <$> ls) c0 None) m.

Lemma reached_unlocked :
  rtc interleaving (spawn <$> ls, c0) (unlocked <$> m_threads m, m_calc m).
Proof.
  pose proof (locked_rtc_unlocked _ _ reached (past_loop_spawn ls)) as Hrtc.
  cbn [m_threads m_calc] in Hrtc. by rewrite unlocked_spawn in Hrtc.
Qed.

Lemma reached_mutex : mutex_held_by_holder m.
Proof. exact (mutex_rtc _ _ reached (mutex_spawn ls c0)). Qed.

Lemma reached_progress : Forall returned (m_threads m) \/ exists m', locked_step m m'.
Proof.
  pose proof reached_mutex as Hmutex. pose proof reached_unlocked as Hrtc.
  destruct (schedule_invariant_rtc c0 ls _ _ (schedule_invariant_spawn c0 ls) Hrtc)
    as (Hvs & Hlen & _).
  pose proof (placed_rtc (size (vectors c0)) _ _ Hrtc (placed_spawn _ _ ls_chained)) as Hpl.
  destruct m as [ts c mutex]. unfold mutex_held_by_holder in Hmutex.
  cbn [fst snd m_threads m_calc output_mutex] in *.
  destruct mutex as [j|].
  - right. destruct (proj1 (Hmutex j) eq_refl) as ([l i p] & Hj & [Hp|Hp]);
      cbn in Hp; subst p; eexists.
    + by eapply locked_print.
    + by eapply locked_unlock.
  - destruct (decide (lock_work ts = 0%nat)) as [Hw|Hw];
      [left; by apply lock_work_returned|].
    right. destruct (lock_work_pending ts Hw) as (k & [l i p] & Hk & Hp). cbn in Hp.
    destruct p; [| | |done].
    + rewrite Forall_forall in Hpl.
      destruct (Hpl (unlocked (mkLocked l i InLoop))) as (H1 & H2 & H3 & H4 & _).
      { apply list_elem_of_fmap. eexists. split; [done|]. by eapply list_elem_of_lookup_2. }
      cbn in H1, H2, H3, H4.
      destruct (Z_lt_dec i (l_end l)) as [Hlt|Hge].
      * destruct (sum_one_Done i c) as [c' Hsum].
        { unfold sized. by rewrite Hlen, Hvs. }
        { rewrite Hvs. lia. }
        eexists. by eapply locked_turn.
      * eexists. eapply locked_lock; [done|lia].
    + exfalso. assert (Hm : None = Some k); [|done].
      apply Hmutex. eexists. split; [done|]. by left.
    + exfalso. assert (Hm : None = Some k); [|done].
      apply Hmutex. eexists. split; [done|]. by right.
Qed.

Lemma reached_end :
  Forall returned (m_threads m) ->
  output_mutex m = None /\
  vectors (m_calc m) = vectors c0 /\
  sums (m_calc m) = sum_vector <$> vectors c0 /\
  exists out, cout (m_calc m) = cout c0 ++ out /\ out ≡ₚ worker_line <$> ls.
Proof.
  intros Hret. pose proof reached_mutex as Hmutex. pose proof reached_unlocked as Hrtc.
  pose proof (past_loop_rtc _ _ reached (past_loop_spawn ls)) as Hpast.
  pose proof (returned_finished _ Hpast Hret) as Hfin.
  destruct (every_schedule_sums c0 ls _ _ c0_sized ls_chained Hrtc Hfin) as [Hvs Hss].
  destruct (schedule_invariant_rtc c0 ls _ _ (schedule_invariant_spawn c0 ls) Hrtc)
    as (_ & _ & Hls & _).
  destruct (schedule_lines c0 _ _ [] Hrtc) as (out & Hout & Hperm).
  { cbn. by rewrite app_nil_r. }
  { cbn [fst]. by rewrite printed_lines_spawn. }
  cbn [fst snd] in *.
  split.
  { destruct (output_mutex m) as [j|] eqn:Hm; [|done]. exfalso.
    apply Hmutex in Hm as (t & Ht & Hh). rewrite Forall_forall in Hret.
    pose proof (Hret t (list_elem_of_lookup_2 _ _ _ Ht)) as Hr.
    unfold returned in Hr. destruct Hh as [Hh|Hh]; congruence. }
  split; [done|]. split; [done|].
  exists out. split; [done|].
  by rewrite printed_lines_finished, Hls in Hperm.
Qed.

End Lock.

Lemma waiting_blocked m m' (j : nat) t :
  locked_step m m' -> m_threads m !! j = Some t -> waiting t -> output_mutex m <> None ->
  m_threads m' !! j = Some t.
Proof.
  intros [ts k l i c c' mutex Hk Hi Hsum | ts k l i c Hk Hi
         | ts k l i c mutex Hk | ts k l i c mutex Hk] Hj [Hw1 Hw2] Hm;
    cbn [m_threads output_mutex] in *; try done;
    (destruct (decide (j = k)) as [->|Hjk];
     [rewrite Hk in Hj; injection Hj as <-; cbn in *; (lia || discriminate)
     |by rewrite list_lookup_insert_ne]).
Qed.

(** A schedule at the end of which the first thread waits for the mutex
    that the second holds. *)
Example waiting_schedule :
  nsteps locked_step 3
    (mkMachine (lock_spawn <$> [mkLaunch 0 1 1; mkLaunch 1 2 2]) two_vectors None)
    (mkMachine [mkLocked (mkLaunch 0 1 1) 1 InLoop; mkLocked (mkLaunch 1 2 2) 2 Locked]
       (mkCalc [[1; 2; 3]; [4; 5; 6]] [6; 15] []) (Some 1%nat)).
Proof.
  eapply nsteps_l.
  { eapply (locked_turn _ 1%nat); [reflexivity | cbn; lia | reflexivity]. }
  eapply nsteps_l.
  { eapply (locked_lock _ 1%nat); [reflexivity | cbn; lia]. }
  eapply nsteps_l.
  { eapply (locked_turn _ 0%nat); [reflexivity | cbn; lia | reflexivity]. }
  apply nsteps_O.
Qed.

(** X8. With the lock on the output no schedule of the threads of a trial
    can block.  In every state that a schedule of k steps reaches: the
    mutex is held exactly by the thread that is between taking it and
    giving it back, so that no two threads are there together; a thread
    that waits for the mutex takes no step as long as it is held; k of the
    N + 3 W steps there are have been taken, one for each vector and, for
    each thread, taking the mutex, printing and giving it back; either
    every thread has returned, and the calls of [join] return, or some
    thread can take a step, and no access it makes is outside the vectors.
    When every thread has returned the mutex is free, the results are the
    mathematical sums of the vectors and the output has grown by the lines
    of the threads, in some order. *)
Theorem lock_never_blocks (c0 : VectorSumCalculator) (ls : list launch) (k : nat)
    (m : machine) :
  sized c0 -> wf_dataset (vectors c0) -> chained 0 ls (size (vectors c0)) ->
  nsteps locked_step k (mkMachine (lock_spawn <$> ls) c0 None) m ->
  (forall j : nat,
     output_mutex m = Some j <-> exists t, m_threads m !! j = Some t /\ holds t) /\
  (forall (j1 j2 : nat) t1 t2,
     m_threads m !! j1 = Some t1 -> m_threads m !! j2 = Some t2 ->
     holds t1 -> holds t2 -> j1 = j2) /\
  (forall (j : nat) t m',
     m_threads m !! j = Some t -> waiting t -> output_mutex m <> None ->
     locked_step m m' -> m_threads m' !! j = Some t) /\
  (k + lock_work (m_threads m) = Z.to_nat (size (vectors c0)) + 3 * length ls)%nat /\
  (Forall returned (m_threads m) \/ exists m', locked_step m m') /\
  (Forall returned (m_threads m) ->
   output_mutex m = None /\
   vectors (m_calc m) = vectors c0 /\
   sums (m_calc m) = exact_sum <$> vectors c0 /\
   exists out,
     cout (m_calc m) = cout c0 ++ out /\
     out ≡ₚ (fun l => LWorker (l_id l) (l_start l) (l_end l - 1)) <$> ls).
Proof.
  intros Hc0 Hwf Hch Hsteps.
  pose proof (rtc_nsteps_2 _ _ _ Hsteps) as Hrtc.
  pose proof (reached_mutex c0 ls m Hrtc) as Hmutex.
  split; [exact Hmutex|]. split.
  { intros j1 j2 t1 t2 H1 H2 Hh1 Hh2.
    assert (Hm1 : output_mutex m = Some j1) by (apply Hmutex; by exists t1).
    assert (Hm2 : output_mutex m = Some j2) by (apply Hmutex; by exists t2).
    congruence. }
  split.
  { intros j t m' Hj Hw Hm Hstep. by eapply waiting_blocked. }
  split.
  { apply locked_nsteps_work in Hsteps. cbn [m_threads] in Hsteps.
    rewrite (lock_work_spawn _ _ _ Hch), Z.sub_0_r in Hsteps. lia. }
  split; [by eapply reached_progress|].
  intros Hret.
  destruct (reached_end c0 ls Hc0 Hch m Hrtc Hret) as (H1 & H2 & H3 & out & Hout & Hperm).
  split; [done|]. split; [done|].
  split; [by rewrite H3, (wf_dataset_sums _ Hwf)|].
  exists out. split; [done|]. rewrite Hperm.
  assert (Heq : worker_line <$> ls
                = (fun l => LWorker (l_id l) (l_start l) (l_end l - 1)) <$> ls);
    [|by rewrite Heq].
  apply Forall_fmap_ext_1. eapply Forall_impl; [apply (chained_ranges _ _ _ Hch)|].
  intros l (Hl1 & Hl2 & Hl3). cbn. unfold worker_line. rewrite int_of_id; [done|].
  destruct Hwf as [Hsize _]. unfold is_int, INT_MIN, INT_MAX in *. lia.
Qed.

Lemma lock_never_blocks_witness :
  sized two_vectors /\ wf_dataset (vectors two_vectors) /\
  chained 0 [mkLaunch 0 1 1; mkLaunch 1 2 2] (size (vectors two_vectors)) /\
  nsteps locked_step 3
    (mkMachine (lock_spawn <$> [mkLaunch 0 1 1; mkLaunch 1 2 2]) two_vectors None)
    (mkMachine [mkLocked (mkLaunch 0 1 1) 1 InLoop; mkLocked (mkLaunch 1 2 2) 2 Locked]
       (mkCalc [[1; 2; 3]; [4; 5; 6]] [6; 15] []) (Some 1%nat)) /\
  (forall j : nat,
     Some 1%nat = Some j <->
     exists t, [mkLocked (mkLaunch 0 1 1) 1 InLoop; mkLocked (mkLaunch 1 2 2) 2 Locked] !! j
               = Some t /\ holds t) /\
  (forall (j1 j2 : nat) t1 t2,
     [mkLocked (mkLaunch 0 1 1) 1 InLoop; mkLocked (mkLaunch 1 2 2) 2 Locked] !! j1 = Some t1 ->
     [mkLocked (mkLaunch 0 1 1) 1 InLoop; mkLocked (mkLaunch 1 2 2) 2 Locked] !! j2 = Some t2 ->
     holds t1 -> holds t2 -> j1 = j2) /\
  (forall (j : nat) t m',
     [mkLocked (mkLaunch 0 1 1) 1 InLoop; mkLocked (mkLaunch 1 2 2) 2 Locked] !! j = Some t ->
     waiting t -> Some 1%nat <> None ->
     locked_step
       (mkMachine [mkLocked (mkLaunch 0 1 1) 1 InLoop; mkLocked (mkLaunch 1 2 2) 2 Locked]
          (mkCalc [[1; 2; 3]; [4; 5; 6]] [6; 15] []) (Some 1%nat)) m' ->
     m_threads m' !! j = Some t) /\
  (3 + lock_work [mkLocked (mkLaunch 0 1 1) 1 InLoop; mkLocked (mkLaunch 1 2 2) 2 Locked]
   = Z.to_nat (size (vectors two_vectors)) + 3 * length [mkLaunch 0 1 1; mkLaunch 1 2 2])%nat /\
  (Forall returned [mkLocked (mkLaunch 0 1 1) 1 InLoop; mkLocked (mkLaunch 1 2 2) 2 Locked] \/
   exists m',
     locked_step
       (mkMachine [mkLocked (mkLaunch 0 1 1) 1 InLoop; mkLocked (mkLaunch 1 2 2) 2 Locked]
          (mkCalc [[1; 2; 3]; [4; 5; 6]] [6; 15] []) (Some 1%nat)) m') /\
  (Forall returned [mkLocked (mkLaunch 0 1 1) 1 InLoop; mkLocked (mkLaunch 1 2 2) 2 Locked] ->
   Some 1%nat = None /\
   [[1; 2; 3]; [4; 5; 6]] = vectors two_vectors /\
   [6; 15] = exact_sum <$> vectors two_vectors /\
   exists out,
     [] = cout two_vectors ++ out /\
     out ≡ₚ (fun l => LWorker (l_id l) (l_start l) (l_end l - 1))
              <$> [mkLaunch 0 1 1; mkLaunch 1 2 2]).
Proof.
  assert (H1 : sized two_vectors) by reflexivity.
  assert (H0 : wf_dataset (vectors two_vectors)).
  { split; [vm_compute; discriminate|].
    repeat constructor; vm_compute; discriminate. }
  assert (H2 : chained 0 [mkLaunch 0 1 1; mkLaunch 1 2 2] (size (vectors two_vectors))).
  { cbn. repeat split; lia. }
  split; [exact H1|]. split; [exact H0|]. split; [exact H2|].
  split; [exact waiting_schedule|].
  exact (lock_never_blocks two_vectors [mkLaunch 0 1 1; mkLaunch 1 2 2] 3 _
           H1 H0 H2 waiting_schedule).
Defined.

(** X9. Every schedule of the threads of a trial over N vectors ends: a
    schedule of k steps has taken k of the N + W steps there are, one for
    each vector and one for each line; the threads are all over exactly
    when k = N + W, and no schedule is longer. *)
Theorem schedule_length (c0 : VectorSumCalculator) (ls : list launch) (n : Z) (k : nat)
    (ts : list thread) (c : VectorSumCalculator) :
  chained 0 ls n ->
  nsteps interleaving k (spawn <$> ls, c0) (ts, c) ->
  (k + work ts = Z.to_nat n + length ls)%nat /\
  (k <= Z.to_nat n + length ls)%nat /\
  (Forall finished ts <-> k = (Z.to_nat n + length ls)%nat).
Proof.
  intros Hch Hsteps. apply nsteps_work in Hsteps. cbn [fst] in Hsteps.
  rewrite (work_spawn _ _ _ Hch), Z.sub_0_r in Hsteps.
  split; [lia|]. split; [lia|]. rewrite <- work_finished. lia.
Qed.

Lemma schedule_length_witness :
  chained 0 [mkLaunch 0 1 1; mkLaunch 1 2 2] 2 /\
  nsteps interleaving 4
    (spawn <$> [mkLaunch 0 1 1; mkLaunch 1 2 2], two_vectors)
    ([mkThread (mkLaunch 0 1 1) 1 true; mkThread (mkLaunch 1 2 2) 2 true],
     mkCalc [[1; 2; 3]; [4; 5; 6]] [6; 15] [LWorker 2 1 1; LWorker 1 0 0]) /\
  (4 + work [mkThread (mkLaunch 0 1 1) 1 true; mkThread (mkLaunch 1 2 2) 2 true]
   = Z.to_nat 2 + length [mkLaunch 0 1 1; mkLaunch 1 2 2])%nat /\
  (4 <= Z.to_nat 2 + length [mkLaunch 0 1 1; mkLaunch 1 2 2])%nat /\
  (Forall finished [mkThread (mkLaunch 0 1 1) 1 true; mkThread (mkLaunch 1 2 2) 2 true]
   <-> 4%nat = (Z.to_nat 2 + length [mkLaunch 0 1 1; mkLaunch 1 2 2])%nat).
Proof.
  assert (H1 : chained 0 [mkLaunch 0 1 1; mkLaunch 1 2 2] 2).
  { cbn. repeat split; lia. }
  split; [exact H1|]. split; [exact reversed_schedule|].
  exact (schedule_length two_vectors [mkLaunch 0 1 1; mkLaunch 1 2 2] 2 4 _ _
           H1 reversed_schedule).
Defined.

(** ** The validator as a sampling check *)

(** X10. When a single result has been overwritten with a wrong value,
    the validator reports it exactly when its index is among the ten
    drawn: it then returns [false] and prints that index; when the index
    is not drawn it returns [true] and the wrong value stays unnoticed. *)
Theorem validator_samples (c : VectorSumCalculator) (draw : nat -> Z) (j : nat) (x : Z) :
  sized c -> 1 <= size (vectors c) <= INT_MAX ->
  sums c = sum_vector <$> vectors c ->
  (forall t : nat, 0 <= draw t <= validate_bound c) ->
  sums c !! j <> Some x ->
  Z.of_nat j < size (vectors c) ->
  validateResults draw (corrupt j x c)
  = Done (if existsb (fun t => draw t =? Z.of_nat j) (seq 0 10)
          then (false, print (LMismatch (Z.of_nat j)) (corrupt j x c))
          else (true, corrupt j x c)).
Proof.
  intros Hc Hn Hsums Hdraw Hx Hj.
  set (c' := corrupt j x c).
  assert (Hc' : sized c').
  { unfold sized, c', corrupt. cbn [vectors sums]. by rewrite length_insert. }
  assert (Hb : validate_bound c' = size (vectors c) - 1).
  { unfold validate_bound, c', corrupt. cbn [vectors].
    by apply (validate_bound_nonempty c). }
  rewrite (validate_bound_nonempty c) in Hdraw by done.
  assert (Hmatch : forall t : nat, sample_matches draw c' t <-> draw t <> Z.of_nat j).
  { intros t. specialize (Hdraw t). unfold sample_matches, c', corrupt. cbn [vectors sums].
    destruct (decide (draw t = Z.of_nat j)) as [->|Hne].
    - rewrite Nat2Z.id, list_lookup_insert_eq
        by (unfold size in Hj; rewrite Hc; lia).
      rewrite <- list_lookup_fmap, <- Hsums. split; [intros H; by rewrite <- H in Hx|done].
    - rewrite list_lookup_insert_ne by lia.
      rewrite Hsums, list_lookup_fmap. split; done. }
  unfold validateResults. rewrite Hb.
  destruct (Z.ltb_spec (size (vectors c) - 1) 0); [lia|].
  destruct (validate_loop_spec c' draw Hc' (seq 0 10))
    as [[Hall Hrun]|(before & t & after & Hsplit & _ & Hbad & Hrun)].
  - apply Forall_forall. intros t _. specialize (Hdraw t). cbn [vectors c' corrupt]. lia.
  - rewrite Hrun.
    destruct (existsb _ _) eqn:Hex; [|done].
    apply existsb_exists in Hex as (t & Ht & Heq). apply Z.eqb_eq in Heq.
    rewrite Forall_forall in Hall. apply list_elem_of_In in Ht.
    apply Hall, Hmatch in Ht. done.
  - rewrite Hrun.
    assert (Heq : draw t = Z.of_nat j).
    { destruct (decide (draw t = Z.of_nat j)); [done|]. exfalso. by apply Hbad, Hmatch. }
    rewrite Heq.
    destruct (existsb _ _) eqn:Hex; [done|].
    assert (existsb (fun t => draw t =? Z.of_nat j) (seq 0 10) = true); [|congruence].
    apply existsb_exists. exists t. split; [|by apply Z.eqb_eq].
    apply list_elem_of_In. rewrite Hsplit. apply elem_of_app. right. apply list_elem_of_here.
Qed.

Lemma validator_samples_witness :
  sized (mkCalc [[1; 2; 3]; [4; 5; 6]] [6; 15] []) /\
  1 <= size (vectors (mkCalc [[1; 2; 3]; [4; 5; 6]] [6; 15] [])) <= INT_MAX /\
  sums (mkCalc [[1; 2; 3]; [4; 5; 6]] [6; 15] [])
  = sum_vector <$> vectors (mkCalc [[1; 2; 3]; [4; 5; 6]] [6; 15] []) /\
  (forall t : nat,
     0 <= 0 <= validate_bound (mkCalc [[1; 2; 3]; [4; 5; 6]] [6; 15] [])) /\
  sums (mkCalc [[1; 2; 3]; [4; 5; 6]] [6; 15] []) !! 1%nat <> Some 14 /\
  Z.of_nat 1 < size (vectors (mkCalc [[1; 2; 3]; [4; 5; 6]] [6; 15] [])) /\
  validateResults (fun _ => 0) (corrupt 1 14 (mkCalc [[1; 2; 3]; [4; 5; 6]] [6; 15] []))
  = Done (if existsb (fun t => 0 =? Z.of_nat 1) (seq 0 10)
          then (false, print (LMismatch (Z.of_nat 1))
                         (corrupt 1 14 (mkCalc [[1; 2; 3]; [4; 5; 6]] [6; 15] [])))
          else (true, corrupt 1 14 (mkCalc [[1; 2; 3]; [4; 5; 6]] [6; 15] []))).
Proof.
  set (c := mkCalc [[1; 2; 3]; [4; 5; 6]] [6; 15] []).
  assert (H1 : sized c) by reflexivity.
  assert (H2 : 1 <= size (vectors c) <= INT_MAX) by (vm_compute; split; discriminate).
  assert (H3 : sums c = sum_vector <$> vectors c) by reflexivity.
  assert (H4 : forall t : nat, 0 <= 0 <= validate_bound c).
  { intros _. change (validate_bound c) with 1. lia. }
  assert (H5 : sums c !! 1%nat <> Some 14) by (cbn; congruence).
  assert (H6 : Z.of_nat 1 < size (vectors c)) by (vm_compute; reflexivity).
  repeat (split; [assumption|]).
  exact (validator_samples c (fun _ => 0) 1 14 H1 H2 H3 H4 H5 H6).
Defined.

(** ** The statistics *)

Lemma total_sum_exact B v :
  0 <= B -> bounded B v -> B * size v <= exact_double -> total_sum v = exact_sum v.
Proof.
  intros HB Hv Hn. apply (sum_vector_exact B HB v Hv).
  unfold exact_double, LLONG_MAX in *. lia.
Qed.

(** X11. On N results, 1 <= N <= [INT_MAX], each at most B in absolute
    value with N * B at most 2^53, so that their total is computed without
    overflow and is a [double], the statistics are printed and change
    neither the dataset nor the results: the title, the minimum, the
    maximum, the quotient of the mathematical sum of the results by N,
    then the first 10 results, or all N of them when there are fewer than
    10.  On no result at all the minimum is read from an empty range and
    the behaviour is undefined. *)
Theorem statistics_any_size (c : VectorSumCalculator) (B : Z) :
  size (sums c) <= INT_MAX ->
  0 <= B -> bounded B (sums c) -> B * size (sums c) <= exact_double ->
  if size (sums c) =? 0 then statistics c = Undefined
  else
    exists m M,
      statistics c
      = Done (mkCalc (vectors c) (sums c)
                (cout c
                 ++ [LStatsTitle; LMin m; LMax M;
                     LAvg (Qmake (exact_sum (sums c)) (Z.to_pos (size (sums c))));
                     LFirstTitle]
                 ++ ((fun i => LVector i (sums c !!! Z.to_nat i))
                       <$> seqZ 0 (Z.min 10 (size (sums c)))))) /\
      is_min m (sums c) /\ is_max M (sums c) /\
      Z.abs (exact_sum (sums c)) <= exact_double.
Proof.
  intros Hn HB Hbnd Hfit. pose proof (size_nonneg (sums c)) as Hn0.
  destruct (Z.eqb_spec (size (sums c)) 0) as [Hz|Hnz].
  - unfold statistics. cbn [print sums].
    destruct (sums c) as [|s ss]; [reflexivity|]. rewrite size_cons in Hz.
    pose proof (size_nonneg ss). lia.
  - destruct (statistics_Done c ltac:(lia)) as (m & M & Hrun & Hm & HM).
    exists m, M. split.
    { rewrite Hrun. unfold statistics_lines, avg_sum.
      by rewrite (total_sum_exact B). }
    split; [done|]. split; [done|].
    pose proof (exact_sum_bounded B (sums c) Hbnd). lia.
Qed.

Lemma statistics_any_size_witness :
  size (sums (mkCalc [[1; 2; 3]; [4; 5; 6]] [6; 15] [])) <= INT_MAX /\
  0 <= 15 /\ bounded 15 (sums (mkCalc [[1; 2; 3]; [4; 5; 6]] [6; 15] [])) /\
  15 * size (sums (mkCalc [[1; 2; 3]; [4; 5; 6]] [6; 15] [])) <= exact_double /\
  (if size (sums (mkCalc [[1; 2; 3]; [4; 5; 6]] [6; 15] [])) =? 0
   then statistics (mkCalc [[1; 2; 3]; [4; 5; 6]] [6; 15] []) = Undefined
   else
     exists m M,
       statistics (mkCalc [[1; 2; 3]; [4; 5; 6]] [6; 15] [])
       = Done (mkCalc [[1; 2; 3]; [4; 5; 6]] [6; 15]
                 ([] ++ [LStatsTitle; LMin m; LMax M;
                         LAvg (Qmake (exact_sum [6; 15]) (Z.to_pos (size [6; 15])));
                         LFirstTitle]
                  ++ ((fun i => LVector i ([6; 15] !!! Z.to_nat i))
                        <$> seqZ 0 (Z.min 10 (size [6; 15]))))) /\
       is_min m [6; 15] /\ is_max M [6; 15] /\
       Z.abs (exact_sum [6; 15]) <= exact_double).
Proof.
  assert (H : size (sums (mkCalc [[1; 2; 3]; [4; 5; 6]] [6; 15] [])) <= INT_MAX)
    by (vm_compute; discriminate).
  assert (H1 : 0 <= 15) by lia.
  assert (H2 : bounded 15 (sums (mkCalc [[1; 2; 3]; [4; 5; 6]] [6; 15] [])))
    by (repeat constructor; lia).
  assert (H3 : 15 * size (sums (mkCalc [[1; 2; 3]; [4; 5; 6]] [6; 15] [])) <= exact_double)
    by (vm_compute; discriminate).
  split; [exact H|]. split; [exact H1|]. split; [exact H2|]. split; [exact H3|].
  exact (statistics_any_size (mkCalc [[1; 2; 3]; [4; 5; 6]] [6; 15] []) 15 H H1 H2 H3).
Defined.

Lemma exact_sum_between v m M :
  (forall x, x ∈ v -> m <= x <= M) ->
  m * size v <= exact_sum v <= M * size v.
Proof.
  induction v as [|y v IH]; intros Hall.
  - unfold size. cbn. lia.
  - rewrite size_cons. cbn [exact_sum fold_right]. fold (exact_sum v).
    pose proof (Hall y (list_elem_of_here _ _)).
    destruct IH as [IH1 IH2]; [intros x Hx; by apply Hall, list_elem_of_further|].
    lia.
Qed.

Lemma round_down_rounding p : rounding (round_down p).
Proof.
  split.
  - intros q1 q2 Hq. unfold round_down, Qle. cbn [Qnum Qden].
    apply Z.mul_le_mono_nonneg_r; [lia|].
    apply Qfloor_resp_le, Qmult_le_compat_r; [done|]. unfold Qle. cbn. lia.
  - intros z _. unfold round_down.
    rewrite <- inject_Z_mult, Qfloor_Z. unfold Qeq. cbn [Qnum Qden inject_Z]. lia.
Qed.

(** X12. As long as the results are at most B in absolute value with
    N * B at most 2^53, so that their total is computed without overflow
    and is a [double], the mean that is printed lies between the minimum
    and the maximum that are printed, however the division of the total by
    N is rounded. *)
Theorem mean_between_extremes (rnd : Q -> Q) (v : list Z) (m M B : Z) :
  rounding rnd ->
  v <> [] -> 0 <= B -> bounded B v -> B * size v <= exact_double ->
  min_element v = Done m -> max_element v = Done M ->
  Qeq (avg_sum v) (Qmake (exact_sum v) (Z.to_pos (size v))) /\
  Qle (inject_Z m) (rnd (avg_sum v)) /\ Qle (rnd (avg_sum v)) (inject_Z M) /\
  - B <= m <= M /\ M <= B.
Proof.
  intros [Hmono Hexact] Hne HB Hbnd Hmax Hmin HMx.
  destruct (min_element_spec v Hne) as (m' & Hm' & Hm1 & Hm2).
  destruct (max_element_spec v Hne) as (M' & HM' & HM1 & HM2).
  assert (m' = m) as -> by congruence. assert (M' = M) as -> by congruence.
  assert (Hsize : 1 <= size v).
  { destruct v; [done|]. rewrite size_cons. pose proof (size_nonneg v). lia. }
  assert (Htotal : total_sum v = exact_sum v) by (by apply (total_sum_exact B)).
  destruct (exact_sum_between v m M) as [Hlo Hhi]; [intros x Hx; split; auto|].
  unfold bounded in Hbnd. rewrite Forall_forall in Hbnd.
  pose proof (Hbnd m Hm1). pose proof (Hbnd M HM1). pose proof (Hm2 M HM1).
  assert (Hm : Qle (inject_Z m) (avg_sum v)).
  { unfold avg_sum, Qle. cbn [Qnum Qden inject_Z]. rewrite Htotal, Z2Pos.id by lia. lia. }
  assert (HM : Qle (avg_sum v) (inject_Z M)).
  { unfold avg_sum, Qle. cbn [Qnum Qden inject_Z]. rewrite Htotal, Z2Pos.id by lia. lia. }
  split; [unfold avg_sum; by rewrite Htotal|].
  split; [|split; [|lia]].
  - rewrite <- (Hexact m) by nia. by apply Hmono.
  - rewrite <- (Hexact M) by nia. by apply Hmono.
Qed.

Lemma mean_between_extremes_witness :
  rounding (round_down 4) /\
  [6; 15] <> [] /\ 0 <= 15 /\ bounded 15 [6; 15] /\ 15 * size [6; 15] <= exact_double /\
  min_element [6; 15] = Done 6 /\ max_element [6; 15] = Done 15 /\
  Qeq (avg_sum [6; 15]) (Qmake (exact_sum [6; 15]) (Z.to_pos (size [6; 15]))) /\
  Qle (inject_Z 6) (round_down 4 (avg_sum [6; 15])) /\
  Qle (round_down 4 (avg_sum [6; 15])) (inject_Z 15) /\
  - 15 <= 6 <= 15 /\ 15 <= 15.
Proof.
  assert (H0 : rounding (round_down 4)) by apply round_down_rounding.
  assert (H1 : [6; 15] <> ([] : list Z)) by discriminate.
  assert (H2 : 0 <= 15) by lia.
  assert (H3 : bounded 15 [6; 15]) by (repeat constructor; lia).
  assert (H4 : 15 * size [6; 15] <= exact_double) by (vm_compute; discriminate).
  assert (H5 : min_element [6; 15] = Done 6) by reflexivity.
  assert (H6 : max_element [6; 15] = Done 15) by reflexivity.
  split; [exact H0|].
  split; [exact H1|]. split; [exact H2|]. split; [exact H3|]. split; [exact H4|].
  split; [exact H5|]. split; [exact H6|].
  exact (mean_between_extremes (round_down 4) [6; 15] 6 15 15 H0 H1 H2 H3 H4 H5 H6).
Defined.

(** ** The output of a run *)

Lemma trials_closed e tcs : forall (k0 : nat) c times,
  sized c -> 1 <= size (vectors c) <= INT_MAX ->
  Forall (fun w => 1 <= w <= INT_MAX) tcs ->
  (forall (k t : nat), 0 <= val_draw e k t < size (vectors c)) ->
  for_each (trial e) (zip (seq k0 (length tcs)) tcs) (c, times)
  = Done (mkCalc (vectors c)
            (match tcs with [] => sums c | _ => sum_vector <$> vectors c end)
            (cout c ++ trials_lines e (size (vectors c)) k0 tcs),
          times ++ trial_times e k0 (length tcs)).
Proof.
  induction tcs as [|w tcs IH]; intros k0 c times Hc Hn Hws Hdraw.
  - cbn. rewrite !app_nil_r. by destruct c.
  - apply Forall_cons_1 in Hws as [Hw Hws]. cbn [length seq zip_with for_each].
    rewrite trial_Done, bind_Done by done.
    rewrite IH; [|by unfold sized; cbn; rewrite length_fmap|done|done|done].
    cbn [vectors sums cout].
    change (trials_lines e (size (vectors c)) k0 (w :: tcs))
      with (trial_lines e (size (vectors c)) k0 w
              ++ trials_lines e (size (vectors c)) (S k0) tcs).
    change (trial_times e k0 (S (length tcs)))
      with (Qmake (elapsed e k0) 1000 :: trial_times e (S k0) (length tcs)).
    rewrite <- !app_assoc. cbn [app]. by destruct tcs.
Qed.

Lemma table_closed tcs times c (k : nat) :
  (k <= length tcs)%nat -> (k <= length times)%nat ->
  for_each (table_row tcs times) (seqZ 0 (Z.of_nat k)) c
  = Done (mkCalc (vectors c) (sums c)
            (cout c ++ table_rows (take k tcs) (take k times))).
Proof.
  induction k as [|k IH]; intros H1 H2.
  - rewrite seqZ_nil by lia. cbn. rewrite app_nil_r. by destruct c.
  - rewrite seqZ_S, for_each_app, IH, bind_Done by lia. cbn [for_each]. unfold table_row.
    destruct (lookup_lt_is_Some_2 tcs k ltac:(lia)) as [n Hn].
    destruct (lookup_lt_is_Some_2 times k ltac:(lia)) as [t Ht].
    rewrite (at_index_Done tcs _ n), (at_index_Done times _ t)
      by (lia || by rewrite Z.add_0_l, Nat2Z.id).
    rewrite !bind_Done. unfold print. cbn [vectors sums cout].
    rewrite (take_S_r _ _ _ Hn), (take_S_r _ _ _ Ht). unfold table_rows.
    rewrite zip_with_app by (rewrite !length_take; lia).
    by rewrite <- app_assoc.
Qed.

Section Output.

Variable e : env.
Variables num_vectors vector_size min_val max_val : Z.
Hypothesis num_vectors_int : 1 <= num_vectors <= INT_MAX.
Hypothesis vector_size_int : 0 <= vector_size <= INT_MAX.
Hypothesis range_ok : min_val <= max_val.
Hypothesis val_draw_ok : forall k t : nat, 0 <= val_draw e k t < num_vectors.
Hypothesis alloc_ok :
  forall call, (call <= S (Z.to_nat num_vectors))%nat -> alloc e call = None.

Variable thread_counts : list Z.
Hypothesis thread_counts_ok : Forall (fun w => 1 <= w <= INT_MAX) thread_counts.
Hypothesis some_trial : thread_counts <> [].

(** All that a run prints. *)
Lemma benchmark_output :
  exists m M,
    benchmark num_vectors vector_size min_val max_val thread_counts e calculator
    = Done (mkCalc (generated_dataset e num_vectors vector_size)
              (sum_vector <$> generated_dataset e num_vectors vector_size)
              ([LTitle; LParameters; LValueRange; LGenerating; LGenerated]
               ++ trials_lines e num_vectors 0 thread_counts
               ++ [LTableTitle; LTableHeader]
               ++ table_rows thread_counts (trial_times e 0 (length thread_counts))
               ++ statistics_lines m M
                    (avg_sum (sum_vector <$> generated_dataset e num_vectors vector_size))
                    (sum_vector <$> generated_dataset e num_vectors vector_size))) /\
    is_min m (sum_vector <$> generated_dataset e num_vectors vector_size) /\
    is_max M (sum_vector <$> generated_dataset e num_vectors vector_size).
Proof.
  pose proof (generated_size e num_vectors vector_size num_vectors_int) as Hsize.
  pose proof (generated_sized e num_vectors vector_size) as Hsized.
  pose proof (trials_closed e thread_counts 0 (generated e num_vectors vector_size) []
                Hsized ltac:(lia) thread_counts_ok ltac:(by rewrite Hsize)) as Hrun.
  rewrite Hsize in Hrun.
  remember (generated_dataset e num_vectors vector_size) as ds eqn:Hds.
  remember (sum_vector <$> ds) as ss eqn:Hss.
  assert (Hlen : size ss = num_vectors).
  { rewrite Hss. unfold size. rewrite length_fmap.
    unfold generated, size in Hsize. cbn [vectors print] in Hsize. by rewrite <- Hds in Hsize. }
  set (c3 := mkCalc ds ss
               ([LTitle; LParameters; LValueRange; LGenerating; LGenerated]
                ++ trials_lines e num_vectors 0 thread_counts)).
  assert (Htimes : length (trial_times e 0 (length thread_counts)) = length thread_counts).
  { unfold trial_times. by rewrite length_fmap, length_seq. }
  pose proof (table_closed thread_counts (trial_times e 0 (length thread_counts))
                (print LTableHeader (print LTableTitle c3)) (length thread_counts)
                ltac:(lia) ltac:(lia)) as Hrows.
  rewrite !take_ge in Hrows by lia.
  destruct (statistics_Done
              (mkCalc ds ss
                 (cout (print LTableHeader (print LTableTitle c3))
                    ++ table_rows thread_counts (trial_times e 0 (length thread_counts)))))
    as (m & M & Hstats & Hm & HM); [cbn [sums]; lia|].
  exists m, M. split; [|done].
  unfold benchmark.
  rewrite (generateVectors_Done e num_vectors vector_size min_val max_val)
    by (done || lia).
  rewrite bind_Done. change (print LGenerated _) with (generated e num_vectors vector_size).
  unfold run_trials. rewrite Hrun, bind_Done.
  unfold generated at 1 2 3. cbn [vectors sums cout print]. rewrite <- Hds.
  assert (Hsums : match thread_counts with
                  | [] => replicate (Z.to_nat num_vectors) 0
                  | _ :: _ => sum_vector <$> ds
                  end = ss).
  { destruct thread_counts; [done|]. by rewrite Hss. }
  rewrite Hsums. cbn [app].
  change (mkCalc ds ss _) with c3 at 1.
  unfold size at 1. rewrite Hrows, bind_Done.
  cbn [vectors sums c3 print] in *. rewrite Hstats.
  unfold print, c3. cbn [cout]. rewrite <- !app_assoc. done.
Qed.

End Output.

(** *** The sequential run is one of the runs *)

Lemma locked_turns l (n : nat) : forall i c c' ts (k : nat) mutex,
  for_each sum_one (seqZ i (Z.of_nat n)) c = Done c' ->
  i + Z.of_nat n <= l_end l ->
  ts !! k = Some (mkLocked l i InLoop) ->
  rtc locked_step (mkMachine ts c mutex)
    (mkMachine (<[k := mkLocked l (i + Z.of_nat n) InLoop]> ts) c' mutex).
Proof.
  induction n as [|n IH]; intros i c c' ts k mutex Hrun Hend Hk.
  - rewrite seqZ_nil in Hrun by lia. injection Hrun as <-.
    replace (i + Z.of_nat 0) with i by lia. rewrite list_insert_id by done. apply rtc_refl.
  - rewrite seqZ_cons in Hrun by lia. cbn [for_each] in Hrun.
    destruct (sum_one i c) as [c1| |] eqn:Hone; cbn in Hrun; [|done|done].
    replace (Z.pred (Z.of_nat (S n))) with (Z.of_nat n) in Hrun by lia.
    eapply rtc_l; [apply (locked_turn ts k l i c c1 mutex Hk); [lia|done]|].
    replace (i + Z.of_nat (S n)) with (Z.succ i + Z.of_nat n) by lia.
    pose proof (IH (Z.succ i) c1 c' (<[k := mkLocked l (i + 1) InLoop]> ts) k mutex
                  Hrun ltac:(lia)) as Hrest.
    rewrite list_insert_insert_eq in Hrest. apply Hrest.
    apply list_lookup_insert_eq. by eapply lookup_lt_Some.
Qed.

Lemma locked_thread_runs l c c' ts (k : nat) :
  run_launch l c = Done c' ->
  ts !! k = Some (lock_spawn l) ->
  rtc locked_step (mkMachine ts c None)
    (mkMachine (<[k := mkLocked l (Z.max (l_start l) (l_end l)) Returned]> ts) c' None).
Proof.
  unfold run_launch, calculateSumsRange. intros Hrun Hk.
  pose proof (lookup_lt_Some _ _ _ Hk) as Hlt.
  destruct (for_each sum_one _ c) as [c1| |] eqn:Hloop; cbn in Hrun; [|done|done].
  injection Hrun as <-.
  set (i := Z.max (l_start l) (l_end l)).
  assert (Hturns : rtc locked_step (mkMachine ts c None)
                     (mkMachine (<[k := mkLocked l i InLoop]> ts) c1 None)).
  { assert (Hn : l_end l - l_start l <= 0 \/ 0 < l_end l - l_start l) by lia.
    destruct Hn as [Hn|Hn].
    - rewrite seqZ_nil in Hloop by lia. injection Hloop as <-.
      unfold i. rewrite Z.max_l by lia. rewrite list_insert_id by done. apply rtc_refl.
    - rewrite <- (Z2Nat.id (l_end l - l_start l)) in Hloop by lia.
      pose proof (locked_turns l _ _ _ _ ts k None Hloop ltac:(lia) Hk) as Hrun.
      rewrite Z2Nat.id in Hrun by lia.
      replace (l_start l + (l_end l - l_start l)) with i in Hrun by (unfold i; lia).
      exact Hrun. }
  etrans; [exact Hturns|].
  eapply rtc_l.
  { eapply (locked_lock _ k l i); [by apply list_lookup_insert_eq | unfold i; lia]. }
  eapply rtc_l.
  { eapply (locked_print _ k l i). apply list_lookup_insert_eq. by rewrite length_insert. }
  eapply rtc_l.
  { eapply (locked_unlock _ k l i). apply list_lookup_insert_eq. by rewrite !length_insert. }
  rewrite !list_insert_insert_eq. apply rtc_refl.
Qed.

Lemma locked_sequential ls : forall before c c',
  Forall returned before ->
  for_each run_launch ls c = Done c' ->
  exists ts,
    rtc locked_step (mkMachine (before ++ (lock_spawn <$> ls)) c None) (mkMachine ts c' None) /\
    Forall returned ts.
Proof.
  induction ls as [|l ls IH]; intros before c c' Hbefore Hrun.
  - cbn in Hrun. injection Hrun as <-. exists before.
    rewrite app_nil_r. split; [apply rtc_refl|done].
  - cbn [for_each] in Hrun.
    destruct (run_launch l c) as [c1| |] eqn:Hone; cbn in Hrun; [|done|done].
    set (t := mkLocked l (Z.max (l_start l) (l_end l)) Returned).
    destruct (IH (before ++ [t]) c1 c') as (ts & Hrtc & Hfin); [|done|].
    { apply Forall_app. split; [done|]. by repeat constructor. }
    exists ts. split; [|done].
    etrans; [|rewrite <- app_assoc in Hrtc; exact Hrtc].
    pose proof (locked_thread_runs l c c1 (before ++ (lock_spawn <$> l :: ls))
                  (length before) Hone) as Hlift.
    rewrite insert_app_r_alt, Nat.sub_diag in Hlift by lia.
    apply Hlift. rewrite lookup_app_r, Nat.sub_diag by lia. done.
Qed.

Lemma measure_measured w t c r :
  measureExecutionTime w t c = Done r -> measured w t c r.
Proof.
  unfold measureExecutionTime. intros Hrun.
  destruct (thread_launches _ _) as [ls| |] eqn:Hls; cbn in Hrun; [|done|done].
  destruct (for_each run_launch ls c) as [c'| |] eqn:Hloop; cbn in Hrun; [|done|done].
  injection Hrun as <-.
  destruct (locked_sequential ls [] c c' ltac:(constructor) Hloop) as (ts & Hrtc & Hret).
  exists ls, ts, None. done.
Qed.

Lemma trial_trial_run e kn s s' : trial e kn s = Done s' -> trial_run e kn s s'.
Proof.
  destruct kn as [k w], s as [c times]. unfold trial. intros Hrun.
  destruct (measureExecutionTime _ _ _) as [r| |] eqn:Hm; cbn in Hrun; [|done|done].
  exists r. split; [by apply measure_measured|done].
Qed.

Lemma trials_trials_run e kns : forall s s',
  for_each (trial e) kns s = Done s' -> trials_run e kns s s'.
Proof.
  induction kns as [|kn kns IH]; intros s s' Hrun; cbn in *; [congruence|].
  destruct (trial e kn s) as [s1| |] eqn:H1; cbn in Hrun; [|done|done].
  exists s1. split; [by apply trial_trial_run|by apply IH].
Qed.

Lemma benchmark_benchmark_run num_vectors vector_size min_val max_val tcs e c final :
  benchmark num_vectors vector_size min_val max_val tcs e c = Done final ->
  benchmark_run num_vectors vector_size min_val max_val tcs e c final.
Proof.
  unfold benchmark, run_trials. intros Hrun.
  destruct (generateVectors _ _ _ _ _ _) as [c1| |] eqn:Hgen; cbn in Hrun; [|done|done].
  destruct (for_each (trial e) _ _) as [[c2 times]| |] eqn:Htrials; cbn in Hrun; [|done|done].
  exists c1, c2, times. split; [done|]. split; [by apply trials_trials_run|done].
Qed.

(** A parallel phase of two threads in which the second thread takes the
    lock before the first: its line comes first. *)
Example second_thread_first :
  measured 2 700 two_vectors
    (Qmake 700 1000,
     mkCalc [[1; 2; 3]; [4; 5; 6]] [6; 15] [LWorker 2 1 1; LWorker 1 0 0]).
Proof.
  exists [mkLaunch 0 1 1; mkLaunch 1 2 2],
         [mkLocked (mkLaunch 0 1 1) 1 Returned; mkLocked (mkLaunch 1 2 2) 2 Returned],
         None.
  split; [reflexivity|]. split; [|split; [by repeat constructor|reflexivity]].
  eapply rtc_l.
  { eapply (locked_turn _ 0%nat); [reflexivity | cbn; lia | reflexivity]. }
  eapply rtc_l.
  { eapply (locked_turn _ 1%nat); [reflexivity | cbn; lia | reflexivity]. }
  eapply rtc_l.
  { eapply (locked_lock _ 1%nat); [reflexivity | cbn; lia]. }
  eapply rtc_l.
  { eapply (locked_print _ 1%nat). reflexivity. }
  eapply rtc_l.
  { eapply (locked_unlock _ 1%nat). reflexivity. }
  eapply rtc_l.
  { eapply (locked_lock _ 0%nat); [reflexivity | cbn; lia]. }
  eapply rtc_l.
  { eapply (locked_print _ 0%nat). reflexivity. }
  eapply rtc_l.
  { eapply (locked_unlock _ 0%nat). reflexivity. }
  apply rtc_refl.
Qed.

(** *** Every run prints the same lines *)

Lemma measured_spec w t c r :
  sized c -> size (vectors c) <= INT_MAX -> 1 <= w <= INT_MAX ->
  measured w t c r ->
  exists out,
    r = (Qmake t 1000, mkCalc (vectors c) (sum_vector <$> vectors c) (cout c ++ out)) /\
    out ≡ₚ range_line (size (vectors c) / w) (size (vectors c) mod w) <$> seqZ 0 w.
Proof.
  intros Hc Hn Hw (ls & ts & mutex & Hls & Hrtc & Hret & Htime).
  pose proof (size_nonneg (vectors c)) as Hn0.
  rewrite thread_launches_balanced in Hls by lia. injection Hls as <-.
  destruct (reached_end c _ Hc (balanced_chained_all _ w Hn0 ltac:(lia)) _ Hrtc Hret)
    as (_ & Hvs & Hss & out & Hout & Hperm).
  cbn [m_calc] in *. exists out. split.
  - destruct r as [q [vs ss o]]. cbn in *. by subst.
  - rewrite Hperm, <- list_fmap_compose.
    assert (Heq : (worker_line ∘ balanced_launch (size (vectors c) / w) (size (vectors c) mod w))
                    <$> seqZ 0 w
                  = range_line (size (vectors c) / w) (size (vectors c) mod w) <$> seqZ 0 w).
    { apply Forall_fmap_ext_1, Forall_forall. intros k Hk. apply elem_of_seqZ in Hk.
      cbn. apply worker_line_balanced; lia. }
    by rewrite Heq.
Qed.

Lemma finish_trial_correct draw time c times :
  sized c -> 1 <= size (vectors c) <= INT_MAX ->
  sums c = sum_vector <$> vectors c ->
  (forall t : nat, 0 <= draw t < size (vectors c)) ->
  finish_trial draw time (c, times)
  = Done (mkCalc (vectors c) (sums c) (cout c ++ [LCorrect; LTime time]), times ++ [time]).
Proof.
  intros Hc Hn Hss Hdraw. unfold finish_trial, validateResults.
  rewrite (validate_bound_nonempty c) by lia.
  destruct (Z.ltb_spec (size (vectors c) - 1) 0); [lia|].
  destruct (validate_loop_spec c draw Hc (seq 0 10))
    as [[_ Hrun]|(before & t & after & _ & _ & Hbad & _)].
  - apply Forall_forall. intros t _. apply Hdraw.
  - rewrite Hrun, bind_Done. unfold print. cbn [vectors sums cout].
    by rewrite <- !app_assoc.
  - exfalso. apply Hbad. unfold sample_matches. by rewrite Hss, list_lookup_fmap.
Qed.

Lemma trial_run_spec e (k : nat) w c times s' :
  sized c -> 1 <= size (vectors c) <= INT_MAX -> 1 <= w <= INT_MAX ->
  (forall t : nat, 0 <= val_draw e k t < size (vectors c)) ->
  trial_run e (k, w) (c, times) s' ->
  exists lines,
    s' = (mkCalc (vectors c) (sum_vector <$> vectors c)
            (cout c ++ trial_block e k w lines),
          times ++ [Qmake (elapsed e k) 1000]) /\
    lines ≡ₚ range_line (size (vectors c) / w) (size (vectors c) mod w) <$> seqZ 0 w.
Proof.
  intros Hc Hn Hw Hdraw (r & Hm & Hfin). cbn [fst snd] in *.
  apply measured_spec in Hm as (out & -> & Hperm);
    [|unfold sized; cbn; by rewrite length_replicate|cbn; lia|done].
  cbn [fst snd vectors sums cout fill_zero print] in *.
  rewrite finish_trial_correct in Hfin;
    [|unfold sized; cbn; by rewrite length_fmap|cbn; lia|done|done].
  injection Hfin as <-. exists out. split; [|done].
  cbn [vectors sums cout]. unfold trial_block. f_equal. f_equal.
  rewrite <- !app_assoc. done.
Qed.

Lemma trials_run_spec e tcs : forall (k0 : nat) c times s',
  sized c -> 1 <= size (vectors c) <= INT_MAX ->
  Forall (fun w => 1 <= w <= INT_MAX) tcs ->
  (forall (k t : nat), 0 <= val_draw e k t < size (vectors c)) ->
  trials_run e (zip (seq k0 (length tcs)) tcs) (c, times) s' ->
  exists blocks,
    s' = (mkCalc (vectors c)
            (match tcs with [] => sums c | _ => sum_vector <$> vectors c end)
            (cout c ++ trial_blocks e k0 tcs blocks),
          times ++ trial_times e k0 (length tcs)) /\
    Forall2 (fun w lines =>
               lines ≡ₚ range_line (size (vectors c) / w) (size (vectors c) mod w)
                          <$> seqZ 0 w) tcs blocks.
Proof.
  induction tcs as [|w tcs IH]; intros k0 c times s' Hc Hn Hws Hdraw Hrun.
  - cbn in Hrun. subst s'. exists []. split; [|constructor].
    cbn. rewrite !app_nil_r. by destruct c.
  - apply Forall_cons_1 in Hws as [Hw Hws]. cbn [length seq zip_with trials_run] in Hrun.
    destruct Hrun as (s1 & H1 & Hrest).
    apply trial_run_spec in H1 as (lines & -> & Hperm); [|done..].
    apply IH in Hrest as (blocks & -> & Hall);
      [|by unfold sized; cbn; rewrite length_fmap|done|done|done].
    cbn [vectors sums cout] in *.
    exists (lines :: blocks). split; [|by constructor].
    cbn [trial_blocks].
    change (trial_times e k0 (S (length tcs)))
      with (Qmake (elapsed e k0) 1000 :: trial_times e (S k0) (length tcs)).
    rewrite <- !app_assoc. cbn [app]. by destruct tcs.
Qed.

Section Runs.

Variable e : env.
Variables num_vectors vector_size min_val max_val : Z.
Hypothesis num_vectors_int : 1 <= num_vectors <= INT_MAX.
Hypothesis vector_size_int : 0 <= vector_size <= INT_MAX.
Hypothesis range_ok : min_val <= max_val.
Hypothesis val_draw_ok : forall k t : nat, 0 <= val_draw e k t < num_vectors.
Hypothesis alloc_ok :
  forall call, (call <= S (Z.to_nat num_vectors))%nat -> alloc e call = None.

Variable thread_counts : list Z.
Hypothesis thread_counts_ok : Forall (fun w => 1 <= w <= INT_MAX) thread_counts.
Hypothesis some_trial : thread_counts <> [].

Variable B : Z.
Hypothesis B_nonneg : 0 <= B.
Hypothesis gen_draw_ok : forall k, - B <= gen_draw e k <= B.
Hypothesis total_exact : B * vector_size * num_vectors <= exact_double.

Lemma generated_exact_sums :
  sum_vector <$> generated_dataset e num_vectors vector_size
  = exact_sum <$> generated_dataset e num_vectors vector_size.
Proof.
  destruct (generated_dataset_bounded e num_vectors vector_size B ltac:(lia) gen_draw_ok)
    as [_ Hall].
  apply Forall_fmap_ext_1. eapply Forall_impl; [exact Hall|].
  intros v [Hlen Hv]. cbn. apply (sum_vector_exact B B_nonneg v Hv).
  rewrite Hlen. unfold exact_double, LLONG_MAX in *. nia.
Qed.

(** Some run completes. *)
Lemma benchmark_run_exists :
  exists final,
    benchmark_run num_vectors vector_size min_val max_val thread_counts e calculator final.
Proof.
  destruct (benchmark_output e num_vectors vector_size min_val max_val
              num_vectors_int vector_size_int range_ok val_draw_ok alloc_ok
              thread_counts thread_counts_ok some_trial) as (m & M & Hrun & _).
  eexists. apply benchmark_benchmark_run. exact Hrun.
Qed.

(** All that a run prints, whatever the schedules of its trials. *)
Lemma benchmark_run_output final :
  benchmark_run num_vectors vector_size min_val max_val thread_counts e calculator final ->
  exists blocks m M,
    final
    = mkCalc (generated_dataset e num_vectors vector_size)
        (exact_sum <$> generated_dataset e num_vectors vector_size)
        ([LTitle; LParameters; LValueRange; LGenerating; LGenerated]
         ++ trial_blocks e 0 thread_counts blocks
         ++ [LTableTitle; LTableHeader]
         ++ table_rows thread_counts (trial_times e 0 (length thread_counts))
         ++ [LStatsTitle; LMin m; LMax M;
             LAvg (Qmake (exact_sum (exact_sum <$> generated_dataset e num_vectors vector_size))
                     (Z.to_pos num_vectors));
             LFirstTitle]
         ++ ((fun i => LVector i
                         ((exact_sum <$> generated_dataset e num_vectors vector_size)
                            !!! Z.to_nat i))
               <$> seqZ 0 (Z.min 10 num_vectors))) /\
    Forall2 (fun w lines =>
               lines ≡ₚ range_line (num_vectors / w) (num_vectors mod w) <$> seqZ 0 w)
      thread_counts blocks /\
    is_min m (exact_sum <$> generated_dataset e num_vectors vector_size) /\
    is_max M (exact_sum <$> generated_dataset e num_vectors vector_size).
Proof.
  intros (c1 & c2 & times & Hgen & Htrials & Hend).
  pose proof (generated_size e num_vectors vector_size num_vectors_int) as Hsize.
  pose proof (generated_sized e num_vectors vector_size) as Hsized.
  rewrite (generateVectors_Done e num_vectors vector_size min_val max_val) in Hgen
    by (done || lia).
  injection Hgen as <-.
  change (print LGenerated _) with (generated e num_vectors vector_size) in Htrials.
  apply trials_run_spec in Htrials as (blocks & Heq & Hblocks);
    [|done|lia|done|by rewrite Hsize].
  rewrite Hsize in Hblocks. injection Heq as -> ->.
  pose proof generated_exact_sums as Hexact.
  remember (generated_dataset e num_vectors vector_size) as ds eqn:Hds.
  remember (exact_sum <$> ds) as ss eqn:Hss.
  assert (Hsums : match thread_counts with
                  | [] => replicate (Z.to_nat num_vectors) 0
                  | _ :: _ => sum_vector <$> ds
                  end = ss).
  { destruct thread_counts; [done|]. exact Hexact. }
  rewrite Hsums in Hend.
  assert (Hlen : size ss = num_vectors).
  { rewrite Hss. unfold size. rewrite length_fmap.
    unfold generated, size in Hsize. cbn [vectors print] in Hsize. by rewrite <- Hds in Hsize. }
  assert (Htimes : length (trial_times e 0 (length thread_counts)) = length thread_counts).
  { unfold trial_times. by rewrite length_fmap, length_seq. }
  unfold size in Hend at 1. cbn [app] in Hend.
  rewrite table_closed in Hend by lia. rewrite bind_Done in Hend.
  rewrite !take_ge in Hend by lia. cbn [vectors sums cout] in Hend.
  cbn [print vectors sums cout] in Hend.
  match type of Hend with
  | statistics ?c = _ =>
      destruct (statistics_Done c) as (m & M & Hstats & Hm & HM); [cbn [sums]; lia|]
  end.
  assert (Hbnd : bounded (B * vector_size) ss).
  { rewrite <- Hexact, Hds.
    apply generated_sums_bounded; [done | lia | | done].
    unfold exact_double, LLONG_MAX in *. nia. }
  assert (Havg : avg_sum ss = Qmake (exact_sum ss) (Z.to_pos num_vectors)).
  { unfold avg_sum. rewrite (total_sum_exact (B * vector_size)), Hlen; [done|nia|done|].
    rewrite Hlen. lia. }
  exists blocks, m, M. split; [|done].
  rewrite Hstats in Hend. injection Hend as <-.
  cbn [vectors sums cout].
  unfold statistics_lines. rewrite Havg, Hlen. f_equal.
  cbn [app]. rewrite <- !app_assoc. done.
Qed.

End Runs.

Lemma three_blocks {A B} (P : A -> B -> Prop) a b c blocks :
  Forall2 P [a; b; c] blocks ->
  exists x y z, blocks = [x; y; z] /\ P a x /\ P b y /\ P c z.
Proof.
  intros H. apply Forall2_cons_inv_l in H as (x & l1 & Hx & H & ->).
  apply Forall2_cons_inv_l in H as (y & l2 & Hy & H & ->).
  apply Forall2_cons_inv_l in H as (z & l3 & Hz & H & ->).
  apply Forall2_nil_inv_l in H as ->. by exists x, y, z.
Qed.

(** X13. Whatever the order in which the threads of each trial take their
    turns and the lock, a run in which no allocation fails and the values
    drawn are in [-1000, 1000] can complete, and every run that completes
    ends with code 0, nothing on the error stream and, on the output: the
    four lines of the header and the line that follows the generation; for
    each thread count 1, 2 and 4 in turn, the title of the trial, the lines
    of its threads in the order they took the lock, each with its balanced
    range of the 30000 vectors, the line that reports correct results and
    the time; the two lines that head the table and one row for each
    thread count with the time of its trial; the minimum, the maximum and
    the mean of the mathematical sums of the generated vectors, and the
    first 10 of these sums. *)
Theorem run_output (e : env) :
  (forall call : nat, Z.of_nat call <= 30001 -> alloc e call = None) ->
  (forall k, -1000 <= gen_draw e k <= 1000) ->
  (forall k t, 0 <= val_draw e k t <= 29999) ->
  (exists p, completes e p) /\
  forall p, completes e p ->
    exists one two four m M,
      p = mkProcess 0
            ([LTitle; LParameters; LValueRange; LGenerating; LGenerated]
             ++ trial_block e 0 1 one ++ trial_block e 1 2 two ++ trial_block e 2 4 four
             ++ [LTableTitle; LTableHeader;
                 LTableRow 1 (Qmake (elapsed e 0) 1000);
                 LTableRow 2 (Qmake (elapsed e 1) 1000);
                 LTableRow 4 (Qmake (elapsed e 2) 1000);
                 LStatsTitle; LMin m; LMax M;
                 LAvg (Qmake (exact_sum (exact_sum <$> generated_dataset e 30000 100)) 30000);
                 LFirstTitle]
             ++ ((fun i => LVector i ((exact_sum <$> generated_dataset e 30000 100)
                                        !!! Z.to_nat i))
                   <$> seqZ 0 10))
            [] /\
      one ≡ₚ [LWorker 1 0 29999] /\
      two ≡ₚ [LWorker 1 0 14999; LWorker 2 15000 29999] /\
      four ≡ₚ [LWorker 1 0 7499; LWorker 2 7500 14999;
               LWorker 3 15000 22499; LWorker 4 22500 29999] /\
      is_min m (exact_sum <$> generated_dataset e 30000 100) /\
      is_max M (exact_sum <$> generated_dataset e 30000 100).
Proof.
  intros Halloc Hgen Hval.
  assert (Hnv : 1 <= 30000 <= INT_MAX) by (unfold INT_MAX; lia).
  assert (Hvs : 0 <= 100 <= INT_MAX) by (unfold INT_MAX; lia).
  assert (Hws : Forall (fun w => 1 <= w <= INT_MAX) [1; 2; 4]).
  { repeat constructor; unfold INT_MAX; lia. }
  assert (Hval' : forall k t : nat, 0 <= val_draw e k t < 30000).
  { intros k t. specialize (Hval k t). lia. }
  assert (Halloc' : forall call, (call <= S (Z.to_nat 30000))%nat -> alloc e call = None).
  { intros call Hc. apply Halloc. lia. }
  assert (Hfit : 1000 * 100 * 30000 <= exact_double) by (unfold exact_double; lia).
  split.
  - destruct (benchmark_run_exists e 30000 100 (-1000) 1000 Hnv Hvs ltac:(lia) Hval' Halloc'
                [1; 2; 4] Hws ltac:(discriminate)) as [final Hrun].
    exists (mkProcess 0 (cout final) []), final. done.
  - intros p (final & Hrun & ->).
    apply (benchmark_run_output e 30000 100 (-1000) 1000 Hnv Hvs ltac:(lia) Hval' Halloc'
             [1; 2; 4] Hws ltac:(discriminate) 1000 ltac:(lia) Hgen Hfit) in Hrun
      as (blocks & m & M & -> & Hblocks & Hm & HM).
    apply three_blocks in Hblocks as (one & two & four & -> & H1 & H2 & H4).
    exists one, two, four, m, M.
    split; [|done].
    cbn [cout trial_blocks]. rewrite app_nil_r, <- !app_assoc. reflexivity.
Qed.

Lemma run_output_witness :
  (forall call : nat, Z.of_nat call <= 30001 -> alloc sample_env call = None) /\
  (forall k, -1000 <= gen_draw sample_env k <= 1000) /\
  (forall k t, 0 <= val_draw sample_env k t <= 29999) /\
  (exists p, completes sample_env p) /\
  forall p, completes sample_env p ->
    exists one two four m M,
      p = mkProcess 0
            ([LTitle; LParameters; LValueRange; LGenerating; LGenerated]
             ++ trial_block sample_env 0 1 one ++ trial_block sample_env 1 2 two
             ++ trial_block sample_env 2 4 four
             ++ [LTableTitle; LTableHeader;
                 LTableRow 1 (Qmake (elapsed sample_env 0) 1000);
                 LTableRow 2 (Qmake (elapsed sample_env 1) 1000);
                 LTableRow 4 (Qmake (elapsed sample_env 2) 1000);
                 LStatsTitle; LMin m; LMax M;
                 LAvg (Qmake (exact_sum (exact_sum <$> generated_dataset sample_env 30000 100))
                         30000);
                 LFirstTitle]
             ++ ((fun i => LVector i ((exact_sum <$> generated_dataset sample_env 30000 100)
                                        !!! Z.to_nat i))
                   <$> seqZ 0 10))
            [] /\
      one ≡ₚ [LWorker 1 0 29999] /\
      two ≡ₚ [LWorker 1 0 14999; LWorker 2 15000 29999] /\
      four ≡ₚ [LWorker 1 0 7499; LWorker 2 7500 14999;
               LWorker 3 15000 22499; LWorker 4 22500 29999] /\
      is_min m (exact_sum <$> generated_dataset sample_env 30000 100) /\
      is_max M (exact_sum <$> generated_dataset sample_env 30000 100).
Proof.
  assert (H1 : forall call : nat, Z.of_nat call <= 30001 -> alloc sample_env call = None)
    by reflexivity.
  assert (H2 : forall k, -1000 <= gen_draw sample_env k <= 1000).
  { intros k. cbn [gen_draw sample_env].
    pose proof (Z.mod_pos_bound (Z.of_nat k) 2001 ltac:(lia)). lia. }
  assert (H3 : forall k t, 0 <= val_draw sample_env k t <= 29999).
  { intros k t. cbn [val_draw sample_env].
    pose proof (Z.mod_pos_bound (Z.of_nat t) 30000 ltac:(lia)). lia. }
  split; [exact H1|]. split; [exact H2|]. split; [exact H3|].
  exact (run_output sample_env H1 H2 H3).
Defined.

Lemma filter_none (f : line -> bool) (l : list line) :
  Forall (fun x => f x = false) l -> List.filter f l = [].
Proof.
  induction l as [|x l IH]; intros Hall; [done|].
  apply Forall_cons_1 in Hall as [Hx Hall]. cbn. rewrite Hx. by apply IH.
Qed.

Lemma filter_trial_lines e n k w :
  List.filter is_mismatch (trial_lines e n k w) = [] /\
  List.filter is_correct (trial_lines e n k w) = [LCorrect].
Proof.
  unfold trial_lines. cbn [List.filter is_mismatch is_correct].
  rewrite !List.filter_app. cbn [List.filter is_mismatch is_correct].
  rewrite !filter_none; [done| |];
    apply Forall_fmap, Forall_forall; intros l _; reflexivity.
Qed.

Lemma filter_trials_lines e n tcs : forall k0,
  List.filter is_mismatch (trials_lines e n k0 tcs) = [] /\
  length (List.filter is_correct (trials_lines e n k0 tcs)) = length tcs.
Proof.
  induction tcs as [|w tcs IH]; intros k0; [done|].
  change (trials_lines e n k0 (w :: tcs))
    with (trial_lines e n k0 w ++ trials_lines e n (S k0) tcs).
  rewrite !List.filter_app.
  destruct (filter_trial_lines e n k0 w) as [-> ->].
  destruct (IH (S k0)) as [-> Hlen]. cbn. by rewrite Hlen.
Qed.

Lemma filter_table_rows tcs : forall times,
  List.filter is_mismatch (table_rows tcs times) = [] /\
  List.filter is_correct (table_rows tcs times) = [].
Proof.
  induction tcs as [|w tcs IH]; intros [|t times]; try done.
  unfold table_rows. cbn [zip_with List.filter is_mismatch is_correct]. apply IH.
Qed.

Lemma filter_statistics_lines m M avg ss :
  List.filter is_mismatch (statistics_lines m M avg ss) = [] /\
  List.filter is_correct (statistics_lines m M avg ss) = [].
Proof.
  unfold statistics_lines. cbn [app List.filter is_mismatch is_correct].
  split; apply filter_none, Forall_fmap, Forall_forall; intros i _; reflexivity.
Qed.

(** X14. In a run that completes the validator accepts the results of
    every trial: the output holds no line that reports a mismatch, and one
    line that reports correct results for each of the three trials. *)
Theorem run_reports_no_mismatch (e : env) :
  (forall call : nat, Z.of_nat call <= 30001 -> alloc e call = None) ->
  (forall k t, 0 <= val_draw e k t <= 29999) ->
  exists final,
    runBenchmark e calculator = Done final /\
    List.filter is_mismatch (cout final) = [] /\
    length (List.filter is_correct (cout final)) = 3%nat.
Proof.
  intros Halloc Hval.
  destruct (benchmark_output e 30000 100 (-1000) 1000
              ltac:(unfold INT_MAX; lia) ltac:(unfold INT_MAX; lia) ltac:(lia)
              ltac:(intros k t; specialize (Hval k t); lia)
              ltac:(intros call Hc; apply Halloc; lia)
              [1; 2; 4] ltac:(repeat constructor; unfold INT_MAX; lia) ltac:(discriminate))
    as (m & M & Hrun & _).
  change (benchmark 30000 100 (-1000) 1000 [1; 2; 4] e calculator)
    with (runBenchmark e calculator) in Hrun.
  eexists. split; [exact Hrun|]. cbn [cout].
  rewrite !List.filter_app.
  destruct (filter_trials_lines e 30000 [1; 2; 4] 0) as [-> Hcorrect].
  destruct (filter_table_rows [1; 2; 4] (trial_times e 0 (length [1; 2; 4]))) as [-> ->].
  destruct (filter_statistics_lines m M
              (avg_sum (sum_vector <$> generated_dataset e 30000 100))
              (sum_vector <$> generated_dataset e 30000 100)) as [-> ->].
  split; [reflexivity|].
  cbn [List.filter is_correct app]. rewrite !app_nil_r. exact Hcorrect.
Qed.

Lemma run_reports_no_mismatch_witness :
  (forall call : nat, Z.of_nat call <= 30001 -> alloc sample_env call = None) /\
  (forall k t, 0 <= val_draw sample_env k t <= 29999) /\
  exists final,
    runBenchmark sample_env calculator = Done final /\
    List.filter is_mismatch (cout final) = [] /\
    length (List.filter is_correct (cout final)) = 3%nat.
Proof.
  assert (H1 : forall call : nat, Z.of_nat call <= 30001 -> alloc sample_env call = None)
    by reflexivity.
  assert (H2 : forall k t, 0 <= val_draw sample_env k t <= 29999).
  { intros k t. cbn [val_draw sample_env].
    pose proof (Z.mod_pos_bound (Z.of_nat t) 30000 ltac:(lia)). lia. }
  split; [exact H1|]. split; [exact H2|].
  exact (run_reports_no_mismatch sample_env H1 H2).
Defined.

(** X15. When an allocation of the generator fails, the process has
    printed the four lines of the header and nothing else on the output:
    no trial has run, neither the table nor the statistics are printed; the
    error stream holds the message of the exception and the code is 1. *)
Theorem main_failure_output (e : env) (call : nat) (what : string) :
  Z.of_nat call <= 30001 ->
  alloc e call = Some what ->
  (forall call', (call' < call)%nat -> alloc e call' = None) ->
  main e
  = Some (mkProcess 1 [LTitle; LParameters; LValueRange; LGenerating] [LError what]).
Proof.
  intros Hcall Hfail Hbefore. unfold main.
  change (runBenchmark e calculator)
    with (benchmark 30000 100 (-1000) 1000 ([1; 2] ++ [4]) e calculator).
  rewrite (benchmark_Throws e 30000 100 (-1000) 1000
             ltac:(unfold INT_MAX; lia) ltac:(unfold INT_MAX; lia) ltac:(lia)
             [1; 2] 4 call what ltac:(lia) Hfail Hbefore).
  reflexivity.
Qed.

Lemma main_failure_output_witness :
  Z.of_nat 2 <= 30001 /\
  alloc failing_env 2 = Some "std::bad_alloc"%string /\
  (forall call', (call' < 2)%nat -> alloc failing_env call' = None) /\
  main failing_env
  = Some (mkProcess 1 [LTitle; LParameters; LValueRange; LGenerating]
            [LError "std::bad_alloc"]).
Proof.
  assert (H1 : Z.of_nat 2 <= 30001) by (cbn; lia).
  assert (H2 : alloc failing_env 2 = Some "std::bad_alloc"%string) by reflexivity.
  assert (H3 : forall call', (call' < 2)%nat -> alloc failing_env call' = None).
  { intros call' Hc. destruct call' as [|[|call']]; [reflexivity | reflexivity | lia]. }
  split; [exact H1|]. split; [exact H2|]. split; [exact H3|].
  exact (main_failure_output failing_env 2 "std::bad_alloc" H1 H2 H3).
Defined.

(** ** The worker and its range *)

Lemma sum_one_out_of_bounds i c :
  ~ 0 <= i < size (vectors c) -> sum_one i c = Undefined.
Proof. intros Hi. unfold sum_one. by rewrite at_index_out_of_bounds. Qed.

(** X16. On a dataset the calculator can hold, for a start that is an
    [int] and an end above [INT_MIN] and at most [INT_MAX], so that the
    last index [end_idx - 1] of the line is computed without overflow, the
    worker returns exactly when its range is empty or lies in the dataset:
    on a range with [end_idx <= start_idx] it changes neither the dataset
    nor the results and adds to the output its line alone, with
    [end_idx - 1] as last index; on a range in the dataset it stores the
    mathematical sum of every vector of the range and adds the same line;
    on a range that holds an index below 0 or not below the number of
    vectors, its loop reads outside the dataset. *)
Theorem worker_range_domain (c : VectorSumCalculator) (start_idx end_idx thread_id : Z) :
  sized c -> wf_dataset (vectors c) ->
  is_int start_idx -> INT_MIN < end_idx <= INT_MAX ->
  (end_idx <= start_idx ->
   calculateSumsRange start_idx end_idx thread_id c
   = Done (mkCalc (vectors c) (sums c)
             (cout c ++ [LWorker thread_id start_idx (end_idx - 1)]))) /\
  (0 <= start_idx <= end_idx -> end_idx <= size (vectors c) ->
   exists ss,
     calculateSumsRange start_idx end_idx thread_id c
     = Done (mkCalc (vectors c) ss
               (cout c ++ [LWorker thread_id start_idx (end_idx - 1)])) /\
     forall k : nat, start_idx <= Z.of_nat k < end_idx ->
       ss !! k = exact_sum <$> vectors c !! k) /\
  ((exists c', calculateSumsRange start_idx end_idx thread_id c = Done c') <->
   end_idx <= start_idx \/ (0 <= start_idx /\ end_idx <= size (vectors c))) /\
  (start_idx < end_idx -> start_idx < 0 \/ size (vectors c) < end_idx ->
   calculateSumsRange start_idx end_idx thread_id c = Undefined).
Proof.
  intros Hc Hwf Hstart Hend. pose proof (size_nonneg (vectors c)) as Hn0.
  assert (Hlast : int_of (end_idx - 1) = end_idx - 1).
  { apply int_of_id. unfold is_int. lia. }
  assert (Hempty : end_idx <= start_idx ->
                   calculateSumsRange start_idx end_idx thread_id c
                   = Done (mkCalc (vectors c) (sums c)
                             (cout c ++ [LWorker thread_id start_idx (end_idx - 1)]))).
  { intros Hle. unfold calculateSumsRange. rewrite seqZ_nil by lia.
    cbn [for_each]. rewrite bind_Done, Hlast. reflexivity. }
  assert (Hin : 0 <= start_idx <= end_idx -> end_idx <= size (vectors c) ->
                exists ss,
                  calculateSumsRange start_idx end_idx thread_id c
                  = Done (mkCalc (vectors c) ss
                            (cout c ++ [LWorker thread_id start_idx (end_idx - 1)])) /\
                  forall k : nat, start_idx <= Z.of_nat k < end_idx ->
                    ss !! k = exact_sum <$> vectors c !! k).
  { intros Hse He.
    destruct (calculateSumsRange_spec c Hc start_idx end_idx thread_id Hse He)
      as (ss & Hrun & _ & Hss & _).
    exists ss. rewrite Hlast in Hrun. split; [exact Hrun|].
    intros k Hk. rewrite (Hss k Hk), <- !list_lookup_fmap.
    by rewrite (wf_dataset_sums _ Hwf). }
  assert (Hout : start_idx < end_idx -> start_idx < 0 \/ size (vectors c) < end_idx ->
                 calculateSumsRange start_idx end_idx thread_id c = Undefined).
  { intros Hlt Hbad. unfold calculateSumsRange.
    destruct (Z_lt_dec start_idx 0) as [Hneg|Hpos].
    - rewrite seqZ_cons by lia. cbn [for_each].
      rewrite sum_one_out_of_bounds by lia. reflexivity.
    - destruct (Z_le_dec (size (vectors c)) start_idx) as [Hge|Hlt'].
      + rewrite seqZ_cons by lia. cbn [for_each].
        rewrite sum_one_out_of_bounds by lia. reflexivity.
      + replace (end_idx - start_idx)
          with ((size (vectors c) - start_idx) + (end_idx - size (vectors c))) by lia.
        rewrite seqZ_app, for_each_app by lia.
        destruct (sum_loop_spec c Hc (Z.to_nat (size (vectors c) - start_idx)) start_idx)
          as (ss & Hrun & Hlen & _); [lia | lia |].
        rewrite Z2Nat.id in Hrun by lia. rewrite Hrun, bind_Done.
        replace (start_idx + (size (vectors c) - start_idx)) with (size (vectors c)) by lia.
        rewrite seqZ_cons by lia. cbn [for_each].
        rewrite sum_one_out_of_bounds by (cbn [vectors]; lia). reflexivity. }
  split; [exact Hempty|]. split; [exact Hin|]. split; [|exact Hout].
  split.
  - intros [c' Hrun].
    destruct (Z_le_dec end_idx start_idx) as [Hle|Hlt]; [by left|]. right.
    destruct (Z_lt_dec start_idx 0) as [Hneg|Hpos];
      [rewrite Hout in Hrun by lia; done|].
    destruct (Z_lt_dec (size (vectors c)) end_idx) as [Hbig|Hok];
      [rewrite Hout in Hrun by lia; done|]. lia.
  - intros [Hle|[Hs He]]; [eexists; by apply Hempty|].
    destruct (Z_le_dec end_idx start_idx) as [Hle|Hlt]; [eexists; by apply Hempty|].
    destruct Hin as (ss & Hrun & _); [lia | lia |]. by eexists.
Qed.

Lemma worker_range_domain_witness :
  sized two_vectors /\ wf_dataset (vectors two_vectors) /\
  is_int 1 /\ INT_MIN < 3 <= INT_MAX /\
  (3 <= 1 ->
   calculateSumsRange 1 3 1 two_vectors
   = Done (mkCalc (vectors two_vectors) (sums two_vectors)
             (cout two_vectors ++ [LWorker 1 1 (3 - 1)]))) /\
  (0 <= 1 <= 3 -> 3 <= size (vectors two_vectors) ->
   exists ss,
     calculateSumsRange 1 3 1 two_vectors
     = Done (mkCalc (vectors two_vectors) ss
               (cout two_vectors ++ [LWorker 1 1 (3 - 1)])) /\
     forall k : nat, 1 <= Z.of_nat k < 3 ->
       ss !! k = exact_sum <$> vectors two_vectors !! k) /\
  ((exists c', calculateSumsRange 1 3 1 two_vectors = Done c') <->
   3 <= 1 \/ (0 <= 1 /\ 3 <= size (vectors two_vectors))) /\
  (1 < 3 -> 1 < 0 \/ size (vectors two_vectors) < 3 ->
   calculateSumsRange 1 3 1 two_vectors = Undefined).
Proof.
  assert (H : sized two_vectors) by reflexivity.
  assert (H0 : wf_dataset (vectors two_vectors)).
  { split; [vm_compute; discriminate|].
    repeat constructor; vm_compute; discriminate. }
  assert (H1 : is_int 1) by (vm_compute; split; discriminate).
  assert (H2 : INT_MIN < 3 <= INT_MAX) by (vm_compute; split; [reflexivity|discriminate]).
  split; [exact H|]. split; [exact H0|]. split; [exact H1|]. split; [exact H2|].
  exact (worker_range_domain two_vectors 1 3 1 H H0 H1 H2).
Defined.

(** A worker asked for one vector more than there are. *)
Example scenario_range_too_long : calculateSumsRange 1 3 1 two_vectors = Undefined.
Proof. reflexivity. Qed.

(** ** From the generator to the trial *)

(** X17. What the generator builds meets what a trial needs: on the
    calculator it returns, with values drawn in an interval of [int]s, a
    trial with any number W >= 1 of threads returns with the exact sum of
    every vector, and every sum lies between [vector_size * min_val] and
    [vector_size * max_val]. *)
Theorem generated_trial_exact (e : env) (num_vectors vector_size min_val max_val : Z)
    (c : VectorSumCalculator) (num_threads elapsed_us : Z) :
  0 <= num_vectors <= INT_MAX -> 0 <= vector_size <= INT_MAX ->
  INT_MIN <= min_val -> min_val <= max_val -> max_val <= INT_MAX ->
  (forall call, (call <= S (Z.to_nat num_vectors))%nat -> alloc e call = None) ->
  (forall k, min_val <= gen_draw e k <= max_val) ->
  1 <= num_threads <= INT_MAX ->
  exists g c',
    generateVectors num_vectors vector_size min_val max_val e c = Done g /\
    sized g /\ wf_dataset (vectors g) /\
    measureExecutionTime num_threads elapsed_us g = Done (Qmake elapsed_us 1000, c') /\
    vectors c' = vectors g /\
    sums c' = exact_sum <$> vectors g /\
    Forall (fun s => vector_size * min_val <= s <= vector_size * max_val) (sums c').
Proof.
  intros Hnv Hvs Hlo Hrange Hhi Halloc Hdraw Hw.
  destruct (generated_dataset_range e num_vectors vector_size min_val max_val
              ltac:(lia) ltac:(lia) Hdraw) as [Hsize Hall].
  assert (Hwf : wf_dataset (generated_dataset e num_vectors vector_size)).
  { split; [lia|]. eapply Forall_impl; [exact Hall|]. intros v [Hlen Hv]. cbn.
    split; [lia|]. eapply Forall_impl; [exact Hv|]. intros x. cbn.
    unfold is_int. lia. }
  eexists _, _. split; [by apply generateVectors_Done_any|].
  cbn [vectors sums cout].
  assert (Hsized : sized (mkCalc (generated_dataset e num_vectors vector_size)
                            (take (Z.to_nat num_vectors) (sums c)
                               ++ replicate (Z.to_nat num_vectors - length (sums c)) 0)
                            (cout c))).
  { unfold sized, size in *. cbn [vectors sums].
    rewrite length_app, length_take, length_replicate. lia. }
  split; [exact Hsized|]. split; [exact Hwf|].
  split; [apply measureExecutionTime_spec; [done | cbn [vectors]; lia | done]|].
  cbn [vectors sums]. split; [done|]. rewrite (wf_dataset_sums _ Hwf).
  split; [done|]. apply Forall_fmap. eapply Forall_impl; [exact Hall|].
  intros v [Hlen Hv]. cbn. rewrite Forall_forall in Hv.
  pose proof (exact_sum_between v min_val max_val Hv) as Hb. rewrite Hlen in Hb. lia.
Qed.

Lemma generated_trial_exact_witness :
  0 <= 3 <= INT_MAX /\ 0 <= 2 <= INT_MAX /\
  INT_MIN <= -1000 /\ -1000 <= 1000 /\ 1000 <= INT_MAX /\
  (forall call, (call <= S (Z.to_nat 3))%nat -> alloc sample_env call = None) /\
  (forall k, -1000 <= gen_draw sample_env k <= 1000) /\
  1 <= 4 <= INT_MAX /\
  exists g c',
    generateVectors 3 2 (-1000) 1000 sample_env calculator = Done g /\
    sized g /\ wf_dataset (vectors g) /\
    measureExecutionTime 4 1500 g = Done (Qmake 1500 1000, c') /\
    vectors c' = vectors g /\
    sums c' = exact_sum <$> vectors g /\
    Forall (fun s => 2 * -1000 <= s <= 2 * 1000) (sums c').
Proof.
  assert (H1 : 0 <= 3 <= INT_MAX) by (unfold INT_MAX; lia).
  assert (H2 : 0 <= 2 <= INT_MAX) by (unfold INT_MAX; lia).
  assert (H3 : INT_MIN <= -1000) by (unfold INT_MIN; lia).
  assert (H4 : -1000 <= 1000) by lia.
  assert (H5 : 1000 <= INT_MAX) by (unfold INT_MAX; lia).
  assert (H6 : forall call, (call <= S (Z.to_nat 3))%nat -> alloc sample_env call = None)
    by reflexivity.
  assert (H7 : forall k, -1000 <= gen_draw sample_env k <= 1000).
  { intros k. cbn [gen_draw sample_env].
    pose proof (Z.mod_pos_bound (Z.of_nat k) 2001 ltac:(lia)). lia. }
  assert (H8 : 1 <= 4 <= INT_MAX) by (unfold INT_MAX; lia).
  split; [exact H1|]. split; [exact H2|]. split; [exact H3|]. split; [exact H4|].
  split; [exact H5|]. split; [exact H6|]. split; [exact H7|]. split; [exact H8|].
  exact (generated_trial_exact sample_env 3 2 (-1000) 1000 calculator 4 1500
           H1 H2 H3 H4 H5 H6 H7 H8).
Defined.
